(** * Passive Durability Monitor: a shallow embedding

    Embedding of [engines/ep/src/durability/passive_durability_monitor.cc]:
    the replica-side monitor that tracks in-flight SyncWrite prepares, moves
    the High Prepared Seqno (HPS) and the High Completed Seqno (HCS), prunes
    the tracked container and reconciles it after a rollback.

    The C++ code mutates a [State] in place and reports failures by throwing.
    Both are kept: every operation is a function from the state to an outcome
    paired with the state as it stands when the operation returns or throws. *)

From Stdlib Require Import ZArith List String Bool Lia Sorted.
Import ListNotations.
Open Scope Z_scope.

(** ** Machine integers *)

Definition two64 : Z := 2 ^ 64.
Definition two63 : Z := 2 ^ 63.

(** [static_cast<uint64_t>(x)] for an [int64_t] x. *)
Definition to_uint64 (x : Z) : Z := x mod two64.

(** Conversion of a [uint64_t] to [int64_t] (two's complement). *)
Definition to_int64 (x : Z) : Z :=
  let r := x mod two64 in if r <? two63 then r else r - two64.

(** [size_t] increment ([x++]). *)
Definition size_incr (x : Z) : Z := (x + 1) mod two64.

(** ** Failures *)

(** The failures the code can end in.  [InvalidArgument] is
    [std::invalid_argument], [LogicError] the [std::logic_error] thrown by
    [completeSyncWrite], [ExpectationViolation] a failed [Expects].
    [UndefinedBehaviour] marks the use of an iterator that references no node
    of the container, and [OutOfFuel] a loop of the model that was cut off. *)
Inductive exception : Type :=
| InvalidArgument
| LogicError
| ExpectationViolation
| MonotonicityViolation
| UndefinedBehaviour
| OutOfFuel.

Inductive outcome (A : Type) : Type :=
| Ok (a : A)
| Throw (e : exception).
Arguments Ok {A} a.
Arguments Throw {A} e.

(** ** A state monad whose state survives a throw *)

Section StateMonad.
Context {S : Type}.

Definition M (A : Type) : Type := S -> outcome A * S.

Definition ret {A} (a : A) : M A := fun s => (Ok a, s).

Definition throw {A} (e : exception) : M A := fun s => (Throw e, s).

Definition bind {A B} (m : M A) (k : A -> M B) : M B :=
  fun s =>
    match m s with
    | (Ok a, s') => k a s'
    | (Throw e, s') => (Throw e, s')
    end.

Definition get : M S := fun s => (Ok s, s).

Definition put (s : S) : M unit := fun _ => (Ok tt, s).

Definition lift {A} (o : outcome A) : M A := fun s => (o, s).

(** [Expects(cond)] of the GSL. *)
Definition Expects (cond : bool) : M unit :=
  if cond then ret tt else throw ExpectationViolation.
End StateMonad.
Arguments M S A : clear implicits.

Declare Scope monad_scope.
Delimit Scope monad_scope with monad.
Notation "x <- c1 ;; c2" := (bind c1 (fun x => c2))
  (at level 61, c1 at next level, right associativity) : monad_scope.
Notation "c1 ;; c2" := (bind c1 (fun _ => c2))
  (at level 61, right associativity) : monad_scope.
Open Scope monad_scope.

(** ** Durability requirements and items *)

Inductive Level : Type :=
| LevelNone
| Majority
| MajorityAndPersistOnMaster
| PersistToMajority.

Definition Level_eqb (a b : Level) : bool :=
  match a, b with
  | LevelNone, LevelNone
  | Majority, Majority
  | MajorityAndPersistOnMaster, MajorityAndPersistOnMaster
  | PersistToMajority, PersistToMajority => true
  | _, _ => false
  end.

(** Modelled from the spec: [cb::durability::Timeout] is declared outside the
    available sources.  The monitor only asks whether a timeout is the default
    one; a timeout is the bucket default, infinite, or an explicit number of
    milliseconds. *)
Inductive Timeout : Type :=
| BucketDefault
| Infinity
| Millis (ms : Z).

Definition isDefault (t : Timeout) : bool :=
  match t with BucketDefault => true | _ => false end.

Record Requirements : Type := mkRequirements {
  getLevel : Level;
  getTimeout : Timeout
}.

(** The part of an [Item] the monitor reads: key, sequence number
    ([int64_t]) and durability requirements. *)
Record queued_item : Type := mkItem {
  getKey : string;
  getBySeqno : Z;
  getDurabilityReqs : Requirements
}.

(** A tracked prepare.  On the passive side the constructor receives a null
    cookie, a dummy default timeout and null chains, so the record reduces to
    the item it wraps. *)
Record SyncWrite : Type := mkSyncWrite {
  sw_item : queued_item
}.

Definition sw_key (w : SyncWrite) : string := getKey (sw_item w).
Definition sw_seqno (w : SyncWrite) : Z := getBySeqno (sw_item w).
Definition sw_level (w : SyncWrite) : Level :=
  getLevel (getDurabilityReqs (sw_item w)).

(** ** The container of tracked writes

    The code uses [Container] through [emplace_back], [emplace_front],
    [erase], [begin], [end], [empty] and [size], as a doubly linked list:
    iterators stay valid under insertion at either end and are invalidated
    only by erasing the node they reference, and none of these calls looks at
    a seqno.  A node is identified by the number it received when it was
    allocated; an iterator is the identity of a node, or [None] for [end()].
    An iterator whose node has been erased keeps the identity of that node and
    references nothing any more. *)

Definition node : Type := (nat * SyncWrite)%type.
Definition iterator : Type := option nat.

Record Container : Type := mkContainer {
  nodes : list node;
  fresh : nat
}.

Definition c_empty : Container := {| nodes := []; fresh := O |}.

Definition c_end : iterator := None.

Definition first_of (l : list node) : iterator :=
  match l with
  | [] => c_end
  | (i, _) :: _ => Some i
  end.

Definition c_begin (c : Container) : iterator := first_of (nodes c).

Definition empty (c : Container) : bool :=
  match nodes c with [] => true | _ => false end.

Definition size (c : Container) : Z := Z.of_nat (List.length (nodes c)).

Definition it_eqb (a b : iterator) : bool :=
  match a, b with
  | None, None => true
  | Some x, Some y => Nat.eqb x y
  | _, _ => false
  end.

Definition emplace_back (w : SyncWrite) (c : Container) : Container :=
  {| nodes := nodes c ++ [(fresh c, w)]; fresh := S (fresh c) |}.

Definition emplace_front (w : SyncWrite) (c : Container) : Container :=
  {| nodes := (fresh c, w) :: nodes c; fresh := S (fresh c) |}.

(** [*it]: the node must be in the container. *)
Fixpoint find_node (l : list node) (n : nat) : outcome SyncWrite :=
  match l with
  | [] => Throw UndefinedBehaviour
  | (i, w) :: tl => if Nat.eqb i n then Ok w else find_node tl n
  end.

Definition deref (c : Container) (i : iterator) : outcome SyncWrite :=
  match i with
  | None => Throw UndefinedBehaviour
  | Some n => find_node (nodes c) n
  end.

(** [std::next(it)] for an iterator that references a node. *)
Fixpoint next_of (l : list node) (n : nat) : outcome iterator :=
  match l with
  | [] => Throw UndefinedBehaviour
  | (i, _) :: tl => if Nat.eqb i n then Ok (first_of tl) else next_of tl n
  end.

Definition std_next (c : Container) (i : iterator) : outcome iterator :=
  match i with
  | None => Throw UndefinedBehaviour
  | Some n => next_of (nodes c) n
  end.

(** [--c.end()]: the last node. *)
Fixpoint last_of (l : list node) : iterator :=
  match l with
  | [] => c_end
  | [(i, _)] => Some i
  | _ :: tl => last_of tl
  end.

(** [std::find_if(c.begin(), c.end(), pred)]. *)
Fixpoint find_if (pred : SyncWrite -> bool) (l : list node) : iterator :=
  match l with
  | [] => c_end
  | (i, w) :: tl => if pred w then Some i else find_if pred tl
  end.

(** [c.erase(first, c.end())]. *)
Fixpoint erase_from (l : list node) (first : iterator) : list node :=
  match l with
  | [] => []
  | (i, w) :: tl =>
      if it_eqb (Some i) first then [] else (i, w) :: erase_from tl first
  end.

Definition erase_to_end (first : iterator) (c : Container) : Container :=
  {| nodes := erase_from (nodes c) first; fresh := fresh c |}.

(** ** Positions and the monitor state *)

(** Modelled from the spec: [Position] and its monotonic [lastWriteSeqno] are
    declared in [durability_monitor_impl.h], which is not available.  A
    position pairs an iterator with an [int64_t] that is weakly monotonic:
    assigning a value strictly below the current one throws, [reset] assigns
    unchecked. *)
Record Position : Type := mkPosition {
  it : iterator;
  lastWriteSeqno : Z
}.

Definition monotonic_assign (current new : Z) : outcome Z :=
  if new <? current then Throw MonotonicityViolation else Ok new.

(** Modelled from the spec: the declaration of [State] is in
    [durability_monitor_impl.h], which is not available.  Its fields are those
    the code reads and writes; [snapshotEnd] is a [uint64_t] that starts at
    0, the counters are [size_t].  The assignment to [snapshotEnd] belongs to
    the type of the field: [notifySnapshotEndReceived] has it as the store it
    is written as, [notifySnapshotEndReceived_with] as a parameter. *)
Record State : Type := mkState {
  trackedWrites : Container;
  highPreparedSeqno : Position;
  highCompletedSeqno : Position;
  snapshotEnd : Z;
  totalAccepted : Z;
  totalCommitted : Z;
  totalAborted : Z
}.

Definition set_trackedWrites (c : Container) (s : State) : State :=
  mkState c (highPreparedSeqno s) (highCompletedSeqno s) (snapshotEnd s)
          (totalAccepted s) (totalCommitted s) (totalAborted s).

Definition set_highPreparedSeqno (p : Position) (s : State) : State :=
  mkState (trackedWrites s) p (highCompletedSeqno s) (snapshotEnd s)
          (totalAccepted s) (totalCommitted s) (totalAborted s).

Definition set_highCompletedSeqno (p : Position) (s : State) : State :=
  mkState (trackedWrites s) (highPreparedSeqno s) p (snapshotEnd s)
          (totalAccepted s) (totalCommitted s) (totalAborted s).

Definition set_snapshotEnd (e : Z) (s : State) : State :=
  mkState (trackedWrites s) (highPreparedSeqno s) (highCompletedSeqno s) e
          (totalAccepted s) (totalCommitted s) (totalAborted s).

Definition set_totalAccepted (n : Z) (s : State) : State :=
  mkState (trackedWrites s) (highPreparedSeqno s) (highCompletedSeqno s)
          (snapshotEnd s) n (totalCommitted s) (totalAborted s).

Definition set_totalCommitted (n : Z) (s : State) : State :=
  mkState (trackedWrites s) (highPreparedSeqno s) (highCompletedSeqno s)
          (snapshotEnd s) (totalAccepted s) n (totalAborted s).

Definition set_totalAborted (n : Z) (s : State) : State :=
  mkState (trackedWrites s) (highPreparedSeqno s) (highCompletedSeqno s)
          (snapshotEnd s) (totalAccepted s) (totalCommitted s) n.

(** The state built by [PassiveDurabilityMonitor(VBucket&)]: both positions at
    [trackedWrites.end()], seqnos and counters at zero. *)
Definition initial_State : State :=
  {| trackedWrites := c_empty;
     highPreparedSeqno := mkPosition c_end 0;
     highCompletedSeqno := mkPosition c_end 0;
     snapshotEnd := 0;
     totalAccepted := 0;
     totalCommitted := 0;
     totalAborted := 0 |}.

(** ** [PassiveDurabilityMonitor::State] member functions *)

Definition getIteratorNext (i : iterator) : M State iterator :=
  s <- get ;;
  if it_eqb i c_end
  then ret (c_begin (trackedWrites s))
  else lift (std_next (trackedWrites s) i).

(** The [updateHPS] lambda: the seqno is written first, so that a failed
    monotonicity check changes nothing. *)
Definition updateHPS (next : iterator) : M State unit :=
  s <- get ;;
  w <- lift (deref (trackedWrites s) next) ;;
  v <- lift (monotonic_assign (lastWriteSeqno (highPreparedSeqno s))
                              (sw_seqno w)) ;;
  put (set_highPreparedSeqno (mkPosition next v) s).

(** The pruning loop.  [it] starts at [begin()] and, after each erasure, is
    the successor of the erased node, which is the new [begin()]: the loop
    walks the node list from its head. *)
Fixpoint prune_loop (fence : Z) (l : list node) (hcs hps : iterator)
  : list node * iterator * iterator :=
  match l with
  | [] => (l, hcs, hps)
  | (i, w) :: tl =>
      if sw_seqno w <=? fence
      then prune_loop fence tl
             (if it_eqb (Some i) hcs then c_end else hcs)
             (if it_eqb (Some i) hps then c_end else hps)
      else (l, hcs, hps)
  end.

Definition checkForAndRemovePrepares : M State unit :=
  s <- get ;;
  if empty (trackedWrites s) then ret tt
  else
    let fence := Z.min (lastWriteSeqno (highCompletedSeqno s))
                       (lastWriteSeqno (highPreparedSeqno s)) in
    let '(l, hcs, hps) :=
      prune_loop fence (nodes (trackedWrites s))
                 (it (highCompletedSeqno s)) (it (highPreparedSeqno s)) in
    put (mkState {| nodes := l; fresh := fresh (trackedWrites s) |}
                 (mkPosition hps (lastWriteSeqno (highPreparedSeqno s)))
                 (mkPosition hcs (lastWriteSeqno (highCompletedSeqno s)))
                 (snapshotEnd s) (totalAccepted s) (totalCommitted s)
                 (totalAborted s)).

(** First loop of [updateHighPreparedSeqno]: move the HPS over every prepare
    of the persisted snapshot, whatever its level. *)
Fixpoint persistedLoop (fuel : nat) : M State unit :=
  match fuel with
  | O => throw OutOfFuel
  | S fuel' =>
      s <- get ;;
      next <- getIteratorNext (it (highPreparedSeqno s)) ;;
      if it_eqb next c_end then ret tt
      else
        w <- lift (deref (trackedWrites s) next) ;;
        if to_uint64 (sw_seqno w) <=? snapshotEnd s
        then updateHPS next ;; persistedLoop fuel'
        else ret tt
  end.

(** Second loop: move the HPS up to the first [PersistToMajority] prepare,
    the durability fence. *)
Fixpoint fenceLoop (fuel : nat) : M State unit :=
  match fuel with
  | O => throw OutOfFuel
  | S fuel' =>
      s <- get ;;
      next <- getIteratorNext (it (highPreparedSeqno s)) ;;
      if it_eqb next c_end then ret tt
      else
        w <- lift (deref (trackedWrites s) next) ;;
        if to_uint64 (sw_seqno w) <=? snapshotEnd s
        then
          Expects (negb (Level_eqb (sw_level w) LevelNone)) ;;
          if Level_eqb (sw_level w) PersistToMajority then ret tt
          else updateHPS next ;; fenceLoop fuel'
        else ret tt
  end.

(** Each iteration of either loop moves the HPS iterator one node forward, so
    one more step than there are nodes is enough. *)
Definition loop_fuel (s : State) : nat := S (List.length (nodes (trackedWrites s))).

(** [persistenceSeqno] is the value of [pdm.vb.getPersistenceSeqno()]. *)
Definition updateHighPreparedSeqno (persistenceSeqno : Z) : M State unit :=
  s <- get ;;
  if empty (trackedWrites s) then ret tt
  else
    let prevHPS := lastWriteSeqno (highPreparedSeqno s) in
    (if persistenceSeqno >=? snapshotEnd s
     then persistedLoop (loop_fuel s) else ret tt) ;;
    fenceLoop (loop_fuel s) ;;
    s' <- get ;;
    if negb (lastWriteSeqno (highPreparedSeqno s') =? prevHPS)
    then
      Expects (lastWriteSeqno (highPreparedSeqno s') >? prevHPS) ;;
      checkForAndRemovePrepares
    else ret tt.

(** ** The owning VBucket

    The monitor reads the persistence seqno from its VBucket and hands seqno
    acknowledgements to it.  [seqnoAcks] records the arguments of
    [sendSeqnoAck] in the order of the calls. *)
Record VBucket : Type := mkVBucket {
  persistenceSeqno : Z;
  seqnoAcks : list Z
}.

Definition getPersistenceSeqno (v : VBucket) : Z := persistenceSeqno v.

Definition sendSeqnoAck (hps : Z) : M VBucket unit :=
  v <- get ;;
  put {| persistenceSeqno := persistenceSeqno v;
         seqnoAcks := seqnoAcks v ++ [hps] |}.

(** The flusher moving the persistence seqno (outside the monitor). *)
Definition setPersistenceSeqno (p : Z) (v : VBucket) : VBucket :=
  {| persistenceSeqno := p; seqnoAcks := seqnoAcks v |}.

(** ** The monitor *)

Record PassiveDurabilityMonitor : Type := mkPDM {
  vb : VBucket;
  state : State
}.

(** [auto s = state.wlock(); ...]: run a block on the state. *)
Definition wlock {A} (body : M State A) : M PassiveDurabilityMonitor A :=
  fun m =>
    let '(r, s') := body (state m) in (r, {| vb := vb m; state := s' |}).

(** A call on the VBucket reference. *)
Definition on_vb {A} (call : M VBucket A) : M PassiveDurabilityMonitor A :=
  fun m =>
    let '(r, v') := call (vb m) in (r, {| vb := v'; state := state m |}).

Inductive Resolution : Type :=
| Commit
| Abort
| CompletionWasDeduped.

Definition to_string (res : Resolution) : string :=
  match res with
  | Commit => "commit"
  | Abort => "abort"
  | CompletionWasDeduped => "completionWasDeduped"
  end.

(** Modelled from the spec: [RollbackResult] is declared in
    [rollback_result.h], which is not available.  The code compares its seqnos
    with [static_cast<uint64_t>] of item seqnos, so they are [uint64_t];
    [preparesToAdd] is in seqno order. *)
Record RollbackResult : Type := mkRollbackResult {
  rb_highCompletedSeqno : Z;
  rb_highPreparedSeqno : Z;
  rb_highSeqno : Z;
  preparesToAdd : list queued_item
}.

(** [PassiveDurabilityMonitor(VBucket&)]. *)
Definition new_PDM (v : VBucket) : PassiveDurabilityMonitor :=
  {| vb := v; state := initial_State |}.

(** Body of the loop of the warmup constructor. *)
Fixpoint track_outstanding (outstandingPrepares : list queued_item)
  : M State unit :=
  match outstandingPrepares with
  | [] => ret tt
  | prepare :: rest =>
      Expects (negb (isDefault (getTimeout (getDurabilityReqs prepare)))) ;;
      s <- get ;;
      put (set_trackedWrites
             (emplace_back (mkSyncWrite prepare) (trackedWrites s)) s) ;;
      track_outstanding rest
  end.

(** [PassiveDurabilityMonitor(VBucket&, std::vector<queued_item>&&)]: a throw
    leaves no monitor behind. *)
Definition new_PDM_warmup (v : VBucket) (outstandingPrepares : list queued_item)
  : outcome PassiveDurabilityMonitor :=
  match wlock (track_outstanding outstandingPrepares) (new_PDM v) with
  | (Ok _, m) => Ok m
  | (Throw e, _) => Throw e
  end.

Definition getHighPreparedSeqno (m : PassiveDurabilityMonitor) : Z :=
  lastWriteSeqno (highPreparedSeqno (state m)).

Definition getHighCompletedSeqno (m : PassiveDurabilityMonitor) : Z :=
  lastWriteSeqno (highCompletedSeqno (state m)).

Definition getNumTracked (m : PassiveDurabilityMonitor) : Z :=
  size (trackedWrites (state m)).

Definition getNumAccepted (m : PassiveDurabilityMonitor) : Z :=
  totalAccepted (state m).

Definition getNumCommitted (m : PassiveDurabilityMonitor) : Z :=
  totalCommitted (state m).

Definition getNumAborted (m : PassiveDurabilityMonitor) : Z :=
  totalAborted (state m).

Definition addSyncWrite (item : queued_item)
  : M PassiveDurabilityMonitor unit :=
  let durReq := getDurabilityReqs item in
  if Level_eqb (getLevel durReq) LevelNone then throw InvalidArgument
  else if isDefault (getTimeout durReq) then throw InvalidArgument
  else
    wlock (
      s <- get ;;
      put (set_trackedWrites
             (emplace_back (mkSyncWrite item) (trackedWrites s)) s) ;;
      s <- get ;;
      put (set_totalAccepted (size_incr (totalAccepted s)) s)).

(** The tail shared by the two notifications: acknowledge the HPS if it has
    changed. *)
Definition ack_if_moved (prevHps hps : Z) : M PassiveDurabilityMonitor unit :=
  if negb (hps =? prevHps)
  then Expects (hps >? prevHps) ;; on_vb (sendSeqnoAck hps)
  else ret tt.

(** [s->snapshotEnd = snapEnd] is taken as the store of [snapEnd], as the
    statement is written. *)
Definition notifySnapshotEndReceived (snapEnd : Z)
  : M PassiveDurabilityMonitor unit :=
  m <- get ;;
  p <- wlock (
      s <- get ;;
      put (set_snapshotEnd snapEnd s) ;;
      s <- get ;;
      let prevHps := lastWriteSeqno (highPreparedSeqno s) in
      updateHighPreparedSeqno (getPersistenceSeqno (vb m)) ;;
      s <- get ;;
      ret (prevHps, lastWriteSeqno (highPreparedSeqno s))) ;;
  ack_if_moved (fst p) (snd p).

(** [notifySnapshotEndReceived] with the assignment [s->snapshotEnd = snapEnd]
    as a parameter: [assign current snapEnd] is what the assignment stores, or
    the exception it throws.  What it does with a value below the stored one
    is decided by the type of the field, which is declared in
    [durability_monitor_impl.h]. *)
Definition notifySnapshotEndReceived_with (assign : Z -> Z -> outcome Z)
  (snapEnd : Z) : M PassiveDurabilityMonitor unit :=
  m <- get ;;
  p <- wlock (
      s <- get ;;
      v <- lift (assign (snapshotEnd s) snapEnd) ;;
      put (set_snapshotEnd v s) ;;
      s <- get ;;
      let prevHps := lastWriteSeqno (highPreparedSeqno s) in
      updateHighPreparedSeqno (getPersistenceSeqno (vb m)) ;;
      s <- get ;;
      ret (prevHps, lastWriteSeqno (highPreparedSeqno s))) ;;
  ack_if_moved (fst p) (snd p).

(** The assignment read as the store of an integer field. *)
Definition assign_as_written (current snapEnd : Z) : outcome Z := Ok snapEnd.


Definition notifyLocalPersistence : M PassiveDurabilityMonitor unit :=
  m <- get ;;
  p <- wlock (
      s <- get ;;
      let prevHps := lastWriteSeqno (highPreparedSeqno s) in
      updateHighPreparedSeqno (getPersistenceSeqno (vb m)) ;;
      s <- get ;;
      ret (prevHps, lastWriteSeqno (highPreparedSeqno s))) ;;
  ack_if_moved (fst p) (snd p).

Definition count_resolution (res : Resolution) : M State unit :=
  match res with
  | Commit =>
      s <- get ;; put (set_totalCommitted (size_incr (totalCommitted s)) s)
  | Abort =>
      s <- get ;; put (set_totalAborted (size_incr (totalAborted s)) s)
  | CompletionWasDeduped => ret tt
  end.

Definition completeSyncWrite (key : string) (res : Resolution)
  : M PassiveDurabilityMonitor unit :=
  wlock (
    s <- get ;;
    if empty (trackedWrites s) then throw LogicError
    else
      next <- getIteratorNext (it (highCompletedSeqno s)) ;;
      if it_eqb next c_end then throw LogicError
      else
        w <- lift (deref (trackedWrites s) next) ;;
        if negb (String.eqb (sw_key w) key) then throw LogicError
        else
          v <- lift (monotonic_assign
                       (lastWriteSeqno (highCompletedSeqno s)) (sw_seqno w)) ;;
          put (set_highCompletedSeqno (mkPosition next v) s) ;;
          checkForAndRemovePrepares ;;
          count_resolution res).

(** The loop over [boost::adaptors::reverse(preparesToAdd)]; [items] is the
    reversed vector. *)
Fixpoint reinstate (hcs : Z) (items : list queued_item) (c : Container)
  : Container :=
  match items with
  | [] => c
  | item :: rest =>
      reinstate hcs rest
        (if to_uint64 (getBySeqno item) >? hcs
         then emplace_front (mkSyncWrite item) c
         else c)
  end.

Definition postProcessRollback (rollbackResult : RollbackResult)
  : M PassiveDurabilityMonitor unit :=
  Expects (rb_highCompletedSeqno rollbackResult
           <=? rb_highPreparedSeqno rollbackResult) ;;
  Expects (rb_highPreparedSeqno rollbackResult
           <=? rb_highSeqno rollbackResult) ;;
  wlock (
    s <- get ;;
    put (set_trackedWrites
           (reinstate (rb_highCompletedSeqno rollbackResult)
                      (rev (preparesToAdd rollbackResult))
                      (trackedWrites s)) s) ;;
    s <- get ;;
    let itr :=
      find_if (fun write =>
                 to_uint64 (sw_seqno write) >? rb_highSeqno rollbackResult)
              (nodes (trackedWrites s)) in
    put (set_trackedWrites (erase_to_end itr (trackedWrites s)) s) ;;
    s <- get ;;
    put (set_highCompletedSeqno
           (mkPosition c_end
                       (to_int64 (rb_highCompletedSeqno rollbackResult))) s) ;;
    s <- get ;;
    (if negb (empty (trackedWrites s))
     then put (set_highPreparedSeqno
                 (mkPosition (last_of (nodes (trackedWrites s)))
                             (lastWriteSeqno (highPreparedSeqno s))) s)
     else ret tt) ;;
    s <- get ;;
    put (set_highPreparedSeqno
           (mkPosition (it (highPreparedSeqno s))
                       (to_int64 (rb_highPreparedSeqno rollbackResult))) s)).

(** ** Sequences of operations *)

(** The calls the monitor receives, and the flusher's move of the persistence
    seqno, which the monitor only observes. *)
Inductive Op : Type :=
| OpAdd (item : queued_item)
| OpComplete (key : string) (res : Resolution)
| OpSnapshotEnd (snapEnd : Z)
| OpPersistence
| OpRollback (rb : RollbackResult)
| OpFlush (persisted : Z).

Definition perform (op : Op) : M PassiveDurabilityMonitor unit :=
  match op with
  | OpAdd item => addSyncWrite item
  | OpComplete key res => completeSyncWrite key res
  | OpSnapshotEnd snapEnd => notifySnapshotEndReceived snapEnd
  | OpPersistence => notifyLocalPersistence
  | OpRollback rb => postProcessRollback rb
  | OpFlush p =>
      m <- get ;; put {| vb := setPersistenceSeqno p (vb m); state := state m |}
  end.

(** Run a sequence of operations that all return; the result is [None] as soon
    as one throws. *)
Fixpoint run (ops : list Op) (m : PassiveDurabilityMonitor)
  : option PassiveDurabilityMonitor :=
  match ops with
  | [] => Some m
  | op :: rest =>
      match perform op m with
      | (Ok _, m') => run rest m'
      | (Throw _, _) => None
      end
  end.


(** ** Sample data *)

Definition prepare (key : string) (seqno : Z) (l : Level) : queued_item :=
  {| getKey := key; getBySeqno := seqno;
     getDurabilityReqs := {| getLevel := l; getTimeout := Millis 30000 |} |}.

Definition fresh_vb : VBucket := {| persistenceSeqno := 0; seqnoAcks := [] |}.

(** ** Vocabulary of the properties *)

Definition seqno_of (n : node) : Z := sw_seqno (snd n).
Definition ids (l : list node) : list nat := map fst l.
Definition seqnos (l : list node) : list Z := map seqno_of l.

(** I1: [bySeqno] strictly increasing from front to back. *)
Definition ascending (l : list node) : Prop := StronglySorted Z.lt (seqnos l).

(** The iterator references one of the nodes of [l]. *)
Definition points_into (i : iterator) (l : list node) : Prop :=
  exists n, i = Some n /\ In n (ids l).

(** What pruning does to an iterator, given the nodes it erased. *)
Definition reset_if_erased (removed : list node) (i : iterator) : iterator :=
  if existsb (fun n => it_eqb (Some (fst n)) i) removed then c_end else i.

Definition fence_of (s : State) : Z :=
  Z.min (lastWriteSeqno (highCompletedSeqno s))
        (lastWriteSeqno (highPreparedSeqno s)).

(** Every tracked prepare lies above [min(HCS, HPS)]. *)
Definition above_fence (s : State) : Prop :=
  Forall (fun n => fence_of s < seqno_of n) (nodes (trackedWrites s)).

(** The nodes that follow the node [n] in [l]. *)
Fixpoint nodes_after (l : list node) (n : nat) : option (list node) :=
  match l with
  | [] => None
  | (i, _) :: tl => if Nat.eqb i n then Some tl else nodes_after tl n
  end.

(** The nodes an iterator has still in front of it, in the reading of
    [getIteratorNext]: all of them for [end()]. *)
Definition following (c : Container) (i : iterator) : option (list node) :=
  match i with
  | None => Some (nodes c)
  | Some n => nodes_after (nodes c) n
  end.

(** A prepare the HPS may move onto: inside the received snapshot and, unless
    that snapshot is persisted, not a [PersistToMajority] one. *)
Definition passable (persisted : bool) (snapEnd : Z) (n : node) : bool :=
  (to_uint64 (seqno_of n) <=? snapEnd) &&
  (persisted || negb (Level_eqb (sw_level (snd n)) PersistToMajority)).

Fixpoint take_while {A} (f : A -> bool) (l : list A) : list A :=
  match l with
  | [] => []
  | x :: tl => if f x then x :: take_while f tl else []
  end.

Fixpoint drop_while {A} (f : A -> bool) (l : list A) : list A :=
  match l with
  | [] => []
  | x :: tl => if f x then drop_while f tl else l
  end.

(** The seqno of the last node of [l], or [d] when there is none. *)
Definition last_seqno (l : list node) (d : Z) : Z := last (seqnos l) d.

(** One loop of [updateHighPreparedSeqno] read off the list of nodes in front
    of the HPS iterator: the outcome, the position reached and the nodes left
    in front of it.  [persisted] selects the first loop. *)
Fixpoint walk (persisted : bool) (snapEnd : Z) (hps : Position)
  (rest : list node) : outcome unit * Position * list node :=
  match rest with
  | [] => (Ok tt, hps, rest)
  | (i, w) :: tl =>
      if to_uint64 (sw_seqno w) <=? snapEnd
      then
        if negb persisted && Level_eqb (sw_level w) LevelNone
        then (Throw ExpectationViolation, hps, rest)
        else if negb persisted && Level_eqb (sw_level w) PersistToMajority
        then (Ok tt, hps, rest)
        else
          match monotonic_assign (lastWriteSeqno hps) (sw_seqno w) with
          | Ok v => walk persisted snapEnd (mkPosition (Some i) v) tl
          | Throw e => (Throw e, hps, rest)
          end
      else (Ok tt, hps, rest)
  end.

(** S1 of the specification. *)
Definition S1 (m : PassiveDurabilityMonitor) : Prop :=
  getHighCompletedSeqno m <= getHighPreparedSeqno m.

(** The prepare [completeSyncWrite] would complete next. *)
Definition awaitingCompletion (m : PassiveDurabilityMonitor)
  : option SyncWrite :=
  match getIteratorNext (it (highCompletedSeqno (state m))) (state m) with
  | (Ok next, _) =>
      match deref (trackedWrites (state m)) next with
      | Ok w => Some w
      | Throw _ => None
      end
  | (Throw _, _) => None
  end.

(** The seqnos of a rollback result are seqnos of items: non-negative
    [int64_t] values. *)
Definition rollback_in_range (rb : RollbackResult) : Prop :=
  0 <= rb_highCompletedSeqno rb /\ rb_highPreparedSeqno rb < two63.

(** Side condition under which an operation keeps S1: rollback results are in
    range and a completion concerns a prepare the HPS has reached. *)
Definition keeps_S1 (op : Op) (m : PassiveDurabilityMonitor) : Prop :=
  match op with
  | OpComplete _ _ =>
      forall w, awaitingCompletion m = Some w ->
                sw_seqno w <= getHighPreparedSeqno m
  | OpRollback rb => rollback_in_range rb
  | _ => True
  end.

(** A side condition holds before every operation of a run. *)
Fixpoint along (side : Op -> PassiveDurabilityMonitor -> Prop)
  (ops : list Op) (m : PassiveDurabilityMonitor) : Prop :=
  match ops with
  | [] => True
  | op :: rest =>
      side op m /\
      match perform op m with
      | (Ok _, m') => along side rest m'
      | (Throw _, _) => True
      end
  end.

Definition is_rollback (op : Op) : bool :=
  match op with OpRollback _ => true | _ => false end.

(** Side condition under which an operation keeps the tracked prepares
    ascending and above the fence: an added prepare has a seqno beyond the
    fence and beyond every tracked one, and the operation is no rollback. *)
Definition keeps_above_fence (op : Op) (m : PassiveDurabilityMonitor) : Prop :=
  match op with
  | OpAdd item =>
      fence_of (state m) < getBySeqno item /\
      Forall (fun n => seqno_of n < getBySeqno item)
             (nodes (trackedWrites (state m)))
  | OpRollback _ => False
  | _ => True
  end.

(** The state [checkForAndRemovePrepares] leaves, given the nodes it erased. *)
Definition pruned (removed : list node) (s s' : State) : Prop :=
  nodes (trackedWrites s) = removed ++ nodes (trackedWrites s') /\
  fresh (trackedWrites s') = fresh (trackedWrites s) /\
  highPreparedSeqno s' =
    mkPosition (reset_if_erased removed (it (highPreparedSeqno s)))
               (lastWriteSeqno (highPreparedSeqno s)) /\
  highCompletedSeqno s' =
    mkPosition (reset_if_erased removed (it (highCompletedSeqno s)))
               (lastWriteSeqno (highCompletedSeqno s)) /\
  snapshotEnd s' = snapshotEnd s /\
  totalAccepted s' = totalAccepted s /\
  totalCommitted s' = totalCommitted s /\
  totalAborted s' = totalAborted s.

(** Only the HPS position differs, and its seqno did not decrease. *)
Definition hps_moved (s s' : State) : Prop :=
  s' = set_highPreparedSeqno (highPreparedSeqno s') s /\
  lastWriteSeqno (highPreparedSeqno s) <= lastWriteSeqno (highPreparedSeqno s').

(** The HPS seqno is the old one or that of a prepare inside the snapshot. *)
Definition within_snapshot (s s' : State) : Prop :=
  lastWriteSeqno (highPreparedSeqno s') = lastWriteSeqno (highPreparedSeqno s) \/
  to_uint64 (lastWriteSeqno (highPreparedSeqno s')) <= snapshotEnd s.

(** The state a valid [postProcessRollback] leaves. *)
Definition rolled_back (rb : RollbackResult) (s : State) : State :=
  let c1 := reinstate (rb_highCompletedSeqno rb) (rev (preparesToAdd rb))
                      (trackedWrites s) in
  let c2 :=
    erase_to_end
      (find_if (fun write => to_uint64 (sw_seqno write) >? rb_highSeqno rb)
               (nodes c1)) c1 in
  mkState c2
    (mkPosition (if negb (empty c2) then last_of (nodes c2)
                 else it (highPreparedSeqno s))
                (to_int64 (rb_highPreparedSeqno rb)))
    (mkPosition c_end (to_int64 (rb_highCompletedSeqno rb)))
    (snapshotEnd s) (totalAccepted s) (totalCommitted s) (totalAborted s).

(** The state a successful [addSyncWrite] leaves. *)
Definition added (item : queued_item) (s : State) : State :=
  set_totalAccepted (size_incr (totalAccepted s))
    (set_trackedWrites (emplace_back (mkSyncWrite item) (trackedWrites s)) s).

(** The monitor after [addSyncWrite] of a Majority prepare at seqno 1 and the
    receipt of snapshot end 1: the HPS iterator references that prepare. *)
Definition prepared_one : PassiveDurabilityMonitor :=
  Eval cbv in
    snd (notifySnapshotEndReceived 1
           (snd (addSyncWrite (prepare "a" 1 Majority) (new_PDM fresh_vb)))).

(** The monitor after a prepare was added and completed before any snapshot
    end was received. *)
Definition early_completion_run : list Op :=
  [OpAdd (prepare "a" 1 Majority); OpComplete "a" Commit].

Definition completed_early : PassiveDurabilityMonitor :=
  Eval cbv in
    match run early_completion_run (new_PDM fresh_vb) with
    | Some m => m
    | None => new_PDM fresh_vb
    end.

(** The monitor after a prepare at seqno 2 was added. *)
Definition tracking_seqno_2 : PassiveDurabilityMonitor :=
  Eval cbv in snd (addSyncWrite (prepare "b" 2 Majority) (new_PDM fresh_vb)).


(** A rollback to seqno 0. *)
Definition rollback_to_zero : RollbackResult :=
  {| rb_highCompletedSeqno := 0; rb_highPreparedSeqno := 0;
     rb_highSeqno := 0; preparesToAdd := [] |}.

(** A run through a durability fence: three prepares, the snapshot end, then
    persistence of the snapshot. *)
Definition fence_run : list Op :=
  [OpAdd (prepare "a" 1 Majority);
   OpAdd (prepare "b" 2 PersistToMajority);
   OpAdd (prepare "c" 3 Majority);
   OpSnapshotEnd 3; OpFlush 3; OpPersistence].

Definition after_fence_run : PassiveDurabilityMonitor :=
  Eval cbv in
    match run fence_run (new_PDM fresh_vb) with
    | Some m => m
    | None => new_PDM fresh_vb
    end.





(** A run in which the completion follows the move of the HPS, and a
    rollback reinstates the completed prepare. *)
Definition ordered_run : list Op :=
  [OpAdd (prepare "a" 1 Majority);
   OpAdd (prepare "b" 2 Majority);
   OpSnapshotEnd 2;
   OpComplete "a" Commit;
   OpRollback (mkRollbackResult 0 1 1 [prepare "a" 1 Majority])].

Definition after_ordered_run : PassiveDurabilityMonitor :=
  Eval cbv in
    match run ordered_run (new_PDM fresh_vb) with
    | Some m => m
    | None => new_PDM fresh_vb
    end.

(** A run in which a prepare is completed before the HPS reaches it and a
    rollback then confirms both seqnos at 1. *)
Definition unpruned_run : list Op :=
  [OpAdd (prepare "a" 1 Majority);
   OpComplete "a" Commit;
   OpRollback (mkRollbackResult 1 1 2 [])].

Definition after_unpruned_run : PassiveDurabilityMonitor :=
  Eval cbv in
    match run unpruned_run (new_PDM fresh_vb) with
    | Some m => m
    | None => new_PDM fresh_vb
    end.

(** The tracked prepares are in seqno order and above the fence. *)
Definition tidy (m : PassiveDurabilityMonitor) : Prop :=
  ascending (nodes (trackedWrites (state m))) /\ above_fence (state m).

(** The two loops of [updateHighPreparedSeqno] in sequence; the first runs
    only when the received snapshot is persisted. *)
Definition walk_both (persisted : bool) (snapEnd : Z) (hps : Position)
  (rest : list node) : outcome unit * Position * list node :=
  if persisted
  then
    match walk true snapEnd hps rest with
    | (Ok _, pos, rest') => walk false snapEnd pos rest'
    | failed => failed
    end
  else walk false snapEnd hps rest.

(** The end of [updateHighPreparedSeqno]: prune if the HPS seqno has moved
    away from [prevHPS]. *)
Definition prune_if_moved (prevHPS : Z) : M State unit :=
  s' <- get ;;
  if negb (lastWriteSeqno (highPreparedSeqno s') =? prevHPS)
  then
    Expects (lastWriteSeqno (highPreparedSeqno s') >? prevHPS) ;;
    checkForAndRemovePrepares
  else ret tt.

(** The state of the fence scenario: exactly three tracked prepares, at seqnos
    1 (Majority), 2 (PersistToMajority) and 3 (Majority), the HPS where the
    constructor puts it (seqno 0, iterator at [end()]) and nothing
    persisted. *)
Definition fence_scenario (m : PassiveDurabilityMonitor) : Prop :=
  map (fun n => (seqno_of n, sw_level (snd n)))
      (nodes (trackedWrites (state m)))
    = [(1, Majority); (2, PersistToMajority); (3, Majority)] /\
  NoDup (ids (nodes (trackedWrites (state m)))) /\
  highPreparedSeqno (state m) = mkPosition c_end 0 /\
  getPersistenceSeqno (vb m) = 0.

(** The flusher has persisted up to [p]. *)
Definition flushed (p : Z) (m : PassiveDurabilityMonitor)
  : PassiveDurabilityMonitor :=
  {| vb := setPersistenceSeqno p (vb m); state := state m |}.

(** The three prepares of the fence scenario, added to a fresh monitor. *)
Definition three_prepares : PassiveDurabilityMonitor :=
  Eval cbv in
    match run [OpAdd (prepare "a" 1 Majority);
               OpAdd (prepare "b" 2 PersistToMajority);
               OpAdd (prepare "c" 3 Majority)] (new_PDM fresh_vb) with
    | Some m => m
    | None => new_PDM fresh_vb
    end.

(** The state has unique node identities, its tracked prepares are in seqno
    order and its HPS iterator is [end()] or references a tracked node. *)
Definition hps_in_place (s : State) : Prop :=
  NoDup (ids (nodes (trackedWrites s))) /\
  ascending (nodes (trackedWrites s)) /\
  exists rest,
    following (trackedWrites s) (it (highPreparedSeqno s)) = Some rest.

(** The two notifications. *)
Definition is_notification (op : Op) : bool :=
  match op with
  | OpSnapshotEnd _ | OpPersistence => true
  | _ => false
  end.

(** The fence run up to the flush. *)
Definition after_fence_flush : PassiveDurabilityMonitor :=
  Eval cbv in
    match run (firstn 5 fence_run) (new_PDM fresh_vb) with
    | Some m => m
    | None => new_PDM fresh_vb
    end.

(** The state [count_resolution] leaves. *)
Definition counted (res : Resolution) (s : State) : State :=
  match res with
  | Commit => set_totalCommitted (size_incr (totalCommitted s)) s
  | Abort => set_totalAborted (size_incr (totalAborted s)) s
  | CompletionWasDeduped => s
  end.

(** Completing the prepares of [l] in order, with the resolutions [rs]. *)
Definition completions (l : list node) (rs : list Resolution) : list Op :=
  map (fun nr => OpComplete (sw_key (snd (fst nr))) (snd nr)) (combine l rs).

Definition is_Commit (res : Resolution) : bool :=
  match res with Commit => true | _ => false end.

Definition is_Abort (res : Resolution) : bool :=
  match res with Abort => true | _ => false end.

(** How many of the resolutions satisfy [f]. *)
Definition count_of (f : Resolution -> bool) (rs : list Resolution) : Z :=
  Z.of_nat (List.length (filter f rs)).

(** The nodes [emplace_back] allocates for [items], the first one with
    identity [k]. *)
Fixpoint allocated (k : nat) (items : list queued_item) : list node :=
  match items with
  | [] => []
  | x :: tl => (k, mkSyncWrite x) :: allocated (S k) tl
  end.

(** Completing the prepares of [items] in order, with the resolutions
    [rs]. *)
Definition complete_items (items : list queued_item) (rs : list Resolution)
  : list Op :=
  map (fun ir => OpComplete (getKey (fst ir)) (snd ir)) (combine items rs).

(** What [addSyncWrite] accepts. *)
Definition acceptable (item : queued_item) : Prop :=
  getLevel (getDurabilityReqs item) <> LevelNone /\
  isDefault (getTimeout (getDurabilityReqs item)) = false.

(** Node identities are unique and were all allocated: they lie below
    [fresh]. *)
Definition ids_fresh (c : Container) : Prop :=
  NoDup (ids (nodes c)) /\ Forall (fun i => (i < fresh c)%nat) (ids (nodes c)).

(** The prepares of a container, without the node identities. *)
Definition writes (c : Container) : list SyncWrite := map snd (nodes c).

(** The test of the reinstating loop of [postProcessRollback]. *)
Definition above_HCS (rb : RollbackResult) (item : queued_item) : bool :=
  to_uint64 (getBySeqno item) >? rb_highCompletedSeqno rb.

(** The negation of the test of its [find_if]. *)
Definition within_rollback (rb : RollbackResult) (w : SyncWrite) : bool :=
  negb (to_uint64 (sw_seqno w) >? rb_highSeqno rb).

Definition valid_rollback (rb : RollbackResult) : Prop :=
  rb_highCompletedSeqno rb <= rb_highPreparedSeqno rb <= rb_highSeqno rb.

(** An iterator that can be used: [end()], or the identity of a node of the
    container. *)
Definition iterator_valid (c : Container) (i : iterator) : Prop :=
  i = c_end \/ points_into i (nodes c).

(** "Instances of Position can never be invalid": unique node identities and
    both iterators usable. *)
Definition positions_valid (s : State) : Prop :=
  ids_fresh (trackedWrites s) /\
  iterator_valid (trackedWrites s) (it (highCompletedSeqno s)) /\
  iterator_valid (trackedWrites s) (it (highPreparedSeqno s)).

(** The ordered run up to its rollback. *)
Definition before_ordered_rollback : PassiveDurabilityMonitor :=
  Eval cbv in
    match run (firstn 4 ordered_run) (new_PDM fresh_vb) with
    | Some m => m
    | None => new_PDM fresh_vb
    end.

(** A prepare whose level asks for no persistence on this node. *)
Definition needs_no_persistence (n : node) : Prop :=
  sw_level (snd n) = Majority \/ sw_level (snd n) = MajorityAndPersistOnMaster.

(** A prepare of [Level::None] grandfathered by the warmup constructor, after
    a snapshot end that covers it was received with nothing persisted. *)
Definition level_none_warmup : PassiveDurabilityMonitor :=
  Eval cbv in
    match new_PDM_warmup fresh_vb [prepare "a" 1 LevelNone] with
    | Ok m => snd (notifySnapshotEndReceived 1 m)
    | Throw _ => new_PDM fresh_vb
    end.

(** Two prepares that need no persistence here, added to a fresh monitor. *)
Definition two_majority : PassiveDurabilityMonitor :=
  Eval cbv in
    match run [OpAdd (prepare "a" 1 Majority);
               OpAdd (prepare "b" 2 MajorityAndPersistOnMaster)]
              (new_PDM fresh_vb) with
    | Some m => m
    | None => new_PDM fresh_vb
    end.

(** ** The monad and the container: basic facts *)

Ltac mred :=
  unfold bind, get, put, lift, ret, throw, Expects, wlock, on_vb in *;
  cbn [fst snd] in *.

Lemma it_eqb_eq (a b : iterator) : it_eqb a b = true <-> a = b.
Proof.
  destruct a as [x|], b as [y|]; cbn; split; intro H;
    try discriminate; try reflexivity.
  - apply Nat.eqb_eq in H. now subst.
  - injection H as ->. apply Nat.eqb_refl.
Qed.

Lemma it_eqb_refl (a : iterator) : it_eqb a a = true.
Proof. now apply it_eqb_eq. Qed.

Lemma find_node_In (l : list node) (n : nat) (w : SyncWrite) :
  find_node l n = Ok w -> In (n, w) l.
Proof.
  induction l as [|[i v] tl IH]; cbn; [discriminate|].
  destruct (Nat.eqb i n) eqn:E.
  - intros [= ->]. apply Nat.eqb_eq in E. subst. now left.
  - intro H. right. now apply IH.
Qed.

Lemma find_node_not_LogicError (l : list node) (n : nat) (e : exception) :
  find_node l n = Throw e -> e = UndefinedBehaviour.
Proof.
  induction l as [|[i v] tl IH]; cbn.
  - now intros [= <-].
  - destruct (Nat.eqb i n); [discriminate|exact IH].
Qed.

Lemma next_of_throws (l : list node) (n : nat) (e : exception) :
  next_of l n = Throw e -> e = UndefinedBehaviour.
Proof.
  induction l as [|[i v] tl IH]; cbn.
  - now intros [= <-].
  - destruct (Nat.eqb i n); [discriminate|exact IH].
Qed.

(** ** Pruning *)

Lemma reset_if_erased_end (removed : list node) :
  reset_if_erased removed c_end = c_end.
Proof. unfold reset_if_erased. now destruct (existsb _ _). Qed.

Lemma reset_if_erased_cons (n : node) (removed : list node) (i : iterator) :
  reset_if_erased (n :: removed) i =
  reset_if_erased removed (if it_eqb (Some (fst n)) i then c_end else i).
Proof.
  unfold reset_if_erased at 1. cbn [existsb].
  destruct (it_eqb (Some (fst n)) i); cbn [orb].
  - now rewrite reset_if_erased_end.
  - reflexivity.
Qed.

Lemma prune_loop_spec (fence : Z) (l : list node) :
  forall hcs hps,
  exists removed kept,
    prune_loop fence l hcs hps =
      (kept, reset_if_erased removed hcs, reset_if_erased removed hps) /\
    l = removed ++ kept /\
    Forall (fun n => seqno_of n <= fence) removed /\
    match kept with [] => True | n :: _ => fence < seqno_of n end.
Proof.
  induction l as [|[i w] tl IH]; intros hcs hps.
  - exists [], []. cbn. repeat split; constructor.
  - cbn [prune_loop]. destruct (sw_seqno w <=? fence) eqn:E.
    + destruct (IH (if it_eqb (Some i) hcs then c_end else hcs)
                   (if it_eqb (Some i) hps then c_end else hps))
        as (removed & kept & Hp & Hl & Hr & Hk).
      exists ((i, w) :: removed), kept.
      rewrite !reset_if_erased_cons. cbn [fst].
      repeat split; auto.
      * cbn. now rewrite Hl.
      * constructor; [|exact Hr]. unfold seqno_of. cbn. lia.
    + exists [], ((i, w) :: tl). cbn. repeat split; try constructor.
      unfold seqno_of. cbn. lia.
Qed.

Lemma reset_if_erased_cases (removed : list node) (i : iterator) :
  (points_into i removed /\ reset_if_erased removed i = c_end) \/
  (~ points_into i removed /\ reset_if_erased removed i = i).
Proof.
  unfold reset_if_erased.
  destruct (existsb _ _) eqn:E.
  - left. split; [|reflexivity].
    apply existsb_exists in E as ([n w] & Hin & Heq).
    apply it_eqb_eq in Heq. exists n. split; [now symmetry|].
    unfold ids. change n with (fst (n, w)). now apply in_map.
  - right. split; [|reflexivity].
    intros (n & -> & Hin). unfold ids in Hin.
    apply in_map_iff in Hin as ([k w] & Hk & Hin). cbn in Hk. subst k.
    assert (existsb (fun x => it_eqb (Some (fst x)) (Some n)) removed = true).
    { apply existsb_exists. exists (n, w). split; [exact Hin|].
      apply it_eqb_refl. }
    congruence.
Qed.

Lemma checkForAndRemovePrepares_spec (s : State) :
  exists removed s',
    checkForAndRemovePrepares s = (Ok tt, s') /\
    pruned removed s s' /\
    Forall (fun n => seqno_of n <= fence_of s) removed /\
    match nodes (trackedWrites s') with
    | [] => True
    | n :: _ => fence_of s < seqno_of n
    end.
Proof.
  unfold checkForAndRemovePrepares. mred.
  destruct (empty (trackedWrites s)) eqn:E.
  - exists [], s. unfold empty in E.
    destruct (nodes (trackedWrites s)) eqn:En; [|discriminate].
    split; [reflexivity|]. split; [|split; [constructor|exact I]].
    unfold pruned, reset_if_erased. cbn. rewrite En.
    destruct (highPreparedSeqno s), (highCompletedSeqno s).
    repeat split; reflexivity.
  - destruct (prune_loop_spec (fence_of s) (nodes (trackedWrites s))
                (it (highCompletedSeqno s)) (it (highPreparedSeqno s)))
      as (removed & kept & Hp & Hl & Hr & Hk).
    unfold fence_of in Hp. rewrite Hp.
    eexists removed, _. split; [reflexivity|].
    repeat split; cbn; auto.
Qed.

Lemma ascending_app_r (a b : list node) : ascending (a ++ b) -> ascending b.
Proof.
  unfold ascending, seqnos. induction a as [|x a IH]; cbn; [auto|].
  intro H. apply StronglySorted_inv in H as [H _]. auto.
Qed.

Lemma ascending_head_bound (n : node) (l : list node) (b : Z) :
  ascending (n :: l) -> b < seqno_of n ->
  Forall (fun x => b < seqno_of x) (n :: l).
Proof.
  unfold ascending, seqnos. cbn. intros H Hb.
  apply StronglySorted_inv in H as [_ H].
  constructor; [exact Hb|].
  rewrite Forall_map in H.
  eapply Forall_impl; [|exact H]. cbn. intros; lia.
Qed.

(** ** Moving the HPS: what the loops leave alone *)

Lemma hps_moved_refl (s : State) : hps_moved s s.
Proof. split; [now destruct s|lia]. Qed.

Ltac unmoved H :=
  injection H as _ <-; split; [apply hps_moved_refl | now left].

Lemma hps_moved_trans (a b c : State) :
  hps_moved a b -> hps_moved b c -> hps_moved a c.
Proof.
  intros [Hab Lab] [Hbc Lbc]. split; [|lia].
  rewrite Hbc at 1. rewrite Hab. reflexivity.
Qed.

Lemma getIteratorNext_state (i : iterator) (s : State) :
  snd (getIteratorNext i s) = s.
Proof.
  unfold getIteratorNext. mred. now destruct (it_eqb i c_end).
Qed.

Lemma updateHPS_spec (next : iterator) (s : State) :
  (exists e, updateHPS next s = (Throw e, s)) \/
  (exists w, deref (trackedWrites s) next = Ok w /\
             lastWriteSeqno (highPreparedSeqno s) <= sw_seqno w /\
             updateHPS next s =
               (Ok tt, set_highPreparedSeqno (mkPosition next (sw_seqno w)) s)).
Proof.
  unfold updateHPS. mred.
  destruct (deref (trackedWrites s) next) as [w|e]; [|left; eauto].
  unfold monotonic_assign.
  destruct (sw_seqno w <? lastWriteSeqno (highPreparedSeqno s)) eqn:E.
  - left; eauto.
  - right. exists w. repeat split. lia.
Qed.

Lemma persistedLoop_frame (fuel : nat) :
  forall s r s',
    persistedLoop fuel s = (r, s') -> hps_moved s s' /\ within_snapshot s s'.
Proof.
  induction fuel as [|fuel IH]; intros s r s' H.
  - cbn in H. mred. unmoved H.
  - cbn [persistedLoop] in H. unfold bind at 1 2, get at 1 in H.
    pose proof (getIteratorNext_state (it (highPreparedSeqno s)) s) as Hs.
    destruct (getIteratorNext (it (highPreparedSeqno s)) s) as [[next|e] s0];
      cbn in Hs; subst s0.
    2:{ unmoved H. }
    destruct (it_eqb next c_end).
    { mred. unmoved H. }
    unfold bind at 1, lift at 1 in H.
    destruct (deref (trackedWrites s) next) as [w|e] eqn:Hd.
    2:{ unmoved H. }
    destruct (to_uint64 (sw_seqno w) <=? snapshotEnd s) eqn:Hle.
    2:{ mred. unmoved H. }
    unfold bind at 1 in H.
    destruct (updateHPS_spec next s) as [[e He]|(w' & Hd' & Hm & Hu)];
      rewrite ?He, ?Hu in H.
    { unmoved H. }
    rewrite Hd in Hd'. injection Hd' as <-.
    apply IH in H as [Hmv Hw].
    split.
    + eapply hps_moved_trans; [|exact Hmv]. split; cbn; [reflexivity|lia].
    + destruct Hw as [Hw|Hw]; cbn in Hw.
      * right. rewrite Hw. apply Z.leb_le in Hle. exact Hle.
      * right. exact Hw.
Qed.

Lemma fenceLoop_frame (fuel : nat) :
  forall s r s',
    fenceLoop fuel s = (r, s') -> hps_moved s s' /\ within_snapshot s s'.
Proof.
  induction fuel as [|fuel IH]; intros s r s' H.
  - cbn in H. mred. unmoved H.
  - cbn [fenceLoop] in H. unfold bind at 1 2, get at 1 in H.
    pose proof (getIteratorNext_state (it (highPreparedSeqno s)) s) as Hs.
    destruct (getIteratorNext (it (highPreparedSeqno s)) s) as [[next|e] s0];
      cbn in Hs; subst s0.
    2:{ unmoved H. }
    destruct (it_eqb next c_end).
    { mred. unmoved H. }
    unfold bind at 1, lift at 1 in H.
    destruct (deref (trackedWrites s) next) as [w|e] eqn:Hd.
    2:{ unmoved H. }
    destruct (to_uint64 (sw_seqno w) <=? snapshotEnd s) eqn:Hle.
    2:{ mred. unmoved H. }
    unfold bind at 1, Expects in H.
    destruct (negb (Level_eqb (sw_level w) LevelNone)).
    2:{ mred. unmoved H. }
    unfold ret at 1 in H.
    destruct (Level_eqb (sw_level w) PersistToMajority).
    { mred. unmoved H. }
    unfold bind at 1 in H.
    destruct (updateHPS_spec next s) as [[e He]|(w' & Hd' & Hm & Hu)];
      rewrite ?He, ?Hu in H.
    { unmoved H. }
    rewrite Hd in Hd'. injection Hd' as <-.
    apply IH in H as [Hmv Hw].
    split.
    + eapply hps_moved_trans; [|exact Hmv]. split; cbn; [reflexivity|lia].
    + destruct Hw as [Hw|Hw]; cbn in Hw.
      * right. rewrite Hw. apply Z.leb_le in Hle. exact Hle.
      * right. exact Hw.
Qed.

Lemma hps_moved_snapshotEnd (s s' : State) :
  hps_moved s s' -> snapshotEnd s' = snapshotEnd s.
Proof. intros [H _]. now rewrite H. Qed.

Lemma within_snapshot_trans (a b c : State) :
  hps_moved a b -> within_snapshot a b -> within_snapshot b c ->
  within_snapshot a c.
Proof.
  intros Hm Hab Hbc. unfold within_snapshot in *.
  rewrite (hps_moved_snapshotEnd _ _ Hm) in Hbc.
  destruct Hbc as [Hbc|Hbc]; [rewrite Hbc; exact Hab|now right].
Qed.

Lemma updateHighPreparedSeqno_spec (p : Z) (s : State) r s' :
  updateHighPreparedSeqno p s = (r, s') ->
  exists s1,
    hps_moved s s1 /\ within_snapshot s s1 /\
    ((s' = s1 /\
      (r = Ok tt -> lastWriteSeqno (highPreparedSeqno s1) =
                    lastWriteSeqno (highPreparedSeqno s))) \/
     (r = Ok tt /\
      lastWriteSeqno (highPreparedSeqno s) <
      lastWriteSeqno (highPreparedSeqno s1) /\
      exists removed,
        pruned removed s1 s' /\
        Forall (fun n => seqno_of n <= fence_of s1) removed /\
        match nodes (trackedWrites s') with
        | [] => True
        | n :: _ => fence_of s1 < seqno_of n
        end)).
Proof.
  unfold updateHighPreparedSeqno. unfold bind at 1, get at 1.
  destruct (empty (trackedWrites s)).
  { intros [= <- <-]. exists s.
    split; [apply hps_moved_refl|]. split; [now left|]. left. auto. }
  unfold bind at 1.
  assert (H1 : exists r1 sa,
             (if p >=? snapshotEnd s
              then persistedLoop (loop_fuel s) else ret tt) s = (r1, sa) /\
             hps_moved s sa /\ within_snapshot s sa).
  { destruct (p >=? snapshotEnd s).
    - destruct (persistedLoop (loop_fuel s) s) as [r1 sa] eqn:E.
      exists r1, sa. split; [reflexivity|].
      eapply persistedLoop_frame; eauto.
    - exists (Ok tt), s. split; [reflexivity|].
      split; [apply hps_moved_refl|now left]. }
  destruct H1 as (r1 & sa & -> & Hma & Hwa).
  destruct r1 as [[]|e].
  2:{ intros [= <- <-]. exists sa. repeat split; auto; try apply Hma.
      left. split; [reflexivity|discriminate]. }
  unfold bind at 1.
  destruct (fenceLoop (loop_fuel s) sa) as [r2 sb] eqn:E2.
  apply fenceLoop_frame in E2 as [Hmb Hwb].
  assert (Hm : hps_moved s sb) by (apply (hps_moved_trans s sa sb); assumption).
  assert (Hw : within_snapshot s sb)
    by (apply (within_snapshot_trans s sa sb); assumption).
  destruct r2 as [[]|e].
  2:{ intros [= <- <-]. exists sb. repeat split; auto; try apply Hm.
      left. split; [reflexivity|discriminate]. }
  unfold bind at 1, get at 1.
  destruct (lastWriteSeqno (highPreparedSeqno sb) =?
            lastWriteSeqno (highPreparedSeqno s)) eqn:Eq; cbn [negb].
  { intros [= <- <-]. exists sb. repeat split; auto; try apply Hm.
    left. split; [reflexivity|]. intros _. now apply Z.eqb_eq. }
  apply Z.eqb_neq in Eq. destruct Hm as [Hm Hle].
  assert (Hlt : lastWriteSeqno (highPreparedSeqno s) <
                lastWriteSeqno (highPreparedSeqno sb)) by lia.
  unfold bind at 1, Expects.
  replace (lastWriteSeqno (highPreparedSeqno sb) >?
           lastWriteSeqno (highPreparedSeqno s)) with true
    by (symmetry; apply Z.gtb_lt; lia).
  unfold ret at 1.
  destruct (checkForAndRemovePrepares_spec sb)
    as (removed & s2 & Hc & Hp & Hr & Hk).
  rewrite Hc. intros [= <- <-]. exists sb.
  split; [split; assumption|]. split; [assumption|].
  right. split; [reflexivity|]. split; [assumption|].
  exists removed. auto.
Qed.

(** What a call of [updateHighPreparedSeqno] cannot touch, whatever its
    outcome. *)
Lemma updateHighPreparedSeqno_frame (p : Z) (s : State) r s' :
  updateHighPreparedSeqno p s = (r, s') ->
  snapshotEnd s' = snapshotEnd s /\
  totalAccepted s' = totalAccepted s /\
  totalCommitted s' = totalCommitted s /\
  totalAborted s' = totalAborted s /\
  lastWriteSeqno (highCompletedSeqno s') =
    lastWriteSeqno (highCompletedSeqno s) /\
  lastWriteSeqno (highPreparedSeqno s) <=
    lastWriteSeqno (highPreparedSeqno s').
Proof.
  intro H. apply updateHighPreparedSeqno_spec in H
    as (s1 & [Hm Hle] & _ & [[-> _]|(_ & _ & removed & Hp & _)]).
  - rewrite Hm. cbn. repeat split; auto.
  - destruct Hp as (_ & _ & Hhps & Hhcs & He & Ha & Hc & Hb).
    rewrite He, Ha, Hc, Hb, Hhps, Hhcs, Hm. cbn. repeat split; auto.
Qed.

(** ** The public operations, case by case *)

Lemma pdm_eta (m : PassiveDurabilityMonitor) :
  {| vb := vb m; state := state m |} = m.
Proof. now destruct m. Qed.

Lemma addSyncWrite_spec (item : queued_item) (m : PassiveDurabilityMonitor) :
  ((getLevel (getDurabilityReqs item) = LevelNone \/
    isDefault (getTimeout (getDurabilityReqs item)) = true) /\
   addSyncWrite item m = (Throw InvalidArgument, m)) \/
  (getLevel (getDurabilityReqs item) <> LevelNone /\
   isDefault (getTimeout (getDurabilityReqs item)) = false /\
   addSyncWrite item m =
     (Ok tt, {| vb := vb m; state := added item (state m) |})).
Proof.
  unfold addSyncWrite.
  destruct (getLevel (getDurabilityReqs item)) eqn:El; cbn [Level_eqb];
    try (left; split; [now left|reflexivity]);
    (destruct (isDefault (getTimeout (getDurabilityReqs item))) eqn:Et;
     [left; split; [now right|reflexivity]
     |right; split; [discriminate|split; reflexivity]]).
Qed.

Lemma count_resolution_spec (res : Resolution) (s : State) :
  exists s',
    count_resolution res s = (Ok tt, s') /\
    trackedWrites s' = trackedWrites s /\
    highPreparedSeqno s' = highPreparedSeqno s /\
    highCompletedSeqno s' = highCompletedSeqno s /\
    snapshotEnd s' = snapshotEnd s /\
    totalAccepted s' = totalAccepted s.
Proof.
  destruct res; cbn; mred; eexists; (split; [reflexivity|]);
    cbn; repeat split; reflexivity.
Qed.

Lemma completeSyncWrite_spec (key : string) (res : Resolution)
  (m : PassiveDurabilityMonitor) :
  (exists e,
     completeSyncWrite key res m = (Throw e, m) /\
     (e = LogicError <->
      empty (trackedWrites (state m)) = true \/
      fst (getIteratorNext (it (highCompletedSeqno (state m))) (state m))
        = Ok c_end \/
      exists w, awaitingCompletion m = Some w /\ sw_key w <> key)) \/
  (exists next w s1 removed s2 s3,
     empty (trackedWrites (state m)) = false /\
     next <> c_end /\
     fst (getIteratorNext (it (highCompletedSeqno (state m))) (state m))
       = Ok next /\
     awaitingCompletion m = Some w /\
     sw_key w = key /\
     lastWriteSeqno (highCompletedSeqno (state m)) <= sw_seqno w /\
     s1 = set_highCompletedSeqno (mkPosition next (sw_seqno w)) (state m) /\
     pruned removed s1 s2 /\
     Forall (fun n => seqno_of n <= fence_of s1) removed /\
     match nodes (trackedWrites s2) with
     | [] => True
     | n :: _ => fence_of s1 < seqno_of n
     end /\
     count_resolution res s2 = (Ok tt, s3) /\
     completeSyncWrite key res m = (Ok tt, {| vb := vb m; state := s3 |})).
Proof.
  destruct (completeSyncWrite key res m) as [r m'] eqn:HC.
  unfold completeSyncWrite, wlock in HC. unfold awaitingCompletion.
  unfold bind at 1, get at 1 in HC.
  destruct (empty (trackedWrites (state m))) eqn:Ee.
  { left. exists LogicError. cbn in HC. rewrite pdm_eta in HC.
    injection HC as <- <-. split; [reflexivity|]. split; auto. }
  unfold bind at 1 in HC.
  pose proof (getIteratorNext_state (it (highCompletedSeqno (state m)))
                (state m)) as Hs.
  destruct (getIteratorNext (it (highCompletedSeqno (state m))) (state m))
    as [[next|e] s0] eqn:En; cbn [snd] in Hs; subst s0; cbn [fst].
  2:{ left. exists e. rewrite pdm_eta in HC. injection HC as <- <-.
      split; [reflexivity|].
      assert (e = UndefinedBehaviour) as ->.
      { unfold getIteratorNext in En. mred.
        destruct (it_eqb _ c_end); [discriminate|].
        injection En as En. unfold std_next in En.
        destruct (it (highCompletedSeqno (state m))); [|congruence].
        eapply next_of_throws; eauto. }
      split; [discriminate|].
      intros [H|[H|(w & H & _)]]; discriminate. }
  destruct (it_eqb next c_end) eqn:Eend.
  { left. exists LogicError. cbn in HC. rewrite pdm_eta in HC.
    injection HC as <- <-. split; [reflexivity|].
    apply it_eqb_eq in Eend. subst. split; auto. }
  unfold bind at 1, lift at 1 in HC.
  destruct (deref (trackedWrites (state m)) next) as [w|e] eqn:Ed.
  2:{ left. exists e. rewrite pdm_eta in HC. injection HC as <- <-.
      split; [reflexivity|].
      assert (e = UndefinedBehaviour) as ->.
      { unfold deref in Ed. destruct next; [|congruence].
        eapply find_node_not_LogicError; eauto. }
      split; [discriminate|].
      intros [H|[H|(w & H & _)]]; try discriminate.
      injection H as ->. discriminate. }
  destruct (String.eqb (sw_key w) key) eqn:Ek; cbn [negb] in HC.
  2:{ left. exists LogicError. cbn in HC. rewrite pdm_eta in HC.
      injection HC as <- <-. split; [reflexivity|].
      split; auto. intros _. right. right. exists w. split; [reflexivity|].
      now apply String.eqb_neq. }
  apply String.eqb_eq in Ek.
  unfold bind at 1, lift at 1, monotonic_assign in HC.
  destruct (sw_seqno w <? lastWriteSeqno (highCompletedSeqno (state m)))
    eqn:Em.
  { left. exists MonotonicityViolation. rewrite pdm_eta in HC.
    injection HC as <- <-.
    split; [reflexivity|]. split; [discriminate|].
    intros [H|[H|(w' & H & Hk)]]; try discriminate.
    - injection H as ->. discriminate.
    - injection H as <-. contradiction. }
  right. unfold bind at 1, put at 1 in HC. unfold bind at 1 in HC.
  destruct (checkForAndRemovePrepares_spec
              (set_highCompletedSeqno (mkPosition next (sw_seqno w)) (state m)))
    as (removed & s2 & Hc & Hp & Hr & Hk).
  rewrite Hc in HC.
  destruct (count_resolution_spec res s2) as (s3 & Hcnt & _).
  rewrite Hcnt in HC. injection HC as <- <-.
  exists next, w,
    (set_highCompletedSeqno (mkPosition next (sw_seqno w)) (state m)),
    removed, s2, s3.
  apply Z.ltb_ge in Em.
  split; [reflexivity|].
  split; [intros ->; rewrite it_eqb_refl in Eend; discriminate|].
  split; [reflexivity|]. split; [reflexivity|]. split; [exact Ek|].
  split; [exact Em|]. split; [reflexivity|]. split; [exact Hp|].
  split; [exact Hr|]. split; [exact Hk|]. split; [exact Hcnt|reflexivity].
Qed.

Lemma postProcessRollback_spec (rb : RollbackResult)
  (m : PassiveDurabilityMonitor) :
  (~ (rb_highCompletedSeqno rb <= rb_highPreparedSeqno rb <= rb_highSeqno rb)
   /\ postProcessRollback rb m = (Throw ExpectationViolation, m)) \/
  (rb_highCompletedSeqno rb <= rb_highPreparedSeqno rb <= rb_highSeqno rb /\
   postProcessRollback rb m =
     (Ok tt, {| vb := vb m; state := rolled_back rb (state m) |})).
Proof.
  destruct (postProcessRollback rb m) as [r m'] eqn:HR.
  unfold postProcessRollback in HR. unfold bind at 1, Expects at 1 in HR.
  destruct (rb_highCompletedSeqno rb <=? rb_highPreparedSeqno rb) eqn:E1.
  2:{ left. apply Z.leb_gt in E1. injection HR as <- <-.
      split; [lia|reflexivity]. }
  unfold ret at 1 in HR. unfold bind at 1, Expects at 1 in HR.
  destruct (rb_highPreparedSeqno rb <=? rb_highSeqno rb) eqn:E2.
  2:{ left. apply Z.leb_gt in E2. injection HR as <- <-.
      split; [lia|reflexivity]. }
  right. apply Z.leb_le in E1, E2. split; [lia|].
  rewrite <- HR. unfold ret at 1, wlock, rolled_back. mred. cbn.
  destruct (empty _); reflexivity.
Qed.

Lemma ack_if_moved_spec (prev hps : Z) (m : PassiveDurabilityMonitor) :
  prev <= hps ->
  ack_if_moved prev hps m =
    (Ok tt,
     if hps =? prev then m
     else {| vb := {| persistenceSeqno := persistenceSeqno (vb m);
                      seqnoAcks := seqnoAcks (vb m) ++ [hps] |};
             state := state m |}).
Proof.
  intro H. unfold ack_if_moved.
  destruct (hps =? prev) eqn:E; cbn [negb]; [reflexivity|].
  apply Z.eqb_neq in E. mred.
  replace (hps >? prev) with true by (symmetry; apply Z.gtb_lt; lia).
  reflexivity.
Qed.

(** Both notifications: run [updateHighPreparedSeqno] on the state [s0], then
    acknowledge. *)
Lemma notified_spec (m : PassiveDurabilityMonitor) (s0 : State) ru s' :
  updateHighPreparedSeqno (getPersistenceSeqno (vb m)) s0 = (ru, s') ->
  exists m',
    match ru with
    | Ok _ =>
        ack_if_moved (lastWriteSeqno (highPreparedSeqno s0))
                     (lastWriteSeqno (highPreparedSeqno s'))
                     {| vb := vb m; state := s' |}
    | Throw e => (Throw e, {| vb := vb m; state := s' |})
    end = (ru, m') /\
    state m' = s' /\
    persistenceSeqno (vb m') = persistenceSeqno (vb m) /\
    ((seqnoAcks (vb m') = seqnoAcks (vb m) /\
      (ru = Ok tt -> lastWriteSeqno (highPreparedSeqno s') =
                     lastWriteSeqno (highPreparedSeqno s0))) \/
     (ru = Ok tt /\
      lastWriteSeqno (highPreparedSeqno s0) <
      lastWriteSeqno (highPreparedSeqno s') /\
      seqnoAcks (vb m') =
        seqnoAcks (vb m) ++ [lastWriteSeqno (highPreparedSeqno s')])).
Proof.
  intro H. pose proof (updateHighPreparedSeqno_frame _ _ _ _ H)
    as (_ & _ & _ & _ & _ & Hle).
  destruct ru as [[]|e].
  - rewrite ack_if_moved_spec by exact Hle.
    destruct (_ =? _) eqn:E.
    + eexists. split; [reflexivity|]. cbn. repeat split.
      left. split; [reflexivity|]. intros _. now apply Z.eqb_eq.
    + eexists. split; [reflexivity|]. cbn. repeat split.
      right. apply Z.eqb_neq in E. repeat split. lia.
  - eexists. split; [reflexivity|]. cbn. repeat split.
    left. split; [reflexivity|discriminate].
Qed.

Lemma notifySnapshotEndReceived_unfold (snapEnd : Z)
  (m : PassiveDurabilityMonitor) :
  notifySnapshotEndReceived snapEnd m =
  match updateHighPreparedSeqno (getPersistenceSeqno (vb m))
                                (set_snapshotEnd snapEnd (state m)) with
  | (Ok _, s') =>
      ack_if_moved (lastWriteSeqno (highPreparedSeqno (state m)))
                   (lastWriteSeqno (highPreparedSeqno s'))
                   {| vb := vb m; state := s' |}
  | (Throw e, s') => (Throw e, {| vb := vb m; state := s' |})
  end.
Proof.
  unfold notifySnapshotEndReceived. mred.
  destruct (updateHighPreparedSeqno _ _) as [[[]|e] s']; reflexivity.
Qed.

Lemma notifyLocalPersistence_unfold (m : PassiveDurabilityMonitor) :
  notifyLocalPersistence m =
  match updateHighPreparedSeqno (getPersistenceSeqno (vb m)) (state m) with
  | (Ok _, s') =>
      ack_if_moved (lastWriteSeqno (highPreparedSeqno (state m)))
                   (lastWriteSeqno (highPreparedSeqno s'))
                   {| vb := vb m; state := s' |}
  | (Throw e, s') => (Throw e, {| vb := vb m; state := s' |})
  end.
Proof.
  unfold notifyLocalPersistence. mred.
  destruct (updateHighPreparedSeqno _ _) as [[[]|e] s']; reflexivity.
Qed.

(** ** The warmup constructor *)

Lemma track_outstanding_spec (ps : list queued_item) :
  forall s,
    Forall (fun p => isDefault (getTimeout (getDurabilityReqs p)) = false) ps ->
    exists s',
      track_outstanding ps s = (Ok tt, s') /\
      map (fun n => sw_item (snd n)) (nodes (trackedWrites s')) =
        map (fun n => sw_item (snd n)) (nodes (trackedWrites s)) ++ ps /\
      totalAccepted s' = totalAccepted s.
Proof.
  induction ps as [|p ps IH]; intros s Hall.
  - exists s. cbn. rewrite app_nil_r. auto.
  - inversion Hall as [|? ? Hp Hps]; subst.
    cbn [track_outstanding]. unfold bind at 1, Expects. rewrite Hp.
    cbn [negb]. unfold ret at 1. mred.
    destruct (IH (set_trackedWrites
                    (emplace_back (mkSyncWrite p) (trackedWrites s)) s) Hps)
      as (s' & Hrun & Hmap & Hacc).
    exists s'. split; [exact Hrun|]. split; [|exact Hacc].
    rewrite Hmap. cbn. rewrite map_app. cbn. now rewrite <- app_assoc.
Qed.

(** C9. The warmup constructor tracks every supplied prepare and counts none
    of them as accepted: right after construction [getNumAccepted] is 0 and
    [getNumTracked] is the number of supplied prepares, so the former is
    smaller than the latter as soon as a prepare was supplied. *)
Theorem warmup_tracks_without_accepting (v : VBucket)
  (outstanding : list queued_item) :
  Forall (fun p => isDefault (getTimeout (getDurabilityReqs p)) = false)
         outstanding ->
  exists m,
    new_PDM_warmup v outstanding = Ok m /\
    map (fun n => sw_item (snd n)) (nodes (trackedWrites (state m)))
      = outstanding /\
    getNumAccepted m = 0 /\
    getNumTracked m = Z.of_nat (List.length outstanding) /\
    (outstanding <> [] -> getNumAccepted m < getNumTracked m).
Proof.
  intro Hall. unfold new_PDM_warmup, wlock.
  destruct (track_outstanding_spec outstanding (state (new_PDM v)) Hall)
    as (s' & Hrun & Hmap & Hacc).
  rewrite Hrun. eexists. split; [reflexivity|].
  cbn in Hmap, Hacc.
  assert (Hlen : getNumTracked {| vb := vb (new_PDM v); state := s' |}
                 = Z.of_nat (List.length outstanding)).
  { unfold getNumTracked, size. cbn [state].
    rewrite <- Hmap. now rewrite length_map. }
  unfold getNumAccepted. cbn [state]. rewrite Hacc.
  repeat split; auto.
  intro Hne. rewrite Hlen. destruct outstanding; [contradiction|cbn; lia].
Qed.

Lemma warmup_tracks_without_accepting_witness :
  exists m,
    new_PDM_warmup fresh_vb [prepare "a" 1 Majority; prepare "b" 2 Majority]
      = Ok m /\
    map (fun n => sw_item (snd n)) (nodes (trackedWrites (state m)))
      = [prepare "a" 1 Majority; prepare "b" 2 Majority] /\
    getNumAccepted m = 0 /\
    getNumTracked m = 2 /\
    ([prepare "a" 1 Majority; prepare "b" 2 Majority] <> [] ->
     getNumAccepted m < getNumTracked m).
Proof.
  apply (warmup_tracks_without_accepting fresh_vb
           [prepare "a" 1 Majority; prepare "b" 2 Majority]).
  repeat constructor.
Defined.

(** ** Snapshot end *)


(** The function with the assignment as a parameter: when the assignment
    yields [v] the call is the one that stores [v]; when it throws, the call
    throws and nothing has changed. *)
Lemma notifySnapshotEndReceived_with_assigned (assign : Z -> Z -> outcome Z)
  (snapEnd : Z) (m : PassiveDurabilityMonitor) :
  match assign (snapshotEnd (state m)) snapEnd with
  | Ok v =>
      notifySnapshotEndReceived_with assign snapEnd m
      = notifySnapshotEndReceived v m
  | Throw e =>
      notifySnapshotEndReceived_with assign snapEnd m = (Throw e, m)
  end.
Proof.
  unfold notifySnapshotEndReceived_with, notifySnapshotEndReceived.
  unfold bind, get, wlock, lift, put. cbn [state vb].
  destruct (assign (snapshotEnd (state m)) snapEnd) as [v|e].
  - reflexivity.
  - now rewrite pdm_eta.
Qed.

Lemma notifySnapshotEndReceived_as_written (snapEnd : Z)
  (m : PassiveDurabilityMonitor) :
  notifySnapshotEndReceived_with assign_as_written snapEnd m
  = notifySnapshotEndReceived snapEnd m.
Proof.
  exact (notifySnapshotEndReceived_with_assigned assign_as_written snapEnd m).
Qed.



(** ** Completion *)

(** C6. [completeSyncWrite] raises [LogicError] exactly when nothing is
    tracked, or the successor of the HCS iterator is [end()], or the prepare
    awaiting completion has another key; and a call that fails, for whatever
    reason (a monotonicity failure on the HCS seqno included), leaves the
    monitor as it was. *)
Theorem completeSyncWrite_failures (key : string) (res : Resolution)
  (m : PassiveDurabilityMonitor) :
  (fst (completeSyncWrite key res m) = Throw LogicError <->
   empty (trackedWrites (state m)) = true \/
   fst (getIteratorNext (it (highCompletedSeqno (state m))) (state m))
     = Ok c_end \/
   exists w, awaitingCompletion m = Some w /\ sw_key w <> key) /\
  (forall e, fst (completeSyncWrite key res m) = Throw e ->
             snd (completeSyncWrite key res m) = m).
Proof.
  destruct (completeSyncWrite_spec key res m)
    as [(e & Hc & Hiff)
       |(next & w & s1 & removed & s2 & s3 & He & Hn & Hnext & Haw & Hk & _
         & _ & _ & _ & _ & _ & Hc)];
    rewrite Hc; cbn [fst snd].
  - split; [|auto]. rewrite <- Hiff. split; [now intros [= ->]|now intros ->].
  - split; [|discriminate]. split; [discriminate|].
    intros [H|[H|(w' & H & Hk')]].
    + congruence.
    + rewrite Hnext in H. injection H as ->. contradiction.
    + rewrite Haw in H. injection H as <-. contradiction.
Qed.

(** C10. [completeSyncWrite] never changes the HPS seqno, whether it returns
    or throws.  Of the HPS position it can change the iterator only, and it
    does so exactly when pruning erased the node the iterator referenced: the
    iterator is then [end()]; otherwise it is the iterator as it was.  A call
    that throws erases nothing. *)
Theorem completeSyncWrite_keeps_HPS (key : string) (res : Resolution)
  (m : PassiveDurabilityMonitor) :
  let m' := snd (completeSyncWrite key res m) in
  lastWriteSeqno (highPreparedSeqno (state m'))
    = lastWriteSeqno (highPreparedSeqno (state m)) /\
  exists removed,
    nodes (trackedWrites (state m)) = removed ++ nodes (trackedWrites (state m'))
    /\
    (fst (completeSyncWrite key res m) <> Ok tt -> removed = [] /\ m' = m) /\
    highPreparedSeqno (state m') =
      mkPosition (reset_if_erased removed (it (highPreparedSeqno (state m))))
                 (lastWriteSeqno (highPreparedSeqno (state m))) /\
    (points_into (it (highPreparedSeqno (state m))) removed ->
     it (highPreparedSeqno (state m')) = c_end) /\
    (~ points_into (it (highPreparedSeqno (state m))) removed ->
     it (highPreparedSeqno (state m')) = it (highPreparedSeqno (state m))).
Proof.
  intro m'. subst m'.
  destruct (completeSyncWrite_spec key res m)
    as [(e & Hc & _)
       |(next & w & s1 & removed & s2 & s3 & _ & _ & _ & _ & _ & _ & Hs1
         & Hp & _ & _ & Hcnt & Hc)];
    rewrite Hc; cbn [fst snd state].
  - split; [reflexivity|]. exists []. cbn [app].
    split; [reflexivity|]. split; [auto|].
    split; [now destruct (highPreparedSeqno (state m))|].
    split; [|reflexivity].
    intros (n & _ & []).
  - destruct (count_resolution_spec res s2) as (s3' & Hcnt' & Htw & Hhps & _).
    rewrite Hcnt in Hcnt'. injection Hcnt' as <-.
    destruct Hp as (Hnodes & _ & Hp & _). subst s1. cbn in Hnodes, Hp.
    rewrite Hhps, Htw, Hp. cbn [it lastWriteSeqno].
    split; [reflexivity|]. exists removed.
    split; [exact Hnodes|]. split; [intro H; now contradiction H|].
    split; [reflexivity|].
    destruct (reset_if_erased_cases removed
                (it (highPreparedSeqno (state m)))) as [[Hin ->]|[Hno ->]].
    + split; [reflexivity|]. intro H. contradiction.
    + split; [intro H; contradiction|reflexivity].
Qed.

(** ** Adding a prepare *)

(** C8, as the code has it.  [addSyncWrite] raises [InvalidArgument], leaving
    the monitor as it was, exactly when the level is [None] or the timeout is
    the default one, and fails in no other way; otherwise it appends the
    prepare at the back, increments [totalAccepted] (a [size_t]) and leaves
    the HPS seqno alone.  The seqno order of the tracked prepares is kept when
    the new seqno exceeds every tracked one: the code does not check it. *)
Theorem addSyncWrite_effect (item : queued_item)
  (m : PassiveDurabilityMonitor) :
  (fst (addSyncWrite item m) = Throw InvalidArgument <->
   getLevel (getDurabilityReqs item) = LevelNone \/
   isDefault (getTimeout (getDurabilityReqs item)) = true) /\
  (forall e, fst (addSyncWrite item m) = Throw e ->
             e = InvalidArgument /\ snd (addSyncWrite item m) = m) /\
  (getLevel (getDurabilityReqs item) <> LevelNone ->
   isDefault (getTimeout (getDurabilityReqs item)) = false ->
   let m' := snd (addSyncWrite item m) in
   fst (addSyncWrite item m) = Ok tt /\
   nodes (trackedWrites (state m')) =
     nodes (trackedWrites (state m)) ++
     [(fresh (trackedWrites (state m)), mkSyncWrite item)] /\
   totalAccepted (state m') = size_incr (totalAccepted (state m)) /\
   (0 <= totalAccepted (state m) < two64 - 1 ->
    totalAccepted (state m') = totalAccepted (state m) + 1) /\
   getHighPreparedSeqno m' = getHighPreparedSeqno m /\
   (ascending (nodes (trackedWrites (state m))) ->
    Forall (fun n => seqno_of n < getBySeqno item)
           (nodes (trackedWrites (state m))) ->
    ascending (nodes (trackedWrites (state m'))))).
Proof.
  destruct (addSyncWrite_spec item m) as [[Hbad Hc]|(Hl & Ht & Hc)];
    rewrite Hc; cbn [fst snd].
  - split; [tauto|]. split; [now intros e [= <-]|].
    intros Hl Ht. destruct Hbad; congruence.
  - split; [split; [discriminate|intros [H|H]; congruence]|].
    split; [discriminate|]. intros _ _. cbn.
    split; [reflexivity|]. split; [reflexivity|]. split; [reflexivity|].
    split.
    { intro Hr. unfold size_incr. apply Z.mod_small. unfold two64 in *. lia. }
    split; [reflexivity|].
    unfold ascending, seqnos. intros Hasc Hall. rewrite map_app. cbn.
    clear Hc. induction (nodes (trackedWrites (state m))) as [|n l IH]; cbn.
    + repeat constructor.
    + cbn in Hasc. apply StronglySorted_inv in Hasc as [Hs Hf].
      inversion Hall as [|? ? Hn Hl']; subst.
      constructor; [now apply IH|].
      apply Forall_app. split; [exact Hf|]. repeat constructor. exact Hn.
Qed.

Lemma addSyncWrite_effect_witness :
  let item := prepare "b" 2 Majority in
  let m := snd (addSyncWrite (prepare "a" 1 Majority) (new_PDM fresh_vb)) in
  (fst (addSyncWrite item m) = Throw InvalidArgument <->
   getLevel (getDurabilityReqs item) = LevelNone \/
   isDefault (getTimeout (getDurabilityReqs item)) = true) /\
  (forall e, fst (addSyncWrite item m) = Throw e ->
             e = InvalidArgument /\ snd (addSyncWrite item m) = m) /\
  (let m' := snd (addSyncWrite item m) in
   fst (addSyncWrite item m) = Ok tt /\
   nodes (trackedWrites (state m')) =
     nodes (trackedWrites (state m)) ++
     [(fresh (trackedWrites (state m)), mkSyncWrite item)] /\
   totalAccepted (state m') = size_incr (totalAccepted (state m)) /\
   totalAccepted (state m') = totalAccepted (state m) + 1 /\
   getHighPreparedSeqno m' = getHighPreparedSeqno m /\
   ascending (nodes (trackedWrites (state m')))).
Proof.
  intros item m.
  destruct (addSyncWrite_effect item m) as (H1 & H2 & H3).
  split; [exact H1|]. split; [exact H2|].
  destruct H3 as (Hok & Hn & Ha & Hi & Hh & Hs);
    [discriminate|reflexivity|].
  split; [exact Hok|]. split; [exact Hn|]. split; [exact Ha|].
  split; [apply Hi; vm_compute; split; [discriminate|reflexivity]|].
  split; [exact Hh|]. apply Hs.
  - repeat constructor.
  - repeat constructor.
Defined.

(** C8 as stated fails: a prepare with a proper level and timeout is appended
    even when its seqno is below the tracked ones, and the seqno order is
    lost. *)
Lemma addSyncWrite_can_break_order :
  seqnos (nodes (trackedWrites (state tracking_seqno_2))) = [2] /\
  fst (addSyncWrite (prepare "a" 1 Majority) tracking_seqno_2) = Ok tt /\
  seqnos (nodes (trackedWrites (state
    (snd (addSyncWrite (prepare "a" 1 Majority) tracking_seqno_2))))) = [2; 1]
  /\
  ~ (forall (item : queued_item) (m : PassiveDurabilityMonitor),
       getLevel (getDurabilityReqs item) <> LevelNone ->
       isDefault (getTimeout (getDurabilityReqs item)) = false ->
       ascending (nodes (trackedWrites (state m))) ->
       ascending (nodes (trackedWrites (state (snd (addSyncWrite item m)))))).
Proof.
  repeat split. intro H.
  specialize (H (prepare "a" 1 Majority) tracking_seqno_2).
  assert (Hasc : ascending (nodes (trackedWrites (state tracking_seqno_2))))
    by repeat constructor.
  specialize (H ltac:(discriminate) eq_refl Hasc).
  unfold ascending in H. cbn in H.
  apply StronglySorted_inv in H as [_ H].
  inversion H as [|? ? Hlt _]. subst. cbn in Hlt. lia.
Qed.

(** ** Rollback *)

(** C4, where the code departs from it: [prepared_one] tracks one prepare, at
    seqno 1, and its HPS iterator references it.  A rollback to seqno 0 erases
    that prepare and returns with [trackedWrites] empty, yet the HPS iterator
    still references the erased node; it is not [end()].  The next
    notification that reads the iterator is undefined. *)
Theorem postProcessRollback_leaves_stale_iterator :
  it (highPreparedSeqno (state prepared_one)) = Some 0%nat /\
  map seqno_of (nodes (trackedWrites (state prepared_one))) = [1] /\
  fst (postProcessRollback rollback_to_zero prepared_one) = Ok tt /\
  let m' := snd (postProcessRollback rollback_to_zero prepared_one) in
  nodes (trackedWrites (state m')) = [] /\
  it (highPreparedSeqno (state m')) = Some 0%nat /\
  it (highPreparedSeqno (state m')) <> c_end /\
  getHighPreparedSeqno m' = 0 /\
  highCompletedSeqno (state m') = mkPosition c_end 0 /\
  fst (notifySnapshotEndReceived 1
         (snd (addSyncWrite (prepare "a" 1 Majority) m')))
    = Throw UndefinedBehaviour.
Proof.
  vm_compute. repeat split; try reflexivity. discriminate.
Qed.

(** ** HCS and HPS along a run *)

Lemma to_int64_small (x : Z) : 0 <= x < two63 -> to_int64 x = x.
Proof.
  intro H. unfold to_int64. unfold two63, two64 in *.
  rewrite Z.mod_small by lia.
  destruct (x <? 2 ^ 63) eqn:E; [reflexivity|].
  apply Z.ltb_ge in E. lia.
Qed.

(** What a valid rollback leaves in the two positions. *)
Lemma postProcessRollback_positions (rb : RollbackResult)
  (m m' : PassiveDurabilityMonitor) :
  postProcessRollback rb m = (Ok tt, m') ->
  rb_highCompletedSeqno rb <= rb_highPreparedSeqno rb <= rb_highSeqno rb /\
  vb m' = vb m /\
  highCompletedSeqno (state m') =
    mkPosition c_end (to_int64 (rb_highCompletedSeqno rb)) /\
  getHighPreparedSeqno m' = to_int64 (rb_highPreparedSeqno rb) /\
  (nodes (trackedWrites (state m')) <> [] ->
   it (highPreparedSeqno (state m')) =
     last_of (nodes (trackedWrites (state m')))).
Proof.
  intro H.
  destruct (postProcessRollback_spec rb m) as [[_ Hc]|[Hv Hc]];
    rewrite Hc in H; [discriminate|].
  injection H as <-. split; [exact Hv|].
  unfold getHighPreparedSeqno, rolled_back.
  cbn [vb state trackedWrites highPreparedSeqno highCompletedSeqno it
       lastWriteSeqno].
  repeat split. intro Hne. unfold empty.
  destruct (nodes (erase_to_end _ _)); [contradiction|reflexivity].
Qed.

Lemma completeSyncWrite_seqnos (key : string) (res : Resolution)
  (m m' : PassiveDurabilityMonitor) r :
  completeSyncWrite key res m = (r, m') ->
  getHighPreparedSeqno m' = getHighPreparedSeqno m /\
  vb m' = vb m /\
  (r = Ok tt ->
   exists w, awaitingCompletion m = Some w /\
             getHighCompletedSeqno m' = sw_seqno w).
Proof.
  intro H. unfold getHighPreparedSeqno, getHighCompletedSeqno.
  destruct (completeSyncWrite_spec key res m)
    as [(e & Hc & _)
       |(next & w & s1 & removed & s2 & s3 & _ & _ & _ & Haw & _ & _ & Hs1
         & Hp & _ & _ & Hcnt & Hc)];
    rewrite Hc in H; injection H as <- <-.
  - repeat split. discriminate.
  - destruct (count_resolution_spec res s2)
      as (s3' & Hcnt' & _ & Hhps & Hhcs & _).
    rewrite Hcnt in Hcnt'. injection Hcnt' as <-.
    destruct Hp as (_ & _ & Hp & Hq & _). subst s1. cbn in Hp, Hq.
    cbn [state vb]. rewrite Hhps, Hhcs, Hp, Hq. cbn.
    repeat split. intros _. exists w. auto.
Qed.

(** The HPS seqno does not decrease in an operation that is no rollback. *)
Lemma perform_HPS_monotone (op : Op) (m m' : PassiveDurabilityMonitor) r :
  is_rollback op = false ->
  perform op m = (r, m') ->
  getHighPreparedSeqno m <= getHighPreparedSeqno m'.
Proof.
  intros Hop H. unfold getHighPreparedSeqno.
  destruct op as [item|key res|snapEnd| |rb|p]; cbn [perform] in H;
    try discriminate.
  - destruct (addSyncWrite_spec item m) as [[_ Hc]|(_ & _ & Hc)];
      rewrite Hc in H; injection H as <- <-; cbn; lia.
  - apply completeSyncWrite_seqnos in H as [Hk _].
    unfold getHighPreparedSeqno in Hk. lia.
  - rewrite notifySnapshotEndReceived_unfold in H.
    destruct (updateHighPreparedSeqno _ _) as [ru s'] eqn:E.
    pose proof (updateHighPreparedSeqno_frame _ _ _ _ E)
      as (_ & _ & _ & _ & _ & Hle). cbn in Hle.
    destruct ru as [[]|e].
    + rewrite ack_if_moved_spec in H by exact Hle.
      injection H as <- <-. destruct (_ =? _); exact Hle.
    + injection H as <- <-. exact Hle.
  - rewrite notifyLocalPersistence_unfold in H.
    destruct (updateHighPreparedSeqno _ _) as [ru s'] eqn:E.
    pose proof (updateHighPreparedSeqno_frame _ _ _ _ E)
      as (_ & _ & _ & _ & _ & Hle).
    destruct ru as [[]|e].
    + rewrite ack_if_moved_spec in H by exact Hle.
      injection H as <- <-. destruct (_ =? _); exact Hle.
    + injection H as <- <-. exact Hle.
  - mred. injection H as <- <-. cbn. lia.
Qed.

Lemma perform_keeps_S1 (op : Op) (m m' : PassiveDurabilityMonitor) :
  perform op m = (Ok tt, m') -> S1 m -> keeps_S1 op m -> S1 m'.
Proof.
  intros H HS Hside. unfold S1 in *.
  destruct op as [item|key res|snapEnd| |rb|p]; cbn [perform keeps_S1] in *.
  - destruct (addSyncWrite_spec item m) as [[_ Hc]|(_ & _ & Hc)];
      rewrite Hc in H; [discriminate|]. injection H as <-. exact HS.
  - apply completeSyncWrite_seqnos in H as (Hp & _ & Hw).
    destruct (Hw eq_refl) as (w & Haw & Hq).
    rewrite Hp, Hq. now apply Hside.
  - pose proof (perform_HPS_monotone (OpSnapshotEnd snapEnd) m m' (Ok tt)
                  eq_refl H) as Hle.
    rewrite notifySnapshotEndReceived_unfold in H.
    destruct (updateHighPreparedSeqno _ _) as [ru s'] eqn:E.
    pose proof (updateHighPreparedSeqno_frame _ _ _ _ E)
      as (_ & _ & _ & _ & Hhcs & Hl). cbn in Hhcs, Hl.
    destruct ru as [[]|e]; [|discriminate].
    rewrite ack_if_moved_spec in H by exact Hl.
    assert (Hc : getHighCompletedSeqno m' = getHighCompletedSeqno m).
    { injection H as <-. unfold getHighCompletedSeqno.
      destruct (_ =? _); exact Hhcs. }
    lia.
  - pose proof (perform_HPS_monotone OpPersistence m m' (Ok tt) eq_refl H)
      as Hle.
    cbn [perform] in H. rewrite notifyLocalPersistence_unfold in H.
    destruct (updateHighPreparedSeqno _ _) as [ru s'] eqn:E.
    pose proof (updateHighPreparedSeqno_frame _ _ _ _ E)
      as (_ & _ & _ & _ & Hhcs & Hl).
    destruct ru as [[]|e]; [|discriminate].
    rewrite ack_if_moved_spec in H by exact Hl.
    assert (Hc : getHighCompletedSeqno m' = getHighCompletedSeqno m).
    { injection H as <-. unfold getHighCompletedSeqno.
      destruct (_ =? _); exact Hhcs. }
    lia.
  - apply postProcessRollback_positions in H as (Hv & _ & Hc & Hp & _).
    unfold getHighCompletedSeqno. rewrite Hc, Hp. cbn.
    destruct Hside as [H0 H1].
    rewrite !to_int64_small by lia. lia.
  - mred. injection H as <-. exact HS.
Qed.

(** C2, as the code has it.  A fresh monitor satisfies HCS <= HPS, and along a
    run of operations that all return the inequality holds after every
    operation, provided each [completeSyncWrite] completes a prepare whose
    seqno the HPS has reached and the seqnos of rollback results are
    non-negative [int64_t] values.  The proviso on completions is needed: a
    returning [completeSyncWrite] leaves HCS <= HPS exactly when the seqno of
    the completed prepare is not above the HPS. *)
Theorem HCS_below_HPS_along_runs :
  (forall v, S1 (new_PDM v)) /\
  (forall ops m,
     S1 m -> along keeps_S1 ops m ->
     forall k m', run (firstn k ops) m = Some m' -> S1 m') /\
  (forall key res m m',
     completeSyncWrite key res m = (Ok tt, m') ->
     exists w, awaitingCompletion m = Some w /\
               (S1 m' <-> sw_seqno w <= getHighPreparedSeqno m)).
Proof.
  split; [intro v; unfold S1; cbn; lia|]. split.
  - induction ops as [|op ops IH]; intros m HS Hal k m' Hrun.
    + destruct k; cbn in Hrun; injection Hrun as <-; exact HS.
    + destruct k as [|k]; cbn [firstn run] in Hrun.
      { injection Hrun as <-. exact HS. }
      cbn [along] in Hal. destruct Hal as [Hside Hal].
      destruct (perform op m) as [[[]|e] m1] eqn:E; [|discriminate].
      apply (IH m1 (perform_keeps_S1 _ _ _ E HS Hside) Hal k m' Hrun).
  - intros key res m m' H.
    apply completeSyncWrite_seqnos in H as (Hp & _ & Hw).
    destruct (Hw eq_refl) as (w & Haw & Hq).
    exists w. split; [exact Haw|]. unfold S1. rewrite Hp, Hq. reflexivity.
Qed.

Lemma HCS_below_HPS_along_runs_witness : S1 after_ordered_run.
Proof.
  destruct HCS_below_HPS_along_runs as (H0 & H & _).
  refine (H ordered_run (new_PDM fresh_vb) (H0 fresh_vb) _ 5%nat
            after_ordered_run eq_refl).
  cbn. repeat split; try (cbn; lia).
  intros w [= <-]. vm_compute. discriminate.
Defined.

(** C2 as stated fails: completing a prepare before any snapshot end was
    received returns normally and leaves HCS = 1 above HPS = 0. *)
Lemma HCS_can_exceed_HPS :
  run early_completion_run (new_PDM fresh_vb) = Some completed_early /\
  getHighCompletedSeqno completed_early = 1 /\
  getHighPreparedSeqno completed_early = 0 /\
  ~ (forall ops m,
       run ops (new_PDM fresh_vb) = Some m ->
       getHighCompletedSeqno m <= getHighPreparedSeqno m).
Proof.
  repeat split. intro H.
  specialize (H early_completion_run completed_early eq_refl).
  cbn in H. lia.
Qed.

(** ** Seqno acknowledgements *)

Lemma perform_acks (op : Op) (m m' : PassiveDurabilityMonitor) r :
  perform op m = (r, m') ->
  seqnoAcks (vb m') = seqnoAcks (vb m) \/
  (getHighPreparedSeqno m < getHighPreparedSeqno m' /\
   seqnoAcks (vb m') = seqnoAcks (vb m) ++ [getHighPreparedSeqno m']).
Proof.
  intro H. unfold getHighPreparedSeqno.
  destruct op as [item|key res|snapEnd| |rb|p]; cbn [perform] in H.
  - destruct (addSyncWrite_spec item m) as [[_ Hc]|(_ & _ & Hc)];
      rewrite Hc in H; injection H as <- <-; now left.
  - apply completeSyncWrite_seqnos in H as (_ & -> & _). now left.
  - rewrite notifySnapshotEndReceived_unfold in H.
    destruct (updateHighPreparedSeqno _ _) as [ru s'] eqn:E.
    destruct (notified_spec m _ _ _ E) as (m1 & Hm1 & Hst & _ & Hacks).
    assert (Heq : (r, m') = (ru, m1)).
    { rewrite <- H, <- Hm1. destruct ru as [[]|e]; reflexivity. }
    injection Heq as -> ->. rewrite Hst.
    destruct Hacks as [[Ha _]|(_ & Hlt & Ha)]; [now left|right].
    cbn in Hlt. auto.
  - rewrite notifyLocalPersistence_unfold in H.
    destruct (updateHighPreparedSeqno _ _) as [ru s'] eqn:E.
    destruct (notified_spec m _ _ _ E) as (m1 & Hm1 & Hst & _ & Hacks).
    assert (Heq : (r, m') = (ru, m1)).
    { rewrite <- H, <- Hm1. destruct ru as [[]|e]; reflexivity. }
    injection Heq as -> ->. rewrite Hst.
    destruct Hacks as [[Ha _]|(_ & Hlt & Ha)]; [now left|right]. auto.
  - destruct (postProcessRollback_spec rb m) as [[_ Hc]|[_ Hc]];
      rewrite Hc in H; injection H as <- <-; now left.
  - mred. injection H as <- <-. now left.
Qed.

Lemma run_acks (ops : list Op) :
  forall m m',
    forallb (fun op => negb (is_rollback op)) ops = true ->
    run ops m = Some m' ->
    getHighPreparedSeqno m <= getHighPreparedSeqno m' /\
    exists new,
      seqnoAcks (vb m') = seqnoAcks (vb m) ++ new /\
      StronglySorted Z.lt new /\
      Forall (fun a => getHighPreparedSeqno m < a <= getHighPreparedSeqno m')
             new.
Proof.
  induction ops as [|op ops IH]; intros m m' Hno Hrun.
  - cbn in Hrun. injection Hrun as <-. split; [lia|].
    exists []. rewrite app_nil_r. repeat constructor.
  - cbn [forallb] in Hno. apply andb_prop in Hno as [Hop Hno].
    apply negb_true_iff in Hop.
    cbn [run] in Hrun.
    destruct (perform op m) as [[[]|e] m1] eqn:E; [|discriminate].
    pose proof (perform_HPS_monotone _ _ _ _ Hop E) as Hle.
    destruct (IH m1 m' Hno Hrun) as (Hle' & new & Hacks & Hsorted & Hall).
    split; [lia|].
    destruct (perform_acks _ _ _ _ E) as [Ha|[Hlt Ha]].
    + exists new. rewrite Hacks, Ha. split; [reflexivity|].
      split; [exact Hsorted|].
      eapply Forall_impl; [|exact Hall]. cbn. intros; lia.
    + exists (getHighPreparedSeqno m1 :: new).
      rewrite Hacks, Ha, <- app_assoc. split; [reflexivity|]. split.
      * constructor; [exact Hsorted|].
        eapply Forall_impl; [|exact Hall]. cbn. intros; lia.
      * constructor; [lia|].
        eapply Forall_impl; [|exact Hall]. cbn. intros; lia.
Qed.






(** ** Pruning along a run *)

Lemma pruned_above_fence (removed : list node) (s1 s2 : State) :
  pruned removed s1 s2 ->
  ascending (nodes (trackedWrites s1)) ->
  match nodes (trackedWrites s2) with
  | [] => True
  | n :: _ => fence_of s1 < seqno_of n
  end ->
  ascending (nodes (trackedWrites s2)) /\ above_fence s2.
Proof.
  intros (Hn & _ & Hhps & Hhcs & _) Hasc Hhead.
  rewrite Hn in Hasc. apply ascending_app_r in Hasc.
  split; [exact Hasc|].
  unfold above_fence.
  replace (fence_of s2) with (fence_of s1)
    by (unfold fence_of; now rewrite Hhps, Hhcs).
  destruct (nodes (trackedWrites s2)) as [|n l]; [constructor|].
  now apply ascending_head_bound.
Qed.

Lemma updateHighPreparedSeqno_keeps_tidy (p : Z) (s s' : State) :
  updateHighPreparedSeqno p s = (Ok tt, s') ->
  ascending (nodes (trackedWrites s)) -> above_fence s ->
  ascending (nodes (trackedWrites s')) /\ above_fence s'.
Proof.
  intros H Hasc Hab.
  apply updateHighPreparedSeqno_spec in H
    as (s1 & [Hm _] & _ & [[-> Hsame]|(_ & _ & removed & Hp & _ & Hhead)]).
  - specialize (Hsame eq_refl). rewrite Hm. cbn. split; [exact Hasc|].
    unfold above_fence, fence_of in *. rewrite Hm. cbn.
    rewrite Hsame. exact Hab.
  - apply (pruned_above_fence removed s1 s'); auto.
    rewrite Hm. exact Hasc.
Qed.

Lemma ascending_snoc (l : list node) (n : node) :
  ascending l -> Forall (fun x => seqno_of x < seqno_of n) l ->
  ascending (l ++ [n]).
Proof.
  unfold ascending, seqnos. intros Hasc Hall. rewrite map_app. cbn.
  induction l as [|x l IH]; cbn.
  - repeat constructor.
  - cbn in Hasc. apply StronglySorted_inv in Hasc as [Hs Hf].
    inversion Hall as [|? ? Hx Hl]; subst.
    constructor; [now apply IH|].
    apply Forall_app. split; [exact Hf|]. repeat constructor. exact Hx.
Qed.

Lemma perform_keeps_tidy (op : Op) (m m' : PassiveDurabilityMonitor) :
  perform op m = (Ok tt, m') -> tidy m -> keeps_above_fence op m -> tidy m'.
Proof.
  intros H [Hasc Hab] Hside. unfold tidy.
  destruct op as [item|key res|snapEnd| |rb|p];
    cbn [perform keeps_above_fence] in *.
  - destruct (addSyncWrite_spec item m) as [[_ Hc]|(_ & _ & Hc)];
      rewrite Hc in H; [discriminate|]. injection H as <-.
    destruct Hside as [Hf Hall]. cbn. split.
    + now apply ascending_snoc.
    + unfold above_fence, fence_of in *. cbn.
      apply Forall_app. split; [exact Hab|]. repeat constructor. exact Hf.
  - destruct (completeSyncWrite_spec key res m)
      as [(e & Hc & _)
         |(next & w & s1 & removed & s2 & s3 & _ & _ & _ & _ & _ & _ & Hs1
           & Hp & _ & Hhead & Hcnt & Hc)];
      rewrite Hc in H; [discriminate|]. injection H as <-. cbn [state].
    destruct (count_resolution_spec res s2)
      as (s3' & Hcnt' & Htw & Hhps & Hhcs & _).
    rewrite Hcnt in Hcnt'. injection Hcnt' as <-.
    destruct (pruned_above_fence removed s1 s2 Hp) as [Ha Hb].
    { subst s1. exact Hasc. }
    { exact Hhead. }
    unfold above_fence, fence_of in *. rewrite Htw, Hhps, Hhcs. auto.
  - rewrite notifySnapshotEndReceived_unfold in H.
    destruct (updateHighPreparedSeqno _ _) as [ru s'] eqn:E.
    pose proof (updateHighPreparedSeqno_frame _ _ _ _ E)
      as (_ & _ & _ & _ & _ & Hle). cbn in Hle.
    destruct ru as [[]|e]; [|discriminate].
    rewrite ack_if_moved_spec in H by exact Hle.
    assert (Hst : state m' = s')
      by (injection H as <-; now destruct (_ =? _)).
    rewrite Hst.
    apply (updateHighPreparedSeqno_keeps_tidy _ _ _ E); assumption.
  - rewrite notifyLocalPersistence_unfold in H.
    destruct (updateHighPreparedSeqno _ _) as [ru s'] eqn:E.
    pose proof (updateHighPreparedSeqno_frame _ _ _ _ E)
      as (_ & _ & _ & _ & _ & Hle).
    destruct ru as [[]|e]; [|discriminate].
    rewrite ack_if_moved_spec in H by exact Hle.
    assert (Hst : state m' = s')
      by (injection H as <-; now destruct (_ =? _)).
    rewrite Hst.
    apply (updateHighPreparedSeqno_keeps_tidy _ _ _ E); assumption.
  - contradiction.
  - mred. injection H as <-. auto.
Qed.

(** C5, as the code has it.  [checkForAndRemovePrepares] always returns; it
    erases the longest front run of prepares whose seqno is at most
    [min(HCS, HPS)], sets to [end()] each of the two iterators that references
    an erased node, and changes neither seqno nor anything else.  When the
    tracked prepares are in seqno order, every prepare left is above
    [min(HCS, HPS)].  That bound, with the seqno order, is kept by every
    returning operation of a run in which each added prepare has a seqno above
    the fence and above every tracked one and in which no rollback occurs:
    [postProcessRollback] does not prune. *)
Theorem pruning_removes_completed_prefix :
  (forall s,
     exists removed s',
       checkForAndRemovePrepares s = (Ok tt, s') /\
       nodes (trackedWrites s) = removed ++ nodes (trackedWrites s') /\
       Forall (fun n => seqno_of n <= fence_of s) removed /\
       match nodes (trackedWrites s') with
       | [] => True
       | n :: _ => fence_of s < seqno_of n
       end /\
       pruned removed s s' /\
       (points_into (it (highPreparedSeqno s)) removed ->
        it (highPreparedSeqno s') = c_end) /\
       (~ points_into (it (highPreparedSeqno s)) removed ->
        it (highPreparedSeqno s') = it (highPreparedSeqno s)) /\
       (points_into (it (highCompletedSeqno s)) removed ->
        it (highCompletedSeqno s') = c_end) /\
       (~ points_into (it (highCompletedSeqno s)) removed ->
        it (highCompletedSeqno s') = it (highCompletedSeqno s)) /\
       lastWriteSeqno (highPreparedSeqno s')
         = lastWriteSeqno (highPreparedSeqno s) /\
       lastWriteSeqno (highCompletedSeqno s')
         = lastWriteSeqno (highCompletedSeqno s) /\
       (ascending (nodes (trackedWrites s)) -> above_fence s')) /\
  (forall ops m m',
     tidy m -> along keeps_above_fence ops m -> run ops m = Some m' ->
     tidy m').
Proof.
  split.
  - intro s.
    destruct (checkForAndRemovePrepares_spec s)
      as (removed & s' & Hc & Hp & Hr & Hhead).
    exists removed, s'. split; [exact Hc|].
    pose proof Hp as (Hn & _ & Hhps & Hhcs & _).
    split; [exact Hn|]. split; [exact Hr|]. split; [exact Hhead|].
    split; [exact Hp|].
    rewrite Hhps, Hhcs. cbn [it lastWriteSeqno].
    destruct (reset_if_erased_cases removed (it (highPreparedSeqno s)))
      as [[Hin1 ->]|[Hin1 ->]];
      destruct (reset_if_erased_cases removed (it (highCompletedSeqno s)))
        as [[Hin2 ->]|[Hin2 ->]];
      repeat (split; [try reflexivity; try (intros; contradiction);
                      auto; fail|]);
      intro Hasc; now apply (pruned_above_fence removed s s').
  - induction ops as [|op ops IH]; intros m m' Ht Hal Hrun.
    + cbn in Hrun. injection Hrun as <-. exact Ht.
    + cbn [run] in Hrun. cbn [along] in Hal. destruct Hal as [Hside Hal].
      destruct (perform op m) as [[[]|e] m1] eqn:E; [|discriminate].
      exact (IH m1 m' (perform_keeps_tidy _ _ _ E Ht Hside) Hal Hrun).
Qed.

Lemma pruning_removes_completed_prefix_witness : tidy after_fence_run.
Proof.
  destruct pruning_removes_completed_prefix as (_ & H).
  refine (H fence_run (new_PDM fresh_vb) after_fence_run _ _ eq_refl).
  - split; constructor.
  - cbn. unfold fence_of, seqno_of. cbn.
    repeat split; repeat constructor; lia.
Defined.

(** C5 as stated fails after a rollback: the prepare at seqno 1 is completed
    while the HPS is still 0, so it stays tracked; the rollback then sets both
    seqnos to 1 and returns without pruning, leaving a tracked prepare at
    [min(HCS, HPS)]. *)
Lemma rollback_leaves_prepare_at_fence :
  run unpruned_run (new_PDM fresh_vb) = Some after_unpruned_run /\
  seqnos (nodes (trackedWrites (state after_unpruned_run))) = [1] /\
  getHighCompletedSeqno after_unpruned_run = 1 /\
  getHighPreparedSeqno after_unpruned_run = 1 /\
  ~ (forall ops m,
       run ops (new_PDM fresh_vb) = Some m -> above_fence (state m)).
Proof.
  repeat split. intro H.
  specialize (H unpruned_run after_unpruned_run eq_refl).
  inversion H as [|? ? Hlt _]. unfold fence_of, seqno_of in Hlt.
  cbn in Hlt. lia.
Qed.

(** ** The loops of [updateHighPreparedSeqno] walk the nodes in front of the
    HPS iterator *)

Lemma next_of_nodes_after (l : list node) (n : nat) (rest : list node) :
  nodes_after l n = Some rest -> next_of l n = Ok (first_of rest).
Proof.
  induction l as [|[i w] tl IH]; cbn; [discriminate|].
  destruct (Nat.eqb i n); [now intros [= ->]|exact IH].
Qed.

Lemma nodes_after_length (l : list node) (n : nat) (rest : list node) :
  nodes_after l n = Some rest -> (List.length rest < List.length l)%nat.
Proof.
  revert rest. induction l as [|[i w] tl IH]; cbn; intro rest;
    [discriminate|].
  destruct (Nat.eqb i n).
  - intros [= ->]. lia.
  - intro H. apply IH in H. lia.
Qed.

Lemma following_length (c : Container) (i : iterator) (rest : list node) :
  following c i = Some rest -> (List.length rest <= List.length (nodes c))%nat.
Proof.
  destruct i as [n|]; cbn.
  - intro H. apply nodes_after_length in H. lia.
  - intros [= <-]. lia.
Qed.

Lemma getIteratorNext_following (s : State) (i : iterator)
  (rest : list node) :
  following (trackedWrites s) i = Some rest ->
  getIteratorNext i s = (Ok (first_of rest), s).
Proof.
  unfold getIteratorNext. mred. destruct i as [n|]; cbn.
  - intro H. now rewrite (next_of_nodes_after _ _ _ H).
  - now intros [= <-].
Qed.

Lemma find_node_ids (l : list node) (n : nat) (w : SyncWrite) :
  find_node l n = Ok w -> In n (ids l).
Proof.
  intro H. apply find_node_In in H. unfold ids.
  change n with (fst (n, w)). now apply in_map.
Qed.

Lemma nodes_after_head (l : list node) :
  NoDup (ids l) ->
  forall n i w tl,
    nodes_after l n = Some ((i, w) :: tl) ->
    find_node l i = Ok w /\ nodes_after l i = Some tl.
Proof.
  induction l as [|[j v] l IH]; intros Hnd n i w tl H; [discriminate|].
  cbn in Hnd. inversion Hnd as [|? ? Hnotin Hnd']; subst.
  cbn in H. cbn [find_node nodes_after].
  destruct (Nat.eqb j n) eqn:Ejn.
  - injection H as ->.
    assert (Hji : Nat.eqb j i = false).
    { apply Nat.eqb_neq. intros ->. apply Hnotin. cbn. now left. }
    rewrite Hji. cbn. now rewrite Nat.eqb_refl.
  - destruct (IH Hnd' n i w tl H) as [Hf Ha].
    assert (Hji : Nat.eqb j i = false).
    { apply Nat.eqb_neq. intros ->. apply Hnotin.
      eapply find_node_ids; eauto. }
    rewrite Hji. auto.
Qed.

Lemma following_head (c : Container) (it0 : iterator) i w tl :
  NoDup (ids (nodes c)) ->
  following c it0 = Some ((i, w) :: tl) ->
  deref c (Some i) = Ok w /\ following c (Some i) = Some tl.
Proof.
  intros Hnd H. destruct it0 as [n|]; cbn in *.
  - eapply nodes_after_head; eauto.
  - injection H as H. rewrite H. cbn. now rewrite Nat.eqb_refl.
Qed.

Lemma set_highPreparedSeqno_eta (s : State) :
  set_highPreparedSeqno (highPreparedSeqno s) s = s.
Proof. now destruct s. Qed.

Lemma fenceLoop_walk (fuel : nat) :
  forall s rest,
    NoDup (ids (nodes (trackedWrites s))) ->
    following (trackedWrites s) (it (highPreparedSeqno s)) = Some rest ->
    (List.length rest < fuel)%nat ->
    forall r pos rest',
      walk false (snapshotEnd s) (highPreparedSeqno s) rest = (r, pos, rest') ->
      fenceLoop fuel s = (r, set_highPreparedSeqno pos s) /\
      following (trackedWrites s) (it pos) = Some rest'.
Proof.
  induction fuel as [|fuel IH]; intros s rest Hnd Hfol Hlen r pos rest' Hw;
    [lia|].
  cbn [fenceLoop]. unfold bind at 1, get at 1. unfold bind at 1.
  rewrite (getIteratorNext_following _ _ _ Hfol).
  destruct rest as [|[i w] tl]; cbn [first_of walk] in *.
  { injection Hw as <- <- <-. cbn. rewrite set_highPreparedSeqno_eta. auto. }
  destruct (following_head _ _ _ _ _ Hnd Hfol) as [Hd Hfol'].
  cbn [it_eqb c_end]. unfold bind at 1, lift at 1. rewrite Hd.
  destruct (to_uint64 (sw_seqno w) <=? snapshotEnd s).
  2:{ injection Hw as <- <- <-. cbn. rewrite set_highPreparedSeqno_eta.
      auto. }
  cbn [negb andb] in Hw. unfold bind at 1, Expects.
  destruct (Level_eqb (sw_level w) LevelNone); cbn [negb].
  { injection Hw as <- <- <-. cbn. rewrite set_highPreparedSeqno_eta. auto. }
  unfold ret at 1.
  destruct (Level_eqb (sw_level w) PersistToMajority).
  { injection Hw as <- <- <-. cbn. rewrite set_highPreparedSeqno_eta. auto. }
  unfold bind at 1, updateHPS. unfold bind at 1, get at 1.
  unfold bind at 1, lift at 1. rewrite Hd.
  unfold bind at 1, lift at 1.
  destruct (monotonic_assign (lastWriteSeqno (highPreparedSeqno s))
                             (sw_seqno w)) as [v|e].
  2:{ injection Hw as <- <- <-. cbn. rewrite set_highPreparedSeqno_eta.
      auto. }
  unfold put at 1.
  destruct (IH (set_highPreparedSeqno (mkPosition (Some i) v) s) tl
               Hnd Hfol' ltac:(cbn in Hlen; lia) r pos rest' Hw)
    as [Hloop Hfin].
  rewrite Hloop. auto.
Qed.

Lemma persistedLoop_walk (fuel : nat) :
  forall s rest,
    NoDup (ids (nodes (trackedWrites s))) ->
    following (trackedWrites s) (it (highPreparedSeqno s)) = Some rest ->
    (List.length rest < fuel)%nat ->
    forall r pos rest',
      walk true (snapshotEnd s) (highPreparedSeqno s) rest = (r, pos, rest') ->
      persistedLoop fuel s = (r, set_highPreparedSeqno pos s) /\
      following (trackedWrites s) (it pos) = Some rest'.
Proof.
  induction fuel as [|fuel IH]; intros s rest Hnd Hfol Hlen r pos rest' Hw;
    [lia|].
  cbn [persistedLoop]. unfold bind at 1, get at 1. unfold bind at 1.
  rewrite (getIteratorNext_following _ _ _ Hfol).
  destruct rest as [|[i w] tl]; cbn [first_of walk] in *.
  { injection Hw as <- <- <-. cbn. rewrite set_highPreparedSeqno_eta. auto. }
  destruct (following_head _ _ _ _ _ Hnd Hfol) as [Hd Hfol'].
  cbn [it_eqb c_end]. unfold bind at 1, lift at 1. rewrite Hd.
  destruct (to_uint64 (sw_seqno w) <=? snapshotEnd s).
  2:{ injection Hw as <- <- <-. cbn. rewrite set_highPreparedSeqno_eta.
      auto. }
  cbn [negb andb] in Hw.
  unfold bind at 1, updateHPS. unfold bind at 1, get at 1.
  unfold bind at 1, lift at 1. rewrite Hd.
  unfold bind at 1, lift at 1.
  destruct (monotonic_assign (lastWriteSeqno (highPreparedSeqno s))
                             (sw_seqno w)) as [v|e].
  2:{ injection Hw as <- <- <-. cbn. rewrite set_highPreparedSeqno_eta.
      auto. }
  unfold put at 1.
  destruct (IH (set_highPreparedSeqno (mkPosition (Some i) v) s) tl
               Hnd Hfol' ltac:(cbn in Hlen; lia) r pos rest' Hw)
    as [Hloop Hfin].
  rewrite Hloop. auto.
Qed.

Lemma take_drop_while {A} (f : A -> bool) (l : list A) :
  take_while f l ++ drop_while f l = l.
Proof.
  induction l as [|x l IH]; cbn; [reflexivity|].
  destruct (f x); cbn; [now rewrite IH|reflexivity].
Qed.

Lemma last_nonempty_default {A} (l : list A) (x d d' : A) :
  last (x :: l) d = last (x :: l) d'.
Proof.
  revert x. induction l as [|y l IH]; intro x; [reflexivity|].
  change (last (y :: l) d = last (y :: l) d'). apply IH.
Qed.

Lemma last_seqno_cons (n : node) (l : list node) (d : Z) :
  last_seqno (n :: l) d = last_seqno l (seqno_of n).
Proof.
  unfold last_seqno, seqnos. cbn [map].
  destruct l as [|x l]; [reflexivity|].
  cbn [map]. change (last (seqno_of x :: map seqno_of l) d =
                     last (seqno_of x :: map seqno_of l) (seqno_of n)).
  apply last_nonempty_default.
Qed.

(** A walk that returns has moved over the longest run of passable nodes. *)
Lemma walk_ok (b : bool) (e : Z) (rest : list node) :
  forall pos pos' rest',
    walk b e pos rest = (Ok tt, pos', rest') ->
    rest' = drop_while (passable b e) rest /\
    lastWriteSeqno pos' =
      last_seqno (take_while (passable b e) rest) (lastWriteSeqno pos).
Proof.
  induction rest as [|[i w] tl IH]; intros pos pos' rest' H.
  - cbn in H. injection H as <- <-. auto.
  - cbn [walk] in H. cbn [take_while drop_while].
    unfold passable at 1 3. unfold seqno_of at 1 2. cbn [snd].
    destruct (to_uint64 (sw_seqno w) <=? e); cbn [andb].
    2:{ injection H as <- <-. auto. }
    destruct b; cbn [negb andb orb] in *.
    + unfold monotonic_assign in H.
      destruct (sw_seqno w <? lastWriteSeqno pos); [discriminate|].
      apply IH in H as [-> ->]. rewrite last_seqno_cons. auto.
    + destruct (Level_eqb (sw_level w) LevelNone); [discriminate|].
      destruct (Level_eqb (sw_level w) PersistToMajority); cbn [negb].
      { injection H as <- <-. auto. }
      unfold monotonic_assign in H.
      destruct (sw_seqno w <? lastWriteSeqno pos); [discriminate|].
      apply IH in H as [-> ->]. rewrite last_seqno_cons. auto.
Qed.

(** A walk fails only on a prepare of level [None] or on a seqno below the
    HPS. *)
Lemma walk_outcome (b : bool) (e : Z) (rest : list node) :
  forall pos r pos' rest',
    walk b e pos rest = (r, pos', rest') ->
    r = Ok tt \/ r = Throw ExpectationViolation \/
    r = Throw MonotonicityViolation.
Proof.
  induction rest as [|[i w] tl IH]; intros pos r pos' rest' H.
  - cbn in H. injection H as <- _ _. auto.
  - cbn [walk] in H.
    destruct (to_uint64 (sw_seqno w) <=? e); [|injection H as <- _ _; auto].
    destruct (negb b && Level_eqb (sw_level w) LevelNone);
      [injection H as <- _ _; auto|].
    destruct (negb b && Level_eqb (sw_level w) PersistToMajority);
      [injection H as <- _ _; auto|].
    unfold monotonic_assign in H.
    destruct (sw_seqno w <? lastWriteSeqno pos);
      [injection H as <- _ _; auto|].
    eapply IH; eauto.
Qed.

(** A walk returns when no prepare in front has level [None] and the seqnos
    in front do not fall below the HPS nor decrease. *)
Lemma walk_returns (b : bool) (e : Z) (rest : list node) :
  forall pos,
    Forall (fun n => sw_level (snd n) <> LevelNone) rest ->
    StronglySorted Z.le (lastWriteSeqno pos :: seqnos rest) ->
    exists pos' rest', walk b e pos rest = (Ok tt, pos', rest').
Proof.
  induction rest as [|[i w] tl IH]; intros pos Hl Hs.
  - cbn. eauto.
  - cbn [walk].
    destruct (to_uint64 (sw_seqno w) <=? e); [|eauto].
    inversion Hl as [|? ? Hw Hl']; subst. cbn in Hw.
    assert (Level_eqb (sw_level w) LevelNone = false) as ->
      by (destruct (sw_level w); cbn; congruence).
    rewrite andb_false_r.
    destruct (negb b && Level_eqb (sw_level w) PersistToMajority); [eauto|].
    apply StronglySorted_inv in Hs as [Hs Hf]. cbn in Hs, Hf.
    inversion Hf as [|? ? Hle _]; subst.
    unfold monotonic_assign. unfold seqno_of in Hle. cbn in Hle.
    replace (sw_seqno w <? lastWriteSeqno pos) with false
      by (symmetry; apply Z.ltb_ge; exact Hle).
    apply IH; [exact Hl'|exact Hs].
Qed.

(** After the first loop has returned, the second has nothing to move over. *)
Lemma walk_after_walk (e : Z) (rest : list node) (pos : Position) :
  walk false e pos (drop_while (passable true e) rest)
  = (Ok tt, pos, drop_while (passable true e) rest).
Proof.
  induction rest as [|[i w] tl IH]; [reflexivity|].
  cbn [drop_while].
  assert (Hp : passable true e (i, w) = (to_uint64 (sw_seqno w) <=? e))
    by (unfold passable, seqno_of; cbn; apply andb_true_r).
  rewrite Hp.
  destruct (to_uint64 (sw_seqno w) <=? e) eqn:E.
  - exact IH.
  - cbn [walk]. now rewrite E.
Qed.

Lemma walk_moved (b : bool) (e : Z) (rest : list node) :
  forall pos r pos' rest',
    walk b e pos rest = (r, pos', rest') ->
    lastWriteSeqno pos <= lastWriteSeqno pos' /\
    ((pos' = pos /\ rest' = rest) \/
     exists pre i w,
       rest = pre ++ (i, w) :: rest' /\ pos' = mkPosition (Some i) (sw_seqno w)).
Proof.
  induction rest as [|[i w] tl IH]; intros pos r pos' rest' H.
  - cbn in H. injection H as _ <- <-. split; [lia|now left].
  - cbn [walk] in H.
    destruct (to_uint64 (sw_seqno w) <=? e);
      [|injection H as _ <- <-; split; [lia|now left]].
    destruct (negb b && Level_eqb (sw_level w) LevelNone);
      [injection H as _ <- <-; split; [lia|now left]|].
    destruct (negb b && Level_eqb (sw_level w) PersistToMajority);
      [injection H as _ <- <-; split; [lia|now left]|].
    unfold monotonic_assign in H.
    destruct (sw_seqno w <? lastWriteSeqno pos) eqn:E;
      [injection H as _ <- <-; split; [lia|now left]|].
    apply Z.ltb_ge in E.
    apply IH in H as [Hle [[-> ->]|(pre & j & v & -> & ->)]];
      cbn in Hle; (split; [cbn; lia|right]).
    + exists [], i, w. auto.
    + exists ((i, w) :: pre), j, v. auto.
Qed.

Lemma walk_both_outcome (b : bool) (e : Z) (rest : list node) pos r pos' rest' :
  walk_both b e pos rest = (r, pos', rest') ->
  lastWriteSeqno pos <= lastWriteSeqno pos' /\
  (r = Ok tt \/ r = Throw ExpectationViolation \/
   r = Throw MonotonicityViolation).
Proof.
  unfold walk_both. destruct b.
  - destruct (walk true e pos rest) as [[[[]|x] pos1] rest1] eqn:W1.
    + intro W2. split.
      * apply walk_moved in W1 as [H1 _]. apply walk_moved in W2 as [H2 _].
        lia.
      * eapply walk_outcome; eauto.
    + intros [= <- <- <-]. split.
      * now apply walk_moved in W1 as [H1 _].
      * eapply walk_outcome; eauto.
  - intro W. split.
    + now apply walk_moved in W as [H _].
    + eapply walk_outcome; eauto.
Qed.

Lemma walk_both_ok (b : bool) (e : Z) (rest : list node) pos pos' rest' :
  walk_both b e pos rest = (Ok tt, pos', rest') ->
  rest' = drop_while (passable b e) rest /\
  lastWriteSeqno pos' =
    last_seqno (take_while (passable b e) rest) (lastWriteSeqno pos).
Proof.
  unfold walk_both. destruct b.
  - destruct (walk true e pos rest) as [[[[]|x] pos1] rest1] eqn:W1;
      [|discriminate].
    apply walk_ok in W1 as [-> H1]. rewrite walk_after_walk.
    intros [= <- <-]. auto.
  - apply walk_ok.
Qed.

Lemma walk_both_returns (b : bool) (e : Z) (rest : list node) pos :
  Forall (fun n => sw_level (snd n) <> LevelNone) rest ->
  StronglySorted Z.le (lastWriteSeqno pos :: seqnos rest) ->
  exists pos' rest', walk_both b e pos rest = (Ok tt, pos', rest').
Proof.
  intros Hl Hs. unfold walk_both. destruct b.
  - destruct (walk_returns true e rest pos Hl Hs) as (pos1 & rest1 & W1).
    rewrite W1. pose proof W1 as W.
    apply walk_ok in W as [-> _]. rewrite walk_after_walk. eauto.
  - now apply walk_returns.
Qed.

Lemma updateHighPreparedSeqno_eq (p : Z) (s : State) :
  updateHighPreparedSeqno p s =
  if empty (trackedWrites s) then (Ok tt, s)
  else
    ((if p >=? snapshotEnd s
      then persistedLoop (loop_fuel s) else ret tt) ;;
     fenceLoop (loop_fuel s) ;;
     prune_if_moved (lastWriteSeqno (highPreparedSeqno s)))%monad s.
Proof.
  unfold updateHighPreparedSeqno. unfold bind at 1, get at 1.
  now destruct (empty (trackedWrites s)).
Qed.

(** [updateHighPreparedSeqno] on a state whose HPS iterator has the nodes
    [rest] in front of it. *)
Lemma updateHighPreparedSeqno_by_walk (p : Z) (s : State) (rest : list node)
  r pos rest' :
  NoDup (ids (nodes (trackedWrites s))) ->
  following (trackedWrites s) (it (highPreparedSeqno s)) = Some rest ->
  walk_both (p >=? snapshotEnd s) (snapshotEnd s) (highPreparedSeqno s) rest
    = (r, pos, rest') ->
  following (trackedWrites s) (it pos) = Some rest' /\
  updateHighPreparedSeqno p s =
    if empty (trackedWrites s) then (Ok tt, s)
    else
      match r with
      | Ok _ =>
          prune_if_moved (lastWriteSeqno (highPreparedSeqno s))
                         (set_highPreparedSeqno pos s)
      | Throw e => (Throw e, set_highPreparedSeqno pos s)
      end.
Proof.
  intros Hnd Hfol W. rewrite updateHighPreparedSeqno_eq.
  pose proof (following_length _ _ _ Hfol) as Hlen.
  unfold walk_both in W.
  destruct (p >=? snapshotEnd s).
  - destruct (walk true (snapshotEnd s) (highPreparedSeqno s) rest)
      as [[r1 pos1] rest1] eqn:W1.
    destruct (persistedLoop_walk (loop_fuel s) s rest Hnd Hfol
                ltac:(unfold loop_fuel; lia) r1 pos1 rest1 W1)
      as [HL1 Hfol1].
    destruct r1 as [[]|x].
    + destruct (fenceLoop_walk (loop_fuel s)
                  (set_highPreparedSeqno pos1 s) rest1 Hnd Hfol1
                  ltac:(pose proof (following_length _ _ _ Hfol1);
                        unfold loop_fuel; cbn in *; lia)
                  r pos rest' W) as [HL2 Hfol2].
      split; [exact Hfol2|].
      destruct (empty (trackedWrites s)); [reflexivity|].
      unfold bind at 1. rewrite HL1. unfold bind at 1. rewrite HL2.
      cbn [set_highPreparedSeqno trackedWrites highCompletedSeqno snapshotEnd
           totalAccepted totalCommitted totalAborted].
      destruct r as [[]|x]; reflexivity.
    + injection W as <- <- <-. split; [exact Hfol1|].
      destruct (empty (trackedWrites s)); [reflexivity|].
      unfold bind at 1. now rewrite HL1.
  - destruct (fenceLoop_walk (loop_fuel s) s rest Hnd Hfol
                ltac:(unfold loop_fuel; lia) r pos rest' W) as [HL2 Hfol2].
    split; [exact Hfol2|].
    destruct (empty (trackedWrites s)); [reflexivity|].
    unfold bind at 1, ret at 1. unfold bind at 1. rewrite HL2.
    destruct r as [[]|x]; reflexivity.
Qed.

Lemma prune_if_moved_spec (prev : Z) (s : State) :
  prev <= lastWriteSeqno (highPreparedSeqno s) ->
  exists s',
    prune_if_moved prev s = (Ok tt, s') /\
    lastWriteSeqno (highPreparedSeqno s')
      = lastWriteSeqno (highPreparedSeqno s) /\
    (s' = s \/
     exists removed,
       pruned removed s s' /\
       Forall (fun n => seqno_of n <= fence_of s) removed).
Proof.
  intro Hle. unfold prune_if_moved. unfold bind at 1, get at 1.
  destruct (lastWriteSeqno (highPreparedSeqno s) =? prev) eqn:E; cbn [negb].
  - exists s. cbn. auto.
  - apply Z.eqb_neq in E. unfold bind at 1, Expects.
    replace (lastWriteSeqno (highPreparedSeqno s) >? prev) with true
      by (symmetry; apply Z.gtb_lt; lia).
    unfold ret at 1.
    destruct (checkForAndRemovePrepares_spec s)
      as (removed & s' & Hc & Hp & Hr & _).
    exists s'. split; [exact Hc|].
    pose proof Hp as (_ & _ & Hhps & _). rewrite Hhps. cbn.
    split; [reflexivity|]. right. exists removed. auto.
Qed.

(** Where [updateHighPreparedSeqno] leaves the HPS seqno, and when it
    returns. *)
Lemma updateHighPreparedSeqno_reaches (p : Z) (s : State) (rest : list node) :
  NoDup (ids (nodes (trackedWrites s))) ->
  following (trackedWrites s) (it (highPreparedSeqno s)) = Some rest ->
  (forall s',
     updateHighPreparedSeqno p s = (Ok tt, s') ->
     lastWriteSeqno (highPreparedSeqno s') =
       last_seqno
         (take_while (passable (p >=? snapshotEnd s) (snapshotEnd s)) rest)
         (lastWriteSeqno (highPreparedSeqno s))) /\
  (Forall (fun n => sw_level (snd n) <> LevelNone) rest ->
   StronglySorted Z.le (lastWriteSeqno (highPreparedSeqno s) :: seqnos rest) ->
   fst (updateHighPreparedSeqno p s) = Ok tt) /\
  (fst (updateHighPreparedSeqno p s) = Ok tt \/
   fst (updateHighPreparedSeqno p s) = Throw ExpectationViolation \/
   fst (updateHighPreparedSeqno p s) = Throw MonotonicityViolation).
Proof.
  intros Hnd Hfol.
  destruct (walk_both (p >=? snapshotEnd s) (snapshotEnd s)
              (highPreparedSeqno s) rest) as [[r pos] rest'] eqn:W.
  destruct (updateHighPreparedSeqno_by_walk p s rest r pos rest' Hnd Hfol W)
    as [_ Hu].
  destruct (walk_both_outcome _ _ _ _ _ _ _ W) as [Hle Hout].
  destruct (prune_if_moved_spec (lastWriteSeqno (highPreparedSeqno s))
              (set_highPreparedSeqno pos s) Hle) as (s2 & Hp & Hlws & _).
  cbn in Hlws.
  assert (Hempty : empty (trackedWrites s) = true -> rest = []).
  { unfold empty. destruct (nodes (trackedWrites s)) eqn:En; [|discriminate].
    intros _. destruct (it (highPreparedSeqno s)); cbn in Hfol;
      rewrite En in Hfol; [discriminate|now injection Hfol as <-]. }
  rewrite Hu. split; [|split].
  - intros s' H. destruct (empty (trackedWrites s)).
    + injection H as <-. now rewrite (Hempty eq_refl).
    + destruct r as [[]|x]; [|discriminate].
      rewrite Hp in H. injection H as <-. rewrite Hlws.
      now apply walk_both_ok in W as [_ ->].
  - intros Hl Hs. destruct (empty (trackedWrites s)); [reflexivity|].
    destruct (walk_both_returns (p >=? snapshotEnd s) (snapshotEnd s) rest
                (highPreparedSeqno s) Hl Hs) as (pos1 & rest1 & W').
    rewrite W' in W. injection W as <- <- <-. now rewrite Hp.
  - destruct (empty (trackedWrites s)); [now left|].
    destruct r as [[]|x].
    + rewrite Hp. now left.
    + cbn. destruct Hout as [Ho|[Ho|Ho]]; try discriminate;
        injection Ho as ->; auto.
Qed.

Lemma following_suffix (c : Container) (i : iterator) (rest : list node) :
  following c i = Some rest -> exists pre, nodes c = pre ++ rest.
Proof.
  destruct i as [n|]; cbn.
  - generalize (nodes c). intro l. revert rest.
    induction l as [|[j w] l IH]; intros rest H; [discriminate|].
    cbn in H. destruct (Nat.eqb j n).
    + injection H as <-. now exists [(j, w)].
    + destruct (IH _ H) as (pre & ->). now exists ((j, w) :: pre).
  - intros [= <-]. now exists [].
Qed.

Lemma nodes_after_app (a b : list node) (i : nat) (w : SyncWrite) :
  ~ In i (ids a) -> nodes_after (a ++ (i, w) :: b) i = Some b.
Proof.
  induction a as [|[j v] a IH]; cbn; intro Hn.
  - now rewrite Nat.eqb_refl.
  - destruct (Nat.eqb j i) eqn:E.
    + apply Nat.eqb_eq in E. subst. exfalso. apply Hn. now left.
    + apply IH. intro. apply Hn. now right.
Qed.

Lemma nodes_after_inv (l : list node) (n : nat) (rest : list node) :
  nodes_after l n = Some rest ->
  exists pre w, l = pre ++ (n, w) :: rest.
Proof.
  revert rest. induction l as [|[j v] l IH]; intros rest H; [discriminate|].
  cbn in H. destruct (Nat.eqb j n) eqn:E.
  - injection H as <-. apply Nat.eqb_eq in E. subst. now exists [], v.
  - destruct (IH _ H) as (pre & w & ->). now exists ((j, v) :: pre), w.
Qed.

(** A pruned prefix cannot reach into nodes above the fence. *)
Lemma prefix_split (f : Z) (removed : list node) :
  forall pre x rest kept,
    pre ++ x :: rest = removed ++ kept ->
    Forall (fun n => seqno_of n <= f) removed ->
    Forall (fun n => f < seqno_of n) rest ->
    exists mid, pre ++ [x] = removed ++ mid /\ kept = mid ++ rest.
Proof.
  induction removed as [|r removed IH]; intros pre x rest kept Heq Hr Hrest.
  - exists (pre ++ [x]). cbn in *. subst. now rewrite <- app_assoc.
  - inversion Hr as [|? ? Hr0 Hr']; subst.
    destruct pre as [|q pre]; cbn in Heq; injection Heq as <- Heq.
    + destruct removed as [|r' removed].
      * exists []. cbn in *. auto.
      * exfalso. cbn in Heq. subst rest.
        inversion Hrest as [|? ? Hgt _]; subst.
        inversion Hr' as [|? ? Hle _]; subst. lia.
    + destruct (IH pre x rest kept Heq Hr' Hrest) as (mid & Hm & Hk).
      exists mid. cbn. now rewrite Hm.
Qed.

Lemma ascending_after (pre rest : list node) (x : node) :
  ascending (pre ++ x :: rest) ->
  Forall (fun n => seqno_of x < seqno_of n) rest.
Proof.
  intro H. apply ascending_app_r in H.
  unfold ascending, seqnos in H. cbn in H.
  apply StronglySorted_inv in H as [_ H]. now rewrite Forall_map in H.
Qed.

Lemma walk_both_moved (b : bool) (e : Z) (rest : list node) pos r pos' rest' :
  walk_both b e pos rest = (r, pos', rest') ->
  (pos' = pos /\ rest' = rest) \/
  exists pre i w,
    rest = pre ++ (i, w) :: rest' /\ pos' = mkPosition (Some i) (sw_seqno w).
Proof.
  unfold walk_both. destruct b; [|intro W; now apply walk_moved in W].
  destruct (walk true e pos rest) as [[[[]|x] pos1] rest1] eqn:W1.
  - intro W2.
    apply walk_moved in W1 as [_ [[-> ->]|(pre1 & i1 & w1 & -> & ->)]];
      apply walk_moved in W2 as [_ [[-> ->]|(pre2 & i2 & w2 & -> & ->)]].
    + now left.
    + right. exists pre2, i2, w2. auto.
    + right. exists pre1, i1, w1. auto.
    + right. exists (pre1 ++ (i1, w1) :: pre2), i2, w2.
      split; [now rewrite <- app_assoc|reflexivity].
  - intros [= <- <- <-]. now apply walk_moved in W1 as [_ H].
Qed.

Lemma ids_app (a b : list node) : ids (a ++ b) = ids a ++ ids b.
Proof. apply map_app. Qed.

(** Pruning keeps the HPS iterator in place: [end()] when its node was
    erased, which then was the last erased one. *)
Lemma pruned_keeps_position (removed : list node) (s1 s2 : State)
  (pre rest : list node) (i : nat) (w : SyncWrite) :
  pruned removed s1 s2 ->
  Forall (fun n => seqno_of n <= fence_of s1) removed ->
  NoDup (ids (nodes (trackedWrites s1))) ->
  ascending (nodes (trackedWrites s1)) ->
  highPreparedSeqno s1 = mkPosition (Some i) (sw_seqno w) ->
  nodes (trackedWrites s1) = pre ++ (i, w) :: rest ->
  NoDup (ids (nodes (trackedWrites s2))) /\
  following (trackedWrites s2) (it (highPreparedSeqno s2)) = Some rest.
Proof.
  intros (Hn & _ & Hhps & _) Hr Hnd Hasc Hpos Hnodes.
  rewrite Hpos in Hhps. cbn in Hhps.
  assert (Hfence : fence_of s1 <= sw_seqno w).
  { unfold fence_of. rewrite Hpos. cbn. lia. }
  assert (Hrest : Forall (fun n => fence_of s1 < seqno_of n) rest).
  { rewrite Hnodes in Hasc. apply ascending_after in Hasc.
    eapply Forall_impl; [|exact Hasc]. unfold seqno_of. cbn. intros; lia. }
  split.
  { rewrite Hn, ids_app in Hnd. now apply NoDup_app_remove_l in Hnd. }
  rewrite Hnodes in Hn.
  destruct (prefix_split _ _ _ _ _ _ Hn Hr Hrest) as (mid & Hm & Hk).
  rewrite Hnodes, ids_app in Hnd. cbn in Hnd.
  apply NoDup_remove_2 in Hnd.
  rewrite Hhps. cbn [it].
  destruct mid as [|y mid' _] using rev_ind.
  - rewrite app_nil_r in Hm. cbn in Hk.
    destruct (reset_if_erased_cases removed (Some i)) as [[_ ->]|[Hno _]].
    + cbn. now rewrite Hk.
    + exfalso. apply Hno. exists i. split; [reflexivity|].
      rewrite <- Hm, ids_app. apply in_or_app. right. now left.
  - rewrite app_assoc in Hm. apply app_inj_tail in Hm as [Hpre <-].
    assert (Hni : ~ In i (ids pre)).
    { intro Hin. apply Hnd. apply in_or_app. now left. }
    rewrite Hpre, ids_app in Hni.
    destruct (reset_if_erased_cases removed (Some i))
      as [[(n & [= <-] & Hin) _]|[_ ->]].
    + exfalso. apply Hni. apply in_or_app. now left.
    + cbn. rewrite Hk, <- app_assoc. cbn.
      apply nodes_after_app. intro Hin. apply Hni. apply in_or_app. now right.
Qed.

(** [updateHighPreparedSeqno] keeps a state with unique node identities, in
    seqno order and with a valid HPS iterator that way, and leaves in front of
    the iterator exactly the nodes it did not move over. *)
Lemma updateHighPreparedSeqno_keeps_position (p : Z) (s s' : State)
  (rest : list node) :
  NoDup (ids (nodes (trackedWrites s))) ->
  ascending (nodes (trackedWrites s)) ->
  following (trackedWrites s) (it (highPreparedSeqno s)) = Some rest ->
  updateHighPreparedSeqno p s = (Ok tt, s') ->
  NoDup (ids (nodes (trackedWrites s'))) /\
  ascending (nodes (trackedWrites s')) /\
  following (trackedWrites s') (it (highPreparedSeqno s')) =
    Some (drop_while (passable (p >=? snapshotEnd s) (snapshotEnd s)) rest).
Proof.
  intros Hnd Hasc Hfol H.
  destruct (walk_both (p >=? snapshotEnd s) (snapshotEnd s)
              (highPreparedSeqno s) rest) as [[r pos] rest'] eqn:W.
  destruct (updateHighPreparedSeqno_by_walk p s rest r pos rest' Hnd Hfol W)
    as [Hfol' Hu].
  rewrite Hu in H.
  assert (Hempty : empty (trackedWrites s) = true -> rest = []).
  { unfold empty. destruct (nodes (trackedWrites s)) eqn:En; [|discriminate].
    intros _. destruct (it (highPreparedSeqno s)); cbn in Hfol;
      rewrite En in Hfol; [discriminate|now injection Hfol as <-]. }
  destruct (empty (trackedWrites s)).
  { injection H as <-. rewrite (Hempty eq_refl) in *. auto. }
  destruct r as [[]|x]; [|discriminate].
  destruct (walk_both_outcome _ _ _ _ _ _ _ W) as [Hle _].
  pose proof W as Wok. apply walk_both_ok in Wok as [Hdrop _].
  rewrite <- Hdrop.
  destruct (walk_both_moved _ _ _ _ _ _ _ W)
    as [[-> ->]|(pre & i & w & Hrest & ->)].
  - rewrite set_highPreparedSeqno_eta in H.
    unfold prune_if_moved in H. unfold bind at 1, get at 1 in H.
    rewrite Z.eqb_refl in H. injection H as <-. auto.
  - destruct (prune_if_moved_spec (lastWriteSeqno (highPreparedSeqno s))
                (set_highPreparedSeqno (mkPosition (Some i) (sw_seqno w)) s)
                Hle) as (s2 & Hp & _ & [->|(removed & Hpr & Hr)]);
      rewrite Hp in H; injection H as <-.
    + cbn. auto.
    + destruct (following_suffix _ _ _ Hfol) as (pre0 & Hn0).
      destruct (pruned_keeps_position removed _ s2 (pre0 ++ pre) rest' i w
                  Hpr Hr Hnd Hasc eq_refl) as [Hnd2 Hfol2].
      { cbn. rewrite Hn0, Hrest. now rewrite <- app_assoc. }
      split; [exact Hnd2|]. split; [|exact Hfol2].
      destruct Hpr as (Hn & _). cbn in Hn. rewrite Hn in Hasc.
      now apply ascending_app_r in Hasc.
Qed.

(** ** The durability fence and the snapshot boundary *)

Lemma updateHighPreparedSeqno_within_snapshot (p : Z) (s : State) :
  within_snapshot s (snd (updateHighPreparedSeqno p s)).
Proof.
  destruct (updateHighPreparedSeqno p s) as [r s'] eqn:E. cbn [snd].
  apply updateHighPreparedSeqno_spec in E
    as (s1 & _ & Hw & [[-> _]|(_ & _ & removed & Hp & _)]); [exact Hw|].
  destruct Hp as (_ & _ & Hhps & _).
  unfold within_snapshot in *. now rewrite Hhps.
Qed.

Lemma take_while_app_stop {A} (f : A -> bool) (pre post : list A) (x : A) :
  Forall (fun n => f n = true) pre -> f x = false ->
  take_while f (pre ++ x :: post) = pre.
Proof.
  intros Hpre Hx. induction Hpre as [|y pre Hy _ IH]; cbn.
  - now rewrite Hx.
  - now rewrite Hy, IH.
Qed.

Lemma fence_scenario_run (m : PassiveDurabilityMonitor) :
  fence_scenario m ->
  exists m1,
    notifySnapshotEndReceived 3 m = (Ok tt, m1) /\
    getHighPreparedSeqno m1 = 1 /\
    seqnoAcks (vb m1) = seqnoAcks (vb m) ++ [1] /\
    exists m3,
      notifyLocalPersistence (flushed 3 m1) = (Ok tt, m3) /\
      getHighPreparedSeqno m3 = 3 /\
      seqnoAcks (vb m3) = seqnoAcks (vb m) ++ [1; 3].
Proof.
  intros (Hmap & Hnd & Hhps & Hper).
  destruct (nodes (trackedWrites (state m)))
    as [|n1 [|n2 [|n3 [|n4 l]]]] eqn:Hnodes; try discriminate.
  cbn in Hmap. injection Hmap as Hs1 Hl1 Hs2 Hl2 Hs3 Hl3.
  assert (Hlev : Forall (fun n => sw_level (snd n) <> LevelNone) [n1; n2; n3]).
  { repeat constructor; congruence. }
  assert (Hp1 : passable false 3 n1 = true)
    by (unfold passable; rewrite Hs1, Hl1; reflexivity).
  assert (Hp2 : passable false 3 n2 = false)
    by (unfold passable; rewrite Hs2, Hl2; reflexivity).
  assert (Hq2 : passable true 3 n2 = true)
    by (unfold passable; rewrite Hs2; reflexivity).
  assert (Hq3 : passable true 3 n3 = true)
    by (unfold passable; rewrite Hs3; reflexivity).
  (* the snapshot end is received, nothing is persisted *)
  rewrite notifySnapshotEndReceived_unfold.
  set (s0 := set_snapshotEnd 3 (state m)).
  assert (Hnd0 : NoDup (ids (nodes (trackedWrites s0))))
    by (cbn; now rewrite Hnodes).
  assert (Hfol0 : following (trackedWrites s0) (it (highPreparedSeqno s0))
                  = Some [n1; n2; n3])
    by (cbn; rewrite Hhps; cbn; now rewrite Hnodes).
  destruct (updateHighPreparedSeqno_reaches 0 s0 _ Hnd0 Hfol0)
    as (Hreach & Hret & _).
  rewrite Hper.
  assert (Hok : fst (updateHighPreparedSeqno 0 s0) = Ok tt).
  { apply Hret; [exact Hlev|].
    cbn. rewrite Hhps. unfold seqnos. cbn. rewrite Hs1, Hs2, Hs3.
    repeat constructor; lia. }
  destruct (updateHighPreparedSeqno 0 s0) as [ru s1] eqn:E.
  cbn [fst] in Hok. subst ru.
  specialize (Hreach s1 eq_refl).
  change (snapshotEnd s0) with 3 in Hreach.
  change (0 >=? 3) with false in Hreach.
  cbn [take_while] in Hreach. rewrite Hp1, Hp2 in Hreach.
  rewrite last_seqno_cons in Hreach. cbn in Hreach. rewrite Hs1 in Hreach.
  assert (E' : updateHighPreparedSeqno (getPersistenceSeqno (vb m)) s0
               = (Ok tt, s1)) by (now rewrite Hper).
  destruct (notified_spec m s0 (Ok tt) s1 E')
    as (m1 & Hm1 & Hst1 & Hper1 & Hacks1).
  change (lastWriteSeqno (highPreparedSeqno s0))
    with (lastWriteSeqno (highPreparedSeqno (state m))) in Hm1, Hacks1.
  exists m1. split; [exact Hm1|].
  split; [unfold getHighPreparedSeqno; now rewrite Hst1|].
  assert (Ha1 : seqnoAcks (vb m1) = seqnoAcks (vb m) ++ [1]).
  { destruct Hacks1 as [[_ Hsame]|(_ & _ & Ha)].
    - specialize (Hsame eq_refl). rewrite Hhps in Hsame. cbn in Hsame. lia.
    - now rewrite Ha, Hreach. }
  split; [exact Ha1|].
  (* the snapshot is persisted *)
  assert (Hasc0 : ascending (nodes (trackedWrites s0))).
  { cbn. rewrite Hnodes. unfold ascending, seqnos. cbn.
    rewrite Hs1, Hs2, Hs3. repeat constructor; lia. }
  destruct (updateHighPreparedSeqno_keeps_position 0 s0 s1 _ Hnd0 Hasc0
              Hfol0 E) as (Hnd1 & _ & Hfol1).
  change (snapshotEnd s0) with 3 in Hfol1.
  change (0 >=? 3) with false in Hfol1.
  cbn [drop_while] in Hfol1. rewrite Hp1, Hp2 in Hfol1.
  pose proof (updateHighPreparedSeqno_frame _ _ _ _ E) as (Hse1 & _).
  change (snapshotEnd s0) with 3 in Hse1.
  rewrite notifyLocalPersistence_unfold.
  change (getPersistenceSeqno (vb (flushed 3 m1))) with 3.
  change (state (flushed 3 m1)) with (state m1). rewrite Hst1.
  destruct (updateHighPreparedSeqno_reaches 3 s1 _ Hnd1 Hfol1)
    as (Hreach3 & Hret3 & _).
  assert (Hok3 : fst (updateHighPreparedSeqno 3 s1) = Ok tt).
  { apply Hret3; [inversion Hlev; assumption|].
    rewrite Hreach. unfold seqnos. cbn. rewrite Hs2, Hs3.
    repeat constructor; lia. }
  destruct (updateHighPreparedSeqno 3 s1) as [ru3 s3] eqn:E3.
  cbn [fst] in Hok3. subst ru3.
  specialize (Hreach3 s3 eq_refl). rewrite Hse1 in Hreach3.
  change (3 >=? 3) with true in Hreach3.
  cbn [take_while] in Hreach3. rewrite Hq2, Hq3 in Hreach3.
  rewrite !last_seqno_cons in Hreach3. cbn in Hreach3.
  rewrite Hs3 in Hreach3.
  assert (E3' : updateHighPreparedSeqno
                  (getPersistenceSeqno (vb (flushed 3 m1))) s1
                = (Ok tt, s3)) by exact E3.
  destruct (notified_spec (flushed 3 m1) s1 (Ok tt) s3 E3')
    as (m3 & Hm3 & Hst3 & _ & Hacks3).
  exists m3. split; [exact Hm3|].
  split; [unfold getHighPreparedSeqno; now rewrite Hst3|].
  destruct Hacks3 as [[_ Hsame]|(_ & _ & Ha)].
  - specialize (Hsame eq_refl). lia.
  - rewrite Ha, Hreach3. cbn. rewrite Ha1, <- app_assoc. reflexivity.
Qed.

(** C1. In the fence scenario, the receipt of snapshot end 3 with nothing
    persisted moves the HPS to exactly 1 and acknowledges 1, once; after the
    persistence seqno has reached 3, [notifyLocalPersistence] moves the HPS
    to exactly 3 and acknowledges 3, once.  In general, on a state with
    unique node identities whose HPS iterator has the nodes [rest] in front of
    it, a returning [updateHighPreparedSeqno] leaves the HPS at the seqno of
    the last node of the longest front run of [rest] made of prepares that are
    inside the received snapshot and, unless that snapshot is persisted, are
    not [PersistToMajority]; the call returns whenever no prepare in front has
    level [None] and the seqnos in front neither fall below the HPS nor
    decrease, and it never fails otherwise than by a failed expectation or
    monotonicity check.  So, while the snapshot is not persisted, the HPS
    halts in front of the first [PersistToMajority] prepare; and in every
    state, whatever the outcome, the HPS seqno is left unchanged or at a seqno
    that is not beyond [snapshotEnd]. *)
Theorem HPS_respects_fence_and_snapshot :
  (forall m,
     fence_scenario m ->
     exists m1,
       notifySnapshotEndReceived 3 m = (Ok tt, m1) /\
       getHighPreparedSeqno m1 = 1 /\
       seqnoAcks (vb m1) = seqnoAcks (vb m) ++ [1] /\
       exists m3,
         notifyLocalPersistence (flushed 3 m1) = (Ok tt, m3) /\
         getHighPreparedSeqno m3 = 3 /\
         seqnoAcks (vb m3) = seqnoAcks (vb m) ++ [1; 3]) /\
  (forall p s rest,
     NoDup (ids (nodes (trackedWrites s))) ->
     following (trackedWrites s) (it (highPreparedSeqno s)) = Some rest ->
     (forall s',
        updateHighPreparedSeqno p s = (Ok tt, s') ->
        lastWriteSeqno (highPreparedSeqno s') =
          last_seqno
            (take_while (passable (p >=? snapshotEnd s) (snapshotEnd s)) rest)
            (lastWriteSeqno (highPreparedSeqno s))) /\
     (Forall (fun n => sw_level (snd n) <> LevelNone) rest ->
      StronglySorted Z.le
        (lastWriteSeqno (highPreparedSeqno s) :: seqnos rest) ->
      fst (updateHighPreparedSeqno p s) = Ok tt) /\
     (fst (updateHighPreparedSeqno p s) = Ok tt \/
      fst (updateHighPreparedSeqno p s) = Throw ExpectationViolation \/
      fst (updateHighPreparedSeqno p s) = Throw MonotonicityViolation)) /\
  (forall p s pre fence post s',
     NoDup (ids (nodes (trackedWrites s))) ->
     following (trackedWrites s) (it (highPreparedSeqno s))
       = Some (pre ++ fence :: post) ->
     p < snapshotEnd s ->
     Forall (fun n => passable false (snapshotEnd s) n = true) pre ->
     sw_level (snd fence) = PersistToMajority ->
     updateHighPreparedSeqno p s = (Ok tt, s') ->
     lastWriteSeqno (highPreparedSeqno s') =
       last_seqno pre (lastWriteSeqno (highPreparedSeqno s))) /\
  (forall p s,
     let s' := snd (updateHighPreparedSeqno p s) in
     lastWriteSeqno (highPreparedSeqno s')
       = lastWriteSeqno (highPreparedSeqno s) \/
     to_uint64 (lastWriteSeqno (highPreparedSeqno s')) <= snapshotEnd s).
Proof.
  split; [exact fence_scenario_run|].
  split; [intros p s rest; apply updateHighPreparedSeqno_reaches|].
  split.
  - intros p s pre fence post s' Hnd Hfol Hp Hpre Hf H.
    destruct (updateHighPreparedSeqno_reaches p s _ Hnd Hfol) as (Hr & _).
    rewrite (Hr s' H).
    replace (p >=? snapshotEnd s) with false
      by (symmetry; rewrite Z.geb_leb; apply Z.leb_gt; exact Hp).
    rewrite take_while_app_stop; [reflexivity|exact Hpre|].
    unfold passable. rewrite Hf. cbn. apply andb_false_r.
  - intros p s. apply updateHighPreparedSeqno_within_snapshot.
Qed.

Lemma HPS_respects_fence_and_snapshot_witness :
  exists m1,
    notifySnapshotEndReceived 3 three_prepares = (Ok tt, m1) /\
    getHighPreparedSeqno m1 = 1 /\
    seqnoAcks (vb m1) = seqnoAcks (vb three_prepares) ++ [1] /\
    exists m3,
      notifyLocalPersistence (flushed 3 m1) = (Ok tt, m3) /\
      getHighPreparedSeqno m3 = 3 /\
      seqnoAcks (vb m3) = seqnoAcks (vb three_prepares) ++ [1; 3].
Proof.
  destruct HPS_respects_fence_and_snapshot as (H & _).
  apply (H three_prepares).
  unfold fence_scenario. cbn.
  repeat split; try reflexivity.
  repeat constructor; cbn; intuition discriminate.
Defined.

(** ** Notifications that have nothing to do *)

Lemma empty_nodes (c : Container) : nodes c = [] -> empty c = true.
Proof. unfold empty. now intros ->. Qed.

Lemma ack_if_moved_same (hps : Z) (m : PassiveDurabilityMonitor) :
  ack_if_moved hps hps m = (Ok tt, m).
Proof. unfold ack_if_moved. now rewrite Z.eqb_refl. Qed.

(** With nothing tracked, [notifyLocalPersistence] changes nothing and
    [notifySnapshotEndReceived] records the snapshot end and nothing else;
    neither sends an acknowledgement nor reads an iterator. *)
Theorem notifications_with_nothing_tracked (m : PassiveDurabilityMonitor) :
  nodes (trackedWrites (state m)) = [] ->
  notifyLocalPersistence m = (Ok tt, m) /\
  forall snapEnd,
    notifySnapshotEndReceived snapEnd m =
      (Ok tt, {| vb := vb m; state := set_snapshotEnd snapEnd (state m) |}).
Proof.
  intro He. split.
  - rewrite notifyLocalPersistence_unfold, updateHighPreparedSeqno_eq.
    rewrite (empty_nodes _ He). rewrite ack_if_moved_same. now rewrite pdm_eta.
  - intro snapEnd.
    rewrite notifySnapshotEndReceived_unfold, updateHighPreparedSeqno_eq.
    cbn [set_snapshotEnd trackedWrites]. rewrite (empty_nodes _ He).
    apply ack_if_moved_same.
Qed.

Lemma notifications_with_nothing_tracked_witness :
  notifyLocalPersistence
    (snd (postProcessRollback rollback_to_zero prepared_one))
  = (Ok tt, snd (postProcessRollback rollback_to_zero prepared_one)) /\
  forall snapEnd,
    notifySnapshotEndReceived snapEnd
      (snd (postProcessRollback rollback_to_zero prepared_one)) =
      (Ok tt,
       {| vb := vb (snd (postProcessRollback rollback_to_zero prepared_one));
          state := set_snapshotEnd snapEnd
                     (state (snd (postProcessRollback rollback_to_zero
                                    prepared_one))) |}).
Proof.
  apply (notifications_with_nothing_tracked
           (snd (postProcessRollback rollback_to_zero prepared_one))).
  reflexivity.
Defined.

Lemma walk_outside_snapshot (b : bool) (e : Z) (rest : list node)
  (pos : Position) :
  walk b e pos (drop_while (passable true e) rest)
  = (Ok tt, pos, drop_while (passable true e) rest).
Proof.
  induction rest as [|[i w] tl IH]; [reflexivity|].
  cbn [drop_while].
  assert (Hp : passable true e (i, w) = (to_uint64 (sw_seqno w) <=? e))
    by (unfold passable, seqno_of; cbn; apply andb_true_r).
  rewrite Hp.
  destruct (to_uint64 (sw_seqno w) <=? e) eqn:E.
  - exact IH.
  - cbn [walk]. now rewrite E.
Qed.

Lemma walk_at_fence (e : Z) (rest : list node) (pos : Position) :
  walk false e pos (drop_while (passable false e) rest)
  = (Ok tt, pos, drop_while (passable false e) rest).
Proof.
  induction rest as [|[i w] tl IH]; [reflexivity|].
  cbn [drop_while].
  destruct (passable false e (i, w)) eqn:Hp; [exact IH|].
  unfold passable, seqno_of in Hp. cbn [snd orb] in Hp.
  cbn [walk]. destruct (to_uint64 (sw_seqno w) <=? e); [|reflexivity].
  cbn [andb negb] in *. apply negb_false_iff in Hp. rewrite Hp.
  assert (Level_eqb (sw_level w) LevelNone = false) as ->
    by (destruct (sw_level w); cbn in *; congruence).
  reflexivity.
Qed.

Lemma walk_both_settled (b : bool) (e : Z) (rest : list node)
  (pos : Position) :
  walk_both b e pos (drop_while (passable b e) rest)
  = (Ok tt, pos, drop_while (passable b e) rest).
Proof.
  unfold walk_both. destruct b.
  - now rewrite !walk_outside_snapshot.
  - apply walk_at_fence.
Qed.

(** Once [updateHighPreparedSeqno] has returned, a second call with the same
    persistence seqno finds nothing to move. *)
Lemma updateHighPreparedSeqno_settled (p : Z) (s s1 : State) :
  hps_in_place s ->
  updateHighPreparedSeqno p s = (Ok tt, s1) ->
  hps_in_place s1 /\ updateHighPreparedSeqno p s1 = (Ok tt, s1).
Proof.
  intros (Hnd & Hasc & rest & Hfol) H.
  destruct (updateHighPreparedSeqno_keeps_position p s s1 rest Hnd Hasc Hfol H)
    as (Hnd1 & Hasc1 & Hfol1).
  split; [repeat split; eauto|].
  pose proof (updateHighPreparedSeqno_frame _ _ _ _ H) as (Hse & _).
  rewrite <- Hse in Hfol1.
  destruct (updateHighPreparedSeqno_by_walk p s1 _ _ _ _ Hnd1 Hfol1
              (walk_both_settled _ _ _ _)) as [_ Hu].
  rewrite Hu. destruct (empty (trackedWrites s1)); [reflexivity|].
  rewrite set_highPreparedSeqno_eta.
  unfold prune_if_moved. unfold bind at 1, get at 1.
  now rewrite Z.eqb_refl.
Qed.

Lemma notification_result (op : Op) (m m1 : PassiveDurabilityMonitor) :
  is_notification op = true ->
  perform op m = (Ok tt, m1) ->
  exists s0,
    trackedWrites s0 = trackedWrites (state m) /\
    highPreparedSeqno s0 = highPreparedSeqno (state m) /\
    updateHighPreparedSeqno (getPersistenceSeqno (vb m)) s0
      = (Ok tt, state m1) /\
    getPersistenceSeqno (vb m1) = getPersistenceSeqno (vb m).
Proof.
  intros Hop H. destruct op as [item|key res|snapEnd| |rb|p];
    try discriminate; cbn [perform] in H.
  - rewrite notifySnapshotEndReceived_unfold in H.
    destruct (updateHighPreparedSeqno _ _) as [ru s1] eqn:E.
    destruct (notified_spec m _ _ _ E) as (m' & Hm' & Hst & Hper & _).
    exists (set_snapshotEnd snapEnd (state m)).
    destruct ru as [[]|e]; [|discriminate].
    cbn [set_snapshotEnd highPreparedSeqno] in Hm'.
    rewrite Hm' in H. injection H as <-. rewrite Hst. auto.
  - rewrite notifyLocalPersistence_unfold in H.
    destruct (updateHighPreparedSeqno _ _) as [ru s1] eqn:E.
    destruct (notified_spec m _ _ _ E) as (m' & Hm' & Hst & Hper & _).
    exists (state m).
    destruct ru as [[]|e]; [|discriminate].
    rewrite Hm' in H. injection H as <-. rewrite Hst. auto.
Qed.

(** A notification that has returned leaves nothing for
    [notifyLocalPersistence] to do while the persistence seqno stays as it
    is: the next call changes nothing and sends no acknowledgement. *)
Theorem notifyLocalPersistence_idempotent (op : Op)
  (m m1 : PassiveDurabilityMonitor) :
  is_notification op = true ->
  hps_in_place (state m) ->
  perform op m = (Ok tt, m1) ->
  hps_in_place (state m1) /\ notifyLocalPersistence m1 = (Ok tt, m1).
Proof.
  intros Hop Hin H.
  destruct (notification_result op m m1 Hop H)
    as (s0 & Htw & Hhps & Hu & Hper).
  assert (Hin0 : hps_in_place s0)
    by (unfold hps_in_place; now rewrite Htw, Hhps).
  destruct (updateHighPreparedSeqno_settled _ _ _ Hin0 Hu) as [Hin1 Hs].
  split; [exact Hin1|].
  rewrite notifyLocalPersistence_unfold, Hper, Hs.
  rewrite ack_if_moved_same. now rewrite pdm_eta.
Qed.

Lemma notifyLocalPersistence_idempotent_witness :
  hps_in_place (state after_fence_run) /\
  notifyLocalPersistence after_fence_run = (Ok tt, after_fence_run).
Proof.
  refine (notifyLocalPersistence_idempotent OpPersistence
            after_fence_flush after_fence_run eq_refl _ eq_refl).
  unfold hps_in_place. cbn. repeat split.
  - repeat constructor; cbn; intuition discriminate.
  - repeat constructor.
  - eexists. reflexivity.
Defined.

(** ** Completing the front prepare *)

Lemma prune_loop_stop (fence : Z) (l : list node) (hcs hps : iterator) :
  match l with [] => True | n :: _ => fence < seqno_of n end ->
  prune_loop fence l hcs hps = (l, hcs, hps).
Proof.
  destruct l as [|[i w] tl]; [reflexivity|].
  unfold seqno_of. cbn. intro H.
  replace (sw_seqno w <=? fence) with false
    by (symmetry; apply Z.leb_gt; exact H).
  reflexivity.
Qed.

Lemma count_resolution_eq (res : Resolution) (s : State) :
  count_resolution res s = (Ok tt, counted res s).
Proof. destruct res; reflexivity. Qed.

(** [completeSyncWrite] of the front prepare, with the HCS iterator at
    [end()]: the call returns, and what is left depends on whether the HPS has
    reached the prepare. *)
Lemma completeSyncWrite_front_eq (key : string) (res : Resolution)
  (m : PassiveDurabilityMonitor) (i : nat) (w : SyncWrite) (tl : list node) :
  nodes (trackedWrites (state m)) = (i, w) :: tl ->
  ascending (nodes (trackedWrites (state m))) ->
  it (highCompletedSeqno (state m)) = c_end ->
  lastWriteSeqno (highCompletedSeqno (state m)) <= sw_seqno w ->
  sw_key w = key ->
  completeSyncWrite key res m =
    (Ok tt,
     {| vb := vb m;
        state :=
          counted res
            (if sw_seqno w <=? getHighPreparedSeqno m
             then
               mkState
                 {| nodes := tl; fresh := fresh (trackedWrites (state m)) |}
                 (mkPosition
                    (if it_eqb (Some i) (it (highPreparedSeqno (state m)))
                     then c_end else it (highPreparedSeqno (state m)))
                    (getHighPreparedSeqno m))
                 (mkPosition c_end (sw_seqno w))
                 (snapshotEnd (state m)) (totalAccepted (state m))
                 (totalCommitted (state m)) (totalAborted (state m))
             else
               set_highCompletedSeqno (mkPosition (Some i) (sw_seqno w))
                                      (state m)) |}).
Proof.
  intros Hn Hasc Hit Hle Hk.
  unfold completeSyncWrite, wlock. unfold bind at 1, get at 1.
  unfold empty. rewrite Hn.
  unfold bind at 1, getIteratorNext. unfold bind at 1, get at 1.
  rewrite Hit. cbn [it_eqb c_end]. unfold ret at 1.
  unfold c_begin. rewrite Hn. cbn [first_of it_eqb c_end].
  unfold bind at 1, lift at 1. unfold deref. rewrite Hn. cbn [find_node].
  rewrite Nat.eqb_refl. rewrite Hk, String.eqb_refl. cbn [negb].
  unfold bind at 1, lift at 1, monotonic_assign.
  replace (sw_seqno w <? lastWriteSeqno (highCompletedSeqno (state m)))
    with false by (symmetry; apply Z.ltb_ge; exact Hle).
  unfold bind at 1, put at 1. unfold bind at 1.
  unfold checkForAndRemovePrepares. unfold bind at 1, get at 1.
  unfold empty. cbn [set_highCompletedSeqno trackedWrites highCompletedSeqno
                     highPreparedSeqno lastWriteSeqno it snapshotEnd
                     totalAccepted totalCommitted totalAborted].
  rewrite Hn. cbn [prune_loop].
  unfold getHighPreparedSeqno.
  assert (Htl : Forall (fun n => sw_seqno w < seqno_of n) tl).
  { rewrite Hn in Hasc. apply (ascending_after [] tl (i, w)). exact Hasc. }
  destruct (sw_seqno w <=? lastWriteSeqno (highPreparedSeqno (state m)))
    eqn:E.
  - apply Z.leb_le in E.
    rewrite Z.min_l by exact E.
    replace (sw_seqno w <=? sw_seqno w) with true
      by (symmetry; apply Z.leb_refl).
    rewrite it_eqb_refl.
    rewrite prune_loop_stop.
    2:{ destruct tl as [|n tl']; [exact I|]. now inversion Htl. }
    unfold put. rewrite count_resolution_eq. reflexivity.
  - apply Z.leb_gt in E.
    rewrite Z.min_r by lia.
    replace (sw_seqno w <=? lastWriteSeqno (highPreparedSeqno (state m)))
      with false by (symmetry; apply Z.leb_gt; exact E).
    unfold put. rewrite count_resolution_eq.
    unfold set_highCompletedSeqno. rewrite <- Hn.
    destruct (state m) as [[nd fr] hps hcs se ta tc tb]. destruct hps.
    reflexivity.
Qed.

Lemma counted_frame (res : Resolution) (s : State) :
  trackedWrites (counted res s) = trackedWrites s /\
  highPreparedSeqno (counted res s) = highPreparedSeqno s /\
  highCompletedSeqno (counted res s) = highCompletedSeqno s /\
  snapshotEnd (counted res s) = snapshotEnd s /\
  totalAccepted (counted res s) = totalAccepted s /\
  totalCommitted (counted res s) =
    (if is_Commit res then size_incr (totalCommitted s)
     else totalCommitted s) /\
  totalAborted (counted res s) =
    (if is_Abort res then size_incr (totalAborted s) else totalAborted s).
Proof. destruct res; cbn; repeat split. Qed.

(** Completing the front prepare while the HCS iterator is at [end()]
    returns and moves the HCS to the prepare's seqno.  If the HPS has reached
    that seqno, exactly this prepare is erased and the HCS iterator is
    [end()] again; if not, nothing is erased and the HCS iterator stays on the
    prepare. *)
Theorem completeSyncWrite_front (key : string) (res : Resolution)
  (m : PassiveDurabilityMonitor) (i : nat) (w : SyncWrite) (tl : list node) :
  nodes (trackedWrites (state m)) = (i, w) :: tl ->
  ascending (nodes (trackedWrites (state m))) ->
  it (highCompletedSeqno (state m)) = c_end ->
  lastWriteSeqno (highCompletedSeqno (state m)) <= sw_seqno w ->
  sw_key w = key ->
  exists m',
    completeSyncWrite key res m = (Ok tt, m') /\
    getHighCompletedSeqno m' = sw_seqno w /\
    getHighPreparedSeqno m' = getHighPreparedSeqno m /\
    (sw_seqno w <= getHighPreparedSeqno m ->
     nodes (trackedWrites (state m')) = tl /\
     it (highCompletedSeqno (state m')) = c_end /\
     getNumTracked m' = getNumTracked m - 1) /\
    (getHighPreparedSeqno m < sw_seqno w ->
     nodes (trackedWrites (state m')) = (i, w) :: tl /\
     it (highCompletedSeqno (state m')) = Some i /\
     getNumTracked m' = getNumTracked m).
Proof.
  intros Hn Hasc Hit Hle Hk.
  rewrite (completeSyncWrite_front_eq key res m i w tl Hn Hasc Hit Hle Hk).
  eexists. split; [reflexivity|].
  unfold getHighCompletedSeqno, getHighPreparedSeqno, getNumTracked, size.
  cbn [state vb].
  match goal with |- context [counted res ?s] =>
    destruct (counted_frame res s) as (-> & -> & -> & _) end.
  destruct (sw_seqno w <=? lastWriteSeqno (highPreparedSeqno (state m)))
    eqn:E; cbn.
  - apply Z.leb_le in E. repeat split; try lia.
    rewrite Hn. cbn [List.length]. lia.
  - apply Z.leb_gt in E. repeat split; try lia; now rewrite Hn.
Qed.

Lemma completeSyncWrite_front_witness :
  exists m',
    completeSyncWrite "a" Commit after_fence_flush = (Ok tt, m') /\
    getHighCompletedSeqno m' = 1 /\
    getHighPreparedSeqno m' = getHighPreparedSeqno after_fence_flush /\
    (1 <= getHighPreparedSeqno after_fence_flush ->
     nodes (trackedWrites (state m')) =
       tl (nodes (trackedWrites (state after_fence_flush))) /\
     it (highCompletedSeqno (state m')) = c_end /\
     getNumTracked m' = getNumTracked after_fence_flush - 1) /\
    (getHighPreparedSeqno after_fence_flush < 1 ->
     nodes (trackedWrites (state m')) =
       nodes (trackedWrites (state after_fence_flush)) /\
     it (highCompletedSeqno (state m')) = Some 0%nat /\
     getNumTracked m' = getNumTracked after_fence_flush).
Proof.
  refine (completeSyncWrite_front "a" Commit after_fence_flush 0%nat
            (mkSyncWrite (prepare "a" 1 Majority)) _ eq_refl _ eq_refl _
            eq_refl).
  - repeat constructor.
  - cbn. lia.
Defined.

Lemma completeSyncWrite_front_reached (key : string) (res : Resolution)
  (m : PassiveDurabilityMonitor) (i : nat) (w : SyncWrite) (tl : list node) :
  nodes (trackedWrites (state m)) = (i, w) :: tl ->
  ascending (nodes (trackedWrites (state m))) ->
  it (highCompletedSeqno (state m)) = c_end ->
  lastWriteSeqno (highCompletedSeqno (state m)) <= sw_seqno w ->
  sw_key w = key ->
  sw_seqno w <= getHighPreparedSeqno m ->
  exists m1,
    completeSyncWrite key res m = (Ok tt, m1) /\
    nodes (trackedWrites (state m1)) = tl /\
    highCompletedSeqno (state m1) = mkPosition c_end (sw_seqno w) /\
    getHighPreparedSeqno m1 = getHighPreparedSeqno m /\
    vb m1 = vb m /\
    snapshotEnd (state m1) = snapshotEnd (state m) /\
    totalAccepted (state m1) = totalAccepted (state m) /\
    totalCommitted (state m1) =
      (if is_Commit res then size_incr (totalCommitted (state m))
       else totalCommitted (state m)) /\
    totalAborted (state m1) =
      (if is_Abort res then size_incr (totalAborted (state m))
       else totalAborted (state m)).
Proof.
  intros Hn Hasc Hit Hle Hk Hhi.
  rewrite (completeSyncWrite_front_eq key res m i w tl Hn Hasc Hit Hle Hk).
  replace (sw_seqno w <=? getHighPreparedSeqno m) with true
    by (symmetry; apply Z.leb_le; exact Hhi).
  eexists. split; [reflexivity|].
  unfold getHighPreparedSeqno. cbn [state vb].
  match goal with |- context [counted res ?s] =>
    destruct (counted_frame res s)
      as (-> & -> & -> & -> & -> & -> & ->) end.
  cbn. repeat split.
Qed.

(** Completing, in order, every tracked prepare of a monitor whose HPS has
    reached them all. *)
Lemma completions_drain (l : list node) :
  forall rs m,
    nodes (trackedWrites (state m)) = l ->
    ascending l ->
    it (highCompletedSeqno (state m)) = c_end ->
    Forall (fun n => getHighCompletedSeqno m <= seqno_of n
                     <= getHighPreparedSeqno m) l ->
    List.length rs = List.length l ->
    exists m',
      run (completions l rs) m = Some m' /\
      nodes (trackedWrites (state m')) = [] /\
      it (highCompletedSeqno (state m')) = c_end /\
      getHighCompletedSeqno m' = last_seqno l (getHighCompletedSeqno m) /\
      getHighPreparedSeqno m' = getHighPreparedSeqno m /\
      vb m' = vb m /\
      snapshotEnd (state m') = snapshotEnd (state m) /\
      totalAccepted (state m') = totalAccepted (state m) /\
      (0 <= totalCommitted (state m) ->
       totalCommitted (state m) + count_of is_Commit rs < two64 ->
       totalCommitted (state m') =
         totalCommitted (state m) + count_of is_Commit rs) /\
      (0 <= totalAborted (state m) ->
       totalAborted (state m) + count_of is_Abort rs < two64 ->
       totalAborted (state m') =
         totalAborted (state m) + count_of is_Abort rs).
Proof.
  induction l as [|[i w] tl IH]; intros rs m Hn Hasc Hit Hall Hlen.
  - destruct rs; [|discriminate]. exists m. cbn.
    unfold count_of. cbn. repeat split; auto; lia.
  - destruct rs as [|res rs]; [discriminate|].
    inversion Hall as [|? ? [Hlo Hhi] Hall']; subst.
    unfold seqno_of in Hlo, Hhi. cbn in Hlo, Hhi.
    assert (Hasc0 : ascending (nodes (trackedWrites (state m))))
      by (now rewrite Hn).
    destruct (completeSyncWrite_front_reached (sw_key w) res m i w tl Hn
                Hasc0 Hit Hlo eq_refl Hhi)
      as (m1 & Hc & Hn1 & Hhcs1 & Hhps1 & Hvb1 & Hse1 & Hta1 & Htc1 & Htb1).
    cbn [completions combine map fst snd run perform].
    fold (completions tl rs). rewrite Hc.
    assert (Htl : Forall (fun n => sw_seqno w < seqno_of n) tl)
      by (apply (ascending_after [] tl (i, w)); exact Hasc).
    destruct (IH rs m1) as (m' & Hrun & Hnil & Hend & Hhcs' & Hhps' & Hvb
                            & Hse' & Hta' & Htc' & Htb').
    + exact Hn1.
    + now apply (ascending_app_r [(i, w)] tl).
    + now rewrite Hhcs1.
    + unfold getHighCompletedSeqno. rewrite Hhcs1, Hhps1. cbn.
      rewrite Forall_forall in Htl, Hall' |- *. intros n Hin.
      specialize (Htl n Hin). specialize (Hall' n Hin). lia.
    + now injection Hlen.
    + exists m'. split; [exact Hrun|].
      unfold getHighCompletedSeqno in Hhcs'. rewrite Hhcs1 in Hhcs'.
      cbn in Hhcs'.
      rewrite last_seqno_cons. unfold seqno_of. cbn [snd].
      split; [exact Hnil|]. split; [exact Hend|]. split; [exact Hhcs'|].
      split; [congruence|]. split; [congruence|]. split; [congruence|].
      split; [congruence|].
      unfold count_of in *. cbn [filter].
      assert (Hc0 : forall f, 0 <= Z.of_nat (List.length (filter f rs)))
        by (intros; lia).
      assert (Hinc : forall c k, 0 <= c -> 0 <= k -> c + 1 + k < two64 ->
                0 <= size_incr c /\ size_incr c = c + 1).
      { intros c k H0 H1 H2. unfold size_incr, two64 in *.
        rewrite Z.mod_small by lia. lia. }
      split.
      * intros H0 Hno. pose proof (Hc0 is_Commit) as Hk.
        rewrite Htc1 in Htc'.
        destruct res; cbn [is_Commit List.length] in *;
          try (apply Htc'; lia).
        rewrite Nat2Z.inj_succ in Hno |- *.
        destruct (Hinc (totalCommitted (state m)) _ H0 Hk ltac:(lia))
          as [Hp He].
        rewrite Htc' by lia. lia.
      * intros H0 Hno. pose proof (Hc0 is_Abort) as Hk.
        rewrite Htb1 in Htb'.
        destruct res; cbn [is_Abort List.length] in *;
          try (apply Htb'; lia).
        rewrite Nat2Z.inj_succ in Hno |- *.
        destruct (Hinc (totalAborted (state m)) _ H0 Hk ltac:(lia))
          as [Hp He].
        rewrite Htb' by lia. lia.
Qed.

(** When the HPS has reached every tracked prepare and none is completed yet,
    completing them in order, whatever the resolutions, returns every time and
    leaves nothing tracked: the HCS ends at the seqno of the last prepare, the
    HPS and [totalAccepted] are untouched, and, short of a [size_t] overflow,
    [totalCommitted] and [totalAborted] grow by the number of [Commit] and
    [Abort] resolutions; a deduped completion is counted nowhere. *)
Theorem in_order_completion_drains (m : PassiveDurabilityMonitor)
  (rs : list Resolution) :
  ascending (nodes (trackedWrites (state m))) ->
  it (highCompletedSeqno (state m)) = c_end ->
  Forall (fun n => getHighCompletedSeqno m <= seqno_of n
                   <= getHighPreparedSeqno m)
         (nodes (trackedWrites (state m))) ->
  List.length rs = List.length (nodes (trackedWrites (state m))) ->
  exists m',
    run (completions (nodes (trackedWrites (state m))) rs) m = Some m' /\
    getNumTracked m' = 0 /\
    it (highCompletedSeqno (state m')) = c_end /\
    getHighCompletedSeqno m' =
      last_seqno (nodes (trackedWrites (state m))) (getHighCompletedSeqno m) /\
    getHighPreparedSeqno m' = getHighPreparedSeqno m /\
    seqnoAcks (vb m') = seqnoAcks (vb m) /\
    getNumAccepted m' = getNumAccepted m /\
    (0 <= getNumCommitted m ->
     getNumCommitted m + count_of is_Commit rs < two64 ->
     getNumCommitted m' = getNumCommitted m + count_of is_Commit rs) /\
    (0 <= getNumAborted m ->
     getNumAborted m + count_of is_Abort rs < two64 ->
     getNumAborted m' = getNumAborted m + count_of is_Abort rs).
Proof.
  intros Hasc Hit Hall Hlen.
  destruct (completions_drain _ rs m eq_refl Hasc Hit Hall Hlen)
    as (m' & Hrun & Hnil & Hend & Hhcs & Hhps & Hvb & _ & Hta & Htc & Htb).
  exists m'. split; [exact Hrun|].
  unfold getNumTracked, size, getNumAccepted, getNumCommitted, getNumAborted.
  rewrite Hnil, Hvb. auto 10.
Qed.

Lemma in_order_completion_drains_witness :
  exists m',
    run (completions (nodes (trackedWrites (state after_fence_run)))
                     [Commit; Abort; CompletionWasDeduped])
        after_fence_run = Some m' /\
    getNumTracked m' = 0 /\
    it (highCompletedSeqno (state m')) = c_end /\
    getHighCompletedSeqno m' =
      last_seqno (nodes (trackedWrites (state after_fence_run)))
                 (getHighCompletedSeqno after_fence_run) /\
    getHighPreparedSeqno m' = getHighPreparedSeqno after_fence_run /\
    seqnoAcks (vb m') = seqnoAcks (vb after_fence_run) /\
    getNumAccepted m' = getNumAccepted after_fence_run /\
    (0 <= getNumCommitted after_fence_run ->
     getNumCommitted after_fence_run
       + count_of is_Commit [Commit; Abort; CompletionWasDeduped] < two64 ->
     getNumCommitted m' =
       getNumCommitted after_fence_run
       + count_of is_Commit [Commit; Abort; CompletionWasDeduped]) /\
    (0 <= getNumAborted after_fence_run ->
     getNumAborted after_fence_run
       + count_of is_Abort [Commit; Abort; CompletionWasDeduped] < two64 ->
     getNumAborted m' =
       getNumAborted after_fence_run
       + count_of is_Abort [Commit; Abort; CompletionWasDeduped]).
Proof.
  apply (in_order_completion_drains after_fence_run
           [Commit; Abort; CompletionWasDeduped]).
  - repeat constructor.
  - reflexivity.
  - repeat constructor; cbn; lia.
  - reflexivity.
Defined.

(** ** From prepare to completion *)

Lemma run_app (a b : list Op) :
  forall m,
    run (a ++ b) m =
    match run a m with Some m1 => run b m1 | None => None end.
Proof.
  induction a as [|op a IH]; intro m; [reflexivity|].
  cbn [app run]. destruct (perform op m) as [[[]|e] m1]; [apply IH|reflexivity].
Qed.

Lemma ids_allocated (items : list queued_item) :
  forall k, ids (allocated k items) = seq k (List.length items).
Proof.
  induction items as [|x tl IH]; intro k; [reflexivity|].
  cbn. now rewrite <- IH.
Qed.

Lemma seqnos_allocated (items : list queued_item) :
  forall k, seqnos (allocated k items) = map getBySeqno items.
Proof.
  induction items as [|x tl IH]; intro k; [reflexivity|].
  cbn. now rewrite <- (IH (S k)).
Qed.

Lemma length_allocated (items : list queued_item) :
  forall k, List.length (allocated k items) = List.length items.
Proof.
  induction items as [|x tl IH]; intro k; [reflexivity|].
  cbn. now rewrite IH.
Qed.

Lemma completions_allocated (items : list queued_item) :
  forall k rs,
    completions (allocated k items) rs = complete_items items rs.
Proof.
  unfold completions, complete_items.
  induction items as [|x tl IH]; intros k rs; [reflexivity|].
  destruct rs as [|r rs]; [reflexivity|]. cbn. now rewrite IH.
Qed.

Lemma Forall_allocated (P : queued_item -> Prop) (items : list queued_item) :
  forall k,
    Forall P items -> Forall (fun n => P (sw_item (snd n))) (allocated k items).
Proof.
  induction items as [|x tl IH]; intros k H; [constructor|].
  inversion H; subst. constructor; [assumption|now apply IH].
Qed.

(** A run of [addSyncWrite] calls on acceptable items returns and appends
    their nodes in order. *)
Lemma adds_run (items : list queued_item) :
  forall m,
    Forall acceptable items ->
    exists m1,
      run (map OpAdd items) m = Some m1 /\
      nodes (trackedWrites (state m1)) =
        nodes (trackedWrites (state m))
        ++ allocated (fresh (trackedWrites (state m))) items /\
      highPreparedSeqno (state m1) = highPreparedSeqno (state m) /\
      highCompletedSeqno (state m1) = highCompletedSeqno (state m) /\
      vb m1 = vb m /\
      snapshotEnd (state m1) = snapshotEnd (state m) /\
      totalCommitted (state m1) = totalCommitted (state m) /\
      totalAborted (state m1) = totalAborted (state m) /\
      (0 <= totalAccepted (state m) ->
       totalAccepted (state m) + Z.of_nat (List.length items) < two64 ->
       totalAccepted (state m1) =
         totalAccepted (state m) + Z.of_nat (List.length items)).
Proof.
  induction items as [|x tl IH]; intros m Hall.
  - exists m. cbn. rewrite app_nil_r. repeat split; auto. intros; lia.
  - inversion Hall as [|? ? [Hl Ht] Hall']; subst.
    cbn [map run perform].
    destruct (addSyncWrite_spec x m) as [[[H|H] _]|(_ & _ & Hc)];
      [congruence|congruence|].
    rewrite Hc.
    destruct (IH {| vb := vb m; state := added x (state m) |} Hall')
      as (m1 & Hrun & Hn & Hhps & Hhcs & Hvb & Hse & Htc & Htb & Hta).
    exists m1. split; [exact Hrun|].
    cbn [state vb added set_totalAccepted set_trackedWrites emplace_back
         trackedWrites nodes fresh highPreparedSeqno highCompletedSeqno
         snapshotEnd totalAccepted totalCommitted totalAborted allocated
         List.length] in *.
    split; [rewrite Hn, <- app_assoc; reflexivity|].
    repeat (split; [assumption|]).
    intros H0 Hno. rewrite Nat2Z.inj_succ in Hno |- *.
    unfold size_incr, two64 in *.
    rewrite Z.mod_small in Hta by lia. rewrite Hta by lia. lia.
Qed.

Lemma take_while_all {A} (f : A -> bool) (l : list A) :
  Forall (fun x => f x = true) l -> take_while f l = l.
Proof.
  induction 1 as [|x l Hx _ IH]; cbn; [reflexivity|]. now rewrite Hx, IH.
Qed.

Lemma ascending_below_last (l : list node) (d : Z) :
  ascending l -> Forall (fun n => seqno_of n <= last_seqno l d) l.
Proof.
  revert d. induction l as [|x l IH]; intros d Hasc; [constructor|].
  rewrite last_seqno_cons.
  pose proof (ascending_app_r [x] l Hasc) as Hl.
  specialize (IH (seqno_of x) Hl).
  assert (Hx : seqno_of x <= last_seqno l (seqno_of x)).
  { destruct l as [|y l']; [unfold last_seqno; cbn; lia|].
    inversion IH as [|? ? Hy _]; subst.
    pose proof (ascending_after [] (y :: l') x Hasc) as Hgt.
    inversion Hgt; subst. lia. }
  constructor; [exact Hx|exact IH].
Qed.

(** The snapshot end arrives at a monitor whose HPS has not started and
    whose tracked prepares can all be passed. *)
Lemma snapshot_end_reaches_all (snapEnd : Z) (m : PassiveDurabilityMonitor) :
  nodes (trackedWrites (state m)) <> [] ->
  NoDup (ids (nodes (trackedWrites (state m)))) ->
  ascending (nodes (trackedWrites (state m))) ->
  it (highPreparedSeqno (state m)) = c_end ->
  Forall (fun n => getHighPreparedSeqno m < seqno_of n /\
                   getHighCompletedSeqno m < seqno_of n /\
                   sw_level (snd n) <> LevelNone /\
                   passable (getPersistenceSeqno (vb m) >=? snapEnd)
                            snapEnd n = true)
         (nodes (trackedWrites (state m))) ->
  exists m2,
    notifySnapshotEndReceived snapEnd m = (Ok tt, m2) /\
    nodes (trackedWrites (state m2)) = nodes (trackedWrites (state m)) /\
    highCompletedSeqno (state m2) = highCompletedSeqno (state m) /\
    getHighPreparedSeqno m2 =
      last_seqno (nodes (trackedWrites (state m))) (getHighPreparedSeqno m) /\
    seqnoAcks (vb m2) = seqnoAcks (vb m) ++ [getHighPreparedSeqno m2] /\
    totalAccepted (state m2) = totalAccepted (state m) /\
    totalCommitted (state m2) = totalCommitted (state m) /\
    totalAborted (state m2) = totalAborted (state m).
Proof.
  intros Hne Hnd Hasc Hit Hall.
  set (l := nodes (trackedWrites (state m))) in *.
  set (s0 := set_snapshotEnd snapEnd (state m)).
  assert (Hfol : following (trackedWrites s0) (it (highPreparedSeqno s0))
                 = Some l) by (cbn; now rewrite Hit).
  destruct (updateHighPreparedSeqno_reaches (getPersistenceSeqno (vb m)) s0 l
              Hnd Hfol) as (Hreach & Hret & _).
  assert (Hok : fst (updateHighPreparedSeqno (getPersistenceSeqno (vb m)) s0)
                = Ok tt).
  { apply Hret.
    - eapply Forall_impl; [|exact Hall]. cbn. tauto.
    - constructor.
      + clear -Hasc. unfold ascending in Hasc.
        induction Hasc as [|x xs _ IH Hx]; constructor; auto.
        eapply Forall_impl; [|exact Hx]. cbn. intros; lia.
      + unfold seqnos. rewrite Forall_map.
        eapply Forall_impl; [|exact Hall]. cbn.
        unfold getHighPreparedSeqno. intros; lia. }
  rewrite notifySnapshotEndReceived_unfold. fold s0.
  destruct (updateHighPreparedSeqno (getPersistenceSeqno (vb m)) s0)
    as [ru s1] eqn:E.
  cbn [fst] in Hok. subst ru.
  specialize (Hreach s1 eq_refl).
  change (snapshotEnd s0) with snapEnd in Hreach.
  rewrite take_while_all in Hreach
    by (eapply Forall_impl; [|exact Hall]; cbn; tauto).
  change (lastWriteSeqno (highPreparedSeqno s0))
    with (getHighPreparedSeqno m) in Hreach.
  assert (Hlt : getHighPreparedSeqno m < lastWriteSeqno (highPreparedSeqno s1)).
  { rewrite Hreach. destruct l as [|x l'] eqn:El; [contradiction|].
    inversion Hall as [|? ? (Hx & _) _]; subst.
    pose proof (ascending_below_last (x :: l') (getHighPreparedSeqno m) Hasc)
      as Hb. inversion Hb; subst. lia. }
  destruct (notified_spec m s0 (Ok tt) s1 E)
    as (m2 & Hm2 & Hst & _ & Hacks).
  change (lastWriteSeqno (highPreparedSeqno s0))
    with (getHighPreparedSeqno m) in Hm2, Hacks.
  exists m2. split; [exact Hm2|].
  unfold getHighPreparedSeqno at 1 2. rewrite Hst.
  pose proof (updateHighPreparedSeqno_frame _ _ _ _ E)
    as (_ & Hta & Htc & Htb & _).
  apply updateHighPreparedSeqno_spec in E
    as (sa & [Hm _] & _ & [[-> Hsame]|(_ & _ & removed & Hp & Hr & _)]).
  { specialize (Hsame eq_refl). cbn in Hsame.
    unfold getHighPreparedSeqno in Hlt. lia. }
  destruct Hp as (Hn & _ & _ & Hhcs & _).
  assert (Hrem : removed = []).
  { destruct removed as [|r removed']; [reflexivity|]. exfalso.
    inversion Hr as [|? ? Hle _]; subst.
    rewrite Hm in Hn. cbn in Hn. fold l in Hn.
    assert (Hin : In r l) by (rewrite Hn; now left).
    rewrite Forall_forall in Hall. destruct (Hall r Hin) as (_ & Hc & _).
    unfold fence_of in Hle. rewrite Hm in Hle. cbn in Hle.
    unfold getHighCompletedSeqno in Hc. lia. }
  subst removed. cbn in Hn.
  rewrite Hm in Hn, Hhcs. cbn in Hn, Hhcs.
  split; [now rewrite <- Hn|].
  split.
  { rewrite Hhcs. unfold reset_if_erased. cbn.
    now destruct (highCompletedSeqno (state m)). }
  split; [exact Hreach|].
  split.
  { unfold getHighPreparedSeqno. rewrite Hst.
    destruct Hacks as [[_ Hsame]|(_ & _ & Ha)]; [|exact Ha].
    specialize (Hsame eq_refl). lia. }
  cbn in Hta, Htc, Htb. auto.
Qed.

(** The whole life of a batch of prepares on a fresh monitor.  Acceptable
    items with positive, strictly increasing seqnos are added; the end of a
    snapshot that contains them all is received, the snapshot being persisted
    or none of the items being [PersistToMajority]; then every prepare is
    completed, in order.  Every call returns.  The HPS is acknowledged once,
    at the seqno of the last item; in the end nothing is tracked, HPS and HCS
    both stand at that seqno, [getNumAccepted] is the number of items and
    [getNumCommitted] and [getNumAborted] are the numbers of [Commit] and
    [Abort] resolutions. *)
Theorem prepare_ack_complete_round_trip (v : VBucket)
  (items : list queued_item) (rs : list Resolution) (snapEnd : Z) :
  items <> [] ->
  Forall acceptable items ->
  StronglySorted Z.lt (0 :: map getBySeqno items) ->
  Forall (fun x => getBySeqno x <= snapEnd) items ->
  snapEnd < two64 ->
  (snapEnd <= getPersistenceSeqno v \/
   Forall (fun x => getLevel (getDurabilityReqs x) <> PersistToMajority)
          items) ->
  List.length rs = List.length items ->
  Z.of_nat (List.length items) < two64 ->
  exists m',
    run (map OpAdd items ++ OpSnapshotEnd snapEnd :: complete_items items rs)
        (new_PDM v) = Some m' /\
    getNumTracked m' = 0 /\
    getNumAccepted m' = Z.of_nat (List.length items) /\
    getNumCommitted m' = count_of is_Commit rs /\
    getNumAborted m' = count_of is_Abort rs /\
    getHighPreparedSeqno m' = last (map getBySeqno items) 0 /\
    getHighCompletedSeqno m' = last (map getBySeqno items) 0 /\
    seqnoAcks (vb m') = seqnoAcks v ++ [last (map getBySeqno items) 0].
Proof.
  intros Hne Hacc Hsorted Hin Hse Hpass Hlen Hn.
  apply StronglySorted_inv in Hsorted as [Hsorted Hpos].
  destruct (adds_run items (new_PDM v) Hacc)
    as (m1 & Hrun1 & Hn1 & Hhps1 & Hhcs1 & Hvb1 & _ & Htc1 & Htb1 & Hta1).
  cbn [new_PDM state vb initial_State trackedWrites c_empty nodes fresh
       highPreparedSeqno highCompletedSeqno totalAccepted totalCommitted
       totalAborted app] in Hn1, Hhps1, Hhcs1, Hvb1, Htc1, Htb1, Hta1.
  specialize (Hta1 ltac:(lia) ltac:(lia)). rewrite Z.add_0_l in Hta1.
  set (l := allocated 0 items) in *.
  assert (Hseq : seqnos l = map getBySeqno items)
    by apply seqnos_allocated.
  assert (Hasc : ascending l) by (unfold ascending; now rewrite Hseq).
  assert (Hnd : NoDup (ids l))
    by (unfold l; rewrite ids_allocated; apply seq_NoDup).
  assert (Hl : l <> []) by (unfold l; destruct items; [contradiction|discriminate]).
  assert (Hall :
    Forall (fun n => getHighPreparedSeqno m1 < seqno_of n /\
                     getHighCompletedSeqno m1 < seqno_of n /\
                     sw_level (snd n) <> LevelNone /\
                     passable (getPersistenceSeqno (vb m1) >=? snapEnd)
                              snapEnd n = true) l).
  { unfold getHighPreparedSeqno, getHighCompletedSeqno.
    rewrite Hhps1, Hhcs1, Hvb1. cbn [lastWriteSeqno].
    apply (Forall_allocated
             (fun x => 0 < getBySeqno x /\ 0 < getBySeqno x /\
                       getLevel (getDurabilityReqs x) <> LevelNone /\
                       ((to_uint64 (getBySeqno x) <=? snapEnd) &&
                        ((getPersistenceSeqno v >=? snapEnd) ||
                         negb (Level_eqb (getLevel (getDurabilityReqs x))
                                         PersistToMajority))) = true)).
    rewrite Forall_map in Hpos.
    rewrite Forall_forall in Hacc, Hin, Hpos |- *. intros x Hx.
    specialize (Hpos x Hx). specialize (Hin x Hx).
    destruct (Hacc x Hx) as [Hlv _].
    repeat split; try assumption.
    apply andb_true_iff. split.
    - apply Z.leb_le. unfold to_uint64, two64 in *.
      rewrite Z.mod_small by lia. exact Hin.
    - destruct Hpass as [Hp|Hp].
      + apply orb_true_iff. left. rewrite Z.geb_leb. now apply Z.leb_le.
      + apply orb_true_iff. right. rewrite Forall_forall in Hp.
        specialize (Hp x Hx).
        destruct (getLevel (getDurabilityReqs x)); cbn; congruence. }
  rewrite <- Hn1 in Hl, Hnd, Hasc, Hall.
  destruct (snapshot_end_reaches_all snapEnd m1 Hl Hnd Hasc
              ltac:(now rewrite Hhps1) Hall)
    as (m2 & Hrun2 & Hn2 & Hhcs2 & Hhps2 & Hacks2 & Hta2 & Htc2 & Htb2).
  assert (Hall3 :
    Forall (fun n => getHighCompletedSeqno m2 <= seqno_of n
                     <= getHighPreparedSeqno m2)
           (nodes (trackedWrites (state m2)))).
  { rewrite Hn2, Hhps2. unfold getHighCompletedSeqno. rewrite Hhcs2.
    pose proof (ascending_below_last _ (getHighPreparedSeqno m1) Hasc) as Hb.
    rewrite Forall_forall in Hall, Hb |- *. intros n Hn'.
    destruct (Hall n Hn') as (_ & Hc & _).
    unfold getHighCompletedSeqno in Hc. specialize (Hb n Hn'). lia. }
  destruct (completions_drain _ rs m2 eq_refl ltac:(now rewrite Hn2)
              ltac:(now rewrite Hhcs2, Hhcs1) Hall3
              ltac:(rewrite Hn2, Hn1; unfold l;
                    now rewrite length_allocated))
    as (m3 & Hrun3 & Hnil & _ & Hhcs3 & Hhps3 & Hvb3 & _ & Hta3 & Htc3 & Htb3).
  exists m3. split.
  { rewrite run_app, Hrun1. cbn [run perform]. rewrite Hrun2.
    rewrite <- (completions_allocated items 0 rs). fold l.
    rewrite <- Hn1, <- Hn2. exact Hrun3. }
  assert (Hcount : forall f, 0 <= count_of f rs <= Z.of_nat (List.length items)).
  { intro f. unfold count_of. pose proof (filter_length_le f rs). lia. }
  assert (Hlast : last_seqno (nodes (trackedWrites (state m1)))
                             (getHighPreparedSeqno m1)
                  = last (map getBySeqno items) 0).
  { rewrite Hn1. unfold last_seqno, getHighPreparedSeqno.
    now rewrite Hseq, Hhps1. }
  unfold getNumTracked, size, getNumAccepted, getNumCommitted, getNumAborted.
  rewrite Hnil, Hta3, Hta2, Hta1.
  rewrite Htc3 by (rewrite Htc2, Htc1; pose proof (Hcount is_Commit); lia).
  rewrite Htb3 by (rewrite Htb2, Htb1; pose proof (Hcount is_Abort); lia).
  rewrite Htc2, Htc1, Htb2, Htb1, Hhps3, Hhcs3, Hvb3, Hacks2, Hhps2, Hn2.
  rewrite Hlast, Hvb1.
  repeat split.
  assert (Hmid : getHighCompletedSeqno m2 = 0)
    by (unfold getHighCompletedSeqno; now rewrite Hhcs2, Hhcs1).
  rewrite Hmid. rewrite <- Hlast. unfold getHighPreparedSeqno.
  now rewrite Hhps1.
Qed.

Lemma prepare_ack_complete_round_trip_witness :
  exists m',
    run (map OpAdd [prepare "a" 1 Majority; prepare "b" 2 PersistToMajority]
         ++ OpSnapshotEnd 2
            :: complete_items
                 [prepare "a" 1 Majority; prepare "b" 2 PersistToMajority]
                 [Commit; Abort])
        (new_PDM {| persistenceSeqno := 2; seqnoAcks := [] |}) = Some m' /\
    getNumTracked m' = 0 /\
    getNumAccepted m' = 2 /\
    getNumCommitted m' = count_of is_Commit [Commit; Abort] /\
    getNumAborted m' = count_of is_Abort [Commit; Abort] /\
    getHighPreparedSeqno m' = 2 /\
    getHighCompletedSeqno m' = 2 /\
    seqnoAcks (vb m') = [] ++ [2].
Proof.
  apply (prepare_ack_complete_round_trip
           {| persistenceSeqno := 2; seqnoAcks := [] |}
           [prepare "a" 1 Majority; prepare "b" 2 PersistToMajority]
           [Commit; Abort] 2).
  - discriminate.
  - repeat constructor; discriminate.
  - repeat constructor; lia.
  - repeat constructor; cbn; lia.
  - reflexivity.
  - left. cbn. lia.
  - reflexivity.
  - reflexivity.
Defined.

(** ** Rollback: what is tracked afterwards *)

Lemma reinstate_writes (hcs : Z) (items : list queued_item) :
  forall c,
    writes (reinstate hcs items c) =
    map mkSyncWrite
        (rev (filter (fun x => to_uint64 (getBySeqno x) >? hcs) items))
    ++ writes c.
Proof.
  induction items as [|x tl IH]; intro c; [reflexivity|].
  cbn [reinstate filter]. rewrite IH.
  destruct (to_uint64 (getBySeqno x) >? hcs); [|reflexivity].
  cbn [rev]. rewrite map_app, <- app_assoc. reflexivity.
Qed.

Lemma reinstate_ids_fresh (hcs : Z) (items : list queued_item) :
  forall c, ids_fresh c -> ids_fresh (reinstate hcs items c).
Proof.
  induction items as [|x tl IH]; intros c Hc; [exact Hc|].
  cbn [reinstate]. apply IH.
  destruct (to_uint64 (getBySeqno x) >? hcs); [|exact Hc].
  destruct Hc as [Hnd Hlt]. split; cbn.
  - constructor; [|exact Hnd].
    intro Hin. rewrite Forall_forall in Hlt. specialize (Hlt _ Hin). lia.
  - constructor; [lia|].
    eapply Forall_impl; [|exact Hlt]. cbn. intros; lia.
Qed.

Lemma erase_from_find_if (pred : SyncWrite -> bool) (l : list node) :
  NoDup (ids l) ->
  map snd (erase_from l (find_if pred l)) =
  take_while (fun w => negb (pred w)) (map snd l).
Proof.
  induction l as [|[i w] tl IH]; intro Hnd; [reflexivity|].
  cbn in Hnd. inversion Hnd as [|? ? Hnotin Hnd']; subst.
  cbn [find_if map snd take_while].
  destruct (pred w) eqn:Ep; cbn [negb].
  - cbn [erase_from]. now rewrite it_eqb_refl.
  - cbn [erase_from].
    assert (Hne : it_eqb (Some i) (find_if pred tl) = false).
    { destruct (it_eqb (Some i) (find_if pred tl)) eqn:E; [|reflexivity].
      exfalso. apply it_eqb_eq in E. apply Hnotin.
      clear -E. induction tl as [|[j v] tl IH]; [discriminate|].
      cbn in E. destruct (pred v).
      - injection E as <-. now left.
      - right. now apply IH. }
    rewrite Hne. cbn [map snd]. now rewrite IH.
Qed.

Lemma erase_from_prefix (l : list node) (first : iterator) :
  exists rest, l = erase_from l first ++ rest.
Proof.
  induction l as [|[i w] tl [rest IH]]; [now exists []|].
  cbn [erase_from]. destruct (it_eqb (Some i) first).
  - now exists ((i, w) :: tl).
  - exists rest. cbn. now rewrite <- IH.
Qed.

Lemma erase_to_end_ids_fresh (c : Container) (first : iterator) :
  ids_fresh c -> ids_fresh (erase_to_end first c).
Proof.
  intros [Hnd Hlt]. unfold ids_fresh, erase_to_end. cbn.
  destruct (erase_from_prefix (nodes c) first) as [rest Hr].
  rewrite Hr, ids_app in Hnd, Hlt. split.
  - now apply NoDup_app_remove_r in Hnd.
  - now apply Forall_app in Hlt as [Hlt _].
Qed.

(** The tracked prepares after a returning rollback. *)
Lemma rolled_back_writes (rb : RollbackResult) (s : State) :
  ids_fresh (trackedWrites s) ->
  ids_fresh (trackedWrites (rolled_back rb s)) /\
  writes (trackedWrites (rolled_back rb s)) =
    take_while (within_rollback rb)
      (map mkSyncWrite (filter (above_HCS rb) (preparesToAdd rb))
       ++ writes (trackedWrites s)).
Proof.
  intro Hc. unfold rolled_back. cbn [trackedWrites].
  pose proof (reinstate_ids_fresh (rb_highCompletedSeqno rb)
                (rev (preparesToAdd rb)) _ Hc) as Hc1.
  split; [now apply erase_to_end_ids_fresh|].
  unfold writes, erase_to_end. cbn [nodes].
  rewrite erase_from_find_if by apply Hc1.
  fold (writes (reinstate (rb_highCompletedSeqno rb)
                          (rev (preparesToAdd rb)) (trackedWrites s))).
  rewrite reinstate_writes, filter_rev, rev_involutive. reflexivity.
Qed.

(** [postProcessRollback] returns exactly on a rollback result with
    HCS <= HPS <= high seqno, and otherwise fails an expectation before it
    touches anything.  When it returns, the tracked prepares are, in this
    order, the prepares of [preparesToAdd] above the rolled back HCS and the
    prepares tracked before, cut in front of the first one beyond the rollback
    seqno.  It never sends an acknowledgement and leaves [snapshotEnd] and the
    three counters alone. *)
Theorem postProcessRollback_tracks (rb : RollbackResult)
  (m : PassiveDurabilityMonitor) :
  ids_fresh (trackedWrites (state m)) ->
  let m' := snd (postProcessRollback rb m) in
  (fst (postProcessRollback rb m) = Ok tt <-> valid_rollback rb) /\
  (~ valid_rollback rb ->
   fst (postProcessRollback rb m) = Throw ExpectationViolation /\ m' = m) /\
  (valid_rollback rb ->
   ids_fresh (trackedWrites (state m')) /\
   writes (trackedWrites (state m')) =
     take_while (within_rollback rb)
       (map mkSyncWrite (filter (above_HCS rb) (preparesToAdd rb))
        ++ writes (trackedWrites (state m)))) /\
  vb m' = vb m /\
  snapshotEnd (state m') = snapshotEnd (state m) /\
  totalAccepted (state m') = totalAccepted (state m) /\
  totalCommitted (state m') = totalCommitted (state m) /\
  totalAborted (state m') = totalAborted (state m).
Proof.
  intros Hc m'. subst m'. unfold valid_rollback.
  destruct (postProcessRollback_spec rb m) as [[Hbad Heq]|[Hv Heq]];
    rewrite Heq; cbn [fst snd].
  - split; [split; [discriminate|contradiction]|].
    split; [auto|]. split; [contradiction|]. repeat split.
  - split; [tauto|]. split; [contradiction|].
    split; [intros _; now apply rolled_back_writes|].
    repeat split.
Qed.

Lemma postProcessRollback_tracks_witness :
  let rb := mkRollbackResult 0 1 1 [prepare "a" 1 Majority] in
  let m' := snd (postProcessRollback rb after_fence_run) in
  (fst (postProcessRollback rb after_fence_run) = Ok tt <-> valid_rollback rb)
  /\
  (~ valid_rollback rb ->
   fst (postProcessRollback rb after_fence_run) = Throw ExpectationViolation
   /\ m' = after_fence_run) /\
  (valid_rollback rb ->
   ids_fresh (trackedWrites (state m')) /\
   writes (trackedWrites (state m')) =
     take_while (within_rollback rb)
       (map mkSyncWrite (filter (above_HCS rb) (preparesToAdd rb))
        ++ writes (trackedWrites (state after_fence_run)))) /\
  vb m' = vb after_fence_run /\
  snapshotEnd (state m') = snapshotEnd (state after_fence_run) /\
  totalAccepted (state m') = totalAccepted (state after_fence_run) /\
  totalCommitted (state m') = totalCommitted (state after_fence_run) /\
  totalAborted (state m') = totalAborted (state after_fence_run).
Proof.
  apply (postProcessRollback_tracks
           (mkRollbackResult 0 1 1 [prepare "a" 1 Majority]) after_fence_run).
  split; cbn.
  - repeat constructor; cbn; intuition discriminate.
  - repeat constructor.
Defined.

(** ** Iterators stay valid *)

Lemma nodes_after_some (l : list node) (n : nat) :
  In n (ids l) -> exists rest, nodes_after l n = Some rest.
Proof.
  induction l as [|[j v] l IH]; cbn; [contradiction|].
  intro H. destruct (Nat.eqb j n) eqn:E; [eauto|].
  apply Nat.eqb_neq in E. destruct H as [H|H]; [contradiction|auto].
Qed.

Lemma nodes_after_in (l : list node) (n : nat) (rest : list node) :
  nodes_after l n = Some rest -> In n (ids l).
Proof.
  intro H. apply nodes_after_inv in H as (pre & w & ->).
  rewrite ids_app. apply in_or_app. right. now left.
Qed.

Lemma iterator_valid_following (c : Container) (i : iterator) :
  iterator_valid c i <-> exists rest, following c i = Some rest.
Proof.
  unfold iterator_valid, points_into. destruct i as [n|]; cbn.
  - split.
    + intros [H|(k & [= <-] & Hin)]; [discriminate|].
      now apply nodes_after_some.
    + intros [rest H]. right. exists n. split; [reflexivity|].
      eapply nodes_after_in; eauto.
  - split; [eauto|auto].
Qed.

Lemma first_of_valid (c : Container) (rest pre : list node) :
  nodes c = pre ++ rest -> iterator_valid c (first_of rest).
Proof.
  intro H. destruct rest as [|[i w] tl]; [now left|].
  right. exists i. split; [reflexivity|].
  rewrite H, ids_app. apply in_or_app. right. now left.
Qed.

Lemma pruned_valid (removed : list node) (s1 s2 : State) (i : iterator) :
  nodes (trackedWrites s1) = removed ++ nodes (trackedWrites s2) ->
  iterator_valid (trackedWrites s1) i ->
  iterator_valid (trackedWrites s2) (reset_if_erased removed i).
Proof.
  intros Hn Hv.
  destruct (reset_if_erased_cases removed i) as [[_ ->]|[Hno ->]];
    [now left|].
  destruct Hv as [->|(n & -> & Hin)]; [now left|].
  right. exists n. split; [reflexivity|].
  rewrite Hn, ids_app in Hin. apply in_app_or in Hin as [Hin|Hin];
    [|exact Hin].
  exfalso. apply Hno. now exists n.
Qed.

Lemma pruned_positions_valid (removed : list node) (s1 s2 : State) :
  pruned removed s1 s2 -> positions_valid s1 -> positions_valid s2.
Proof.
  intros (Hn & Hf & Hhps & Hhcs & _) ([Hnd Hlt] & Hvc & Hvp).
  split; [|split].
  - rewrite Hn, ids_app in Hnd, Hlt. split.
    + now apply NoDup_app_remove_l in Hnd.
    + rewrite Hf. now apply Forall_app in Hlt as [_ Hlt].
  - rewrite Hhcs. cbn. eapply pruned_valid; eauto.
  - rewrite Hhps. cbn. eapply pruned_valid; eauto.
Qed.

Lemma emplace_back_valid (w : SyncWrite) (c : Container) (i : iterator) :
  iterator_valid c i -> iterator_valid (emplace_back w c) i.
Proof.
  intros [->|(n & -> & Hin)]; [now left|].
  right. exists n. split; [reflexivity|].
  cbn. rewrite ids_app. apply in_or_app. now left.
Qed.

Lemma emplace_back_ids_fresh (w : SyncWrite) (c : Container) :
  ids_fresh c -> ids_fresh (emplace_back w c).
Proof.
  intros [Hnd Hlt]. split; cbn; rewrite ids_app; cbn.
  - apply NoDup_app; [exact Hnd|repeat constructor; intros []|].
    intros x Hx [<-|[]]. rewrite Forall_forall in Hlt.
    specialize (Hlt _ Hx). lia.
  - apply Forall_app. split.
    + eapply Forall_impl; [|exact Hlt]. cbn. intros; lia.
    + repeat constructor.
Qed.

Lemma last_of_in (l : list node) :
  l <> [] -> exists n, last_of l = Some n /\ In n (ids l).
Proof.
  induction l as [|[i w] tl IH]; [contradiction|]. intros _.
  destruct tl as [|x tl'].
  - exists i. cbn. auto.
  - destruct IH as (n & Hl & Hin); [discriminate|].
    exists n. split; [exact Hl|]. now right.
Qed.

(** [updateHighPreparedSeqno] keeps valid positions valid, whatever its
    outcome. *)
Lemma updateHighPreparedSeqno_positions_valid (p : Z) (s : State) r s' :
  positions_valid s ->
  updateHighPreparedSeqno p s = (r, s') ->
  positions_valid s'.
Proof.
  intros (Hc & Hvc & Hvp) H.
  pose proof Hvp as Hfol. apply iterator_valid_following in Hfol as [rest Hfol].
  destruct (walk_both (p >=? snapshotEnd s) (snapshotEnd s)
              (highPreparedSeqno s) rest) as [[rw pos] rest'] eqn:W.
  destruct (updateHighPreparedSeqno_by_walk p s rest rw pos rest'
              (proj1 Hc) Hfol W) as [Hfol' Hu].
  rewrite Hu in H.
  assert (Hmid : positions_valid (set_highPreparedSeqno pos s)).
  { split; [exact Hc|]. split; [exact Hvc|].
    cbn. apply iterator_valid_following. eauto. }
  destruct (empty (trackedWrites s)).
  { injection H as _ <-. exact (conj Hc (conj Hvc Hvp)). }
  destruct rw as [[]|e]; [|injection H as _ <-; exact Hmid].
  destruct (walk_both_outcome _ _ _ _ _ _ _ W) as [Hle _].
  destruct (prune_if_moved_spec (lastWriteSeqno (highPreparedSeqno s))
              (set_highPreparedSeqno pos s) Hle)
    as (s2 & Hp & _ & [->|(removed & Hpr & _)]);
    rewrite Hp in H; injection H as _ <-; [exact Hmid|].
  eapply pruned_positions_valid; eauto.
Qed.

Lemma rolled_back_positions_valid (rb : RollbackResult) (s : State) :
  positions_valid s ->
  ids_fresh (trackedWrites (rolled_back rb s)) /\
  iterator_valid (trackedWrites (rolled_back rb s))
                 (it (highCompletedSeqno (rolled_back rb s))) /\
  (nodes (trackedWrites (rolled_back rb s)) <> [] \/
   it (highPreparedSeqno s) = c_end ->
   iterator_valid (trackedWrites (rolled_back rb s))
                  (it (highPreparedSeqno (rolled_back rb s)))).
Proof.
  intros (Hc & _). split; [now apply rolled_back_writes|].
  split; [now left|].
  unfold rolled_back.
  cbn [trackedWrites highPreparedSeqno it]. unfold empty.
  destruct (nodes (erase_to_end _ _)) as [|x l] eqn:E; cbn [negb].
  - intros [H|H]; [contradiction|]. left. exact H.
  - intros _. destruct (last_of_in (x :: l)) as (n & Hl & Hin);
      [discriminate|].
    right. exists n. rewrite E. auto.
Qed.

(** Node identities stay unique and the HCS iterator stays valid through
    every operation, whatever its outcome.  The HPS iterator stays valid too,
    except through a [postProcessRollback] that leaves nothing tracked while
    the iterator was not at [end()]. *)
Theorem positions_stay_valid (op : Op) (m : PassiveDurabilityMonitor) :
  positions_valid (state m) ->
  let m' := snd (perform op m) in
  ids_fresh (trackedWrites (state m')) /\
  iterator_valid (trackedWrites (state m'))
                 (it (highCompletedSeqno (state m'))) /\
  (is_rollback op = false \/
   nodes (trackedWrites (state m')) <> [] \/
   it (highPreparedSeqno (state m)) = c_end ->
   positions_valid (state m')).
Proof.
  intros Hv m'. subst m'.
  assert (H : positions_valid (state (snd (perform op m))) \/
              (is_rollback op = true /\
               ids_fresh (trackedWrites (state (snd (perform op m)))) /\
               iterator_valid (trackedWrites (state (snd (perform op m))))
                 (it (highCompletedSeqno (state (snd (perform op m))))) /\
               (nodes (trackedWrites (state (snd (perform op m)))) <> [] \/
                it (highPreparedSeqno (state m)) = c_end ->
                positions_valid (state (snd (perform op m)))))).
  { destruct op as [item|key res|snapEnd| |rb|p]; cbn [perform].
    - left.
      destruct (addSyncWrite_spec item m) as [[_ Hc]|(_ & _ & Hc)];
        rewrite Hc; cbn [snd state]; [exact Hv|].
      destruct Hv as (Hc0 & Hvc & Hvp). unfold added.
      split; [now apply emplace_back_ids_fresh|].
      split; now apply emplace_back_valid.
    - left.
      destruct (completeSyncWrite_spec key res m)
        as [(e & Hc & _)
           |(next & w & s1 & removed & s2 & s3 & _ & Hne & Hnext & _ & _ & _
             & Hs1 & Hp & _ & _ & Hcnt & Hc)];
        rewrite Hc; cbn [snd state]; [exact Hv|].
      destruct (count_resolution_spec res s2)
        as (s3' & Hcnt' & Htw & Hhps & Hhcs & _).
      rewrite Hcnt in Hcnt'. injection Hcnt' as <-.
      assert (Hv1 : positions_valid s1).
      { destruct Hv as (Hc0 & Hvc & Hvp). subst s1.
        split; [exact Hc0|]. split; [|exact Hvp]. cbn.
        apply iterator_valid_following in Hvc as [rest Hfol].
        rewrite (getIteratorNext_following _ _ _ Hfol) in Hnext.
        injection Hnext as <-.
        destruct (following_suffix _ _ _ Hfol) as (pre & Hn).
        eapply first_of_valid; eauto. }
      pose proof (pruned_positions_valid _ _ _ Hp Hv1) as Hv2.
      unfold positions_valid. now rewrite Htw, Hhps, Hhcs.
    - left. rewrite notifySnapshotEndReceived_unfold.
      destruct (updateHighPreparedSeqno _ _) as [ru s'] eqn:E.
      pose proof (updateHighPreparedSeqno_frame _ _ _ _ E)
        as (_ & _ & _ & _ & _ & Hle). cbn in Hle.
      assert (Hv' : positions_valid s')
        by (eapply updateHighPreparedSeqno_positions_valid; [|exact E];
            exact Hv).
      destruct ru as [[]|e]; [|exact Hv'].
      rewrite ack_if_moved_spec by exact Hle.
      cbn [snd]. now destruct (_ =? _).
    - left. rewrite notifyLocalPersistence_unfold.
      destruct (updateHighPreparedSeqno _ _) as [ru s'] eqn:E.
      pose proof (updateHighPreparedSeqno_frame _ _ _ _ E)
        as (_ & _ & _ & _ & _ & Hle).
      assert (Hv' : positions_valid s')
        by (eapply updateHighPreparedSeqno_positions_valid; [|exact E];
            exact Hv).
      destruct ru as [[]|e]; [|exact Hv'].
      rewrite ack_if_moved_spec by exact Hle.
      cbn [snd]. now destruct (_ =? _).
    - destruct (postProcessRollback_spec rb m) as [[_ Hc]|[_ Hc]];
        rewrite Hc; cbn [snd state]; [now left|].
      right. split; [reflexivity|].
      destruct (rolled_back_positions_valid rb (state m) Hv)
        as (Hc1 & Hvc1 & Hvp1).
      split; [exact Hc1|]. split; [exact Hvc1|].
      intro H. split; [exact Hc1|]. split; [exact Hvc1|now apply Hvp1].
    - left. exact Hv. }
  destruct H as [(Hc & Hvc & Hvp)|(Hr & Hc & Hvc & Hvp)].
  - split; [exact Hc|]. split; [exact Hvc|]. intros _.
    exact (conj Hc (conj Hvc Hvp)).
  - split; [exact Hc|]. split; [exact Hvc|].
    intros [H|H]; [congruence|now apply Hvp].
Qed.

Lemma positions_stay_valid_witness :
  let m' := snd (perform (OpComplete "a" Commit) after_fence_flush) in
  ids_fresh (trackedWrites (state m')) /\
  iterator_valid (trackedWrites (state m'))
                 (it (highCompletedSeqno (state m'))) /\
  (is_rollback (OpComplete "a" Commit) = false \/
   nodes (trackedWrites (state m')) <> [] \/
   it (highPreparedSeqno (state after_fence_flush)) = c_end ->
   positions_valid (state m')).
Proof.
  apply (positions_stay_valid (OpComplete "a" Commit) after_fence_flush).
  split; [split|split].
  - repeat constructor; cbn; intuition discriminate.
  - cbn. repeat constructor.
  - now left.
  - right. exists 0%nat. cbn. auto.
Defined.

(** ** Notifications after a rollback *)

Lemma nodes_after_last (l : list node) :
  NoDup (ids l) -> l <> [] ->
  exists n, last_of l = Some n /\ nodes_after l n = Some [].
Proof.
  induction l as [|[i w] tl IH]; [contradiction|]. intros Hnd _.
  destruct tl as [|x tl'].
  - exists i. cbn. now rewrite Nat.eqb_refl.
  - change (ids ((i, w) :: x :: tl')) with (i :: ids (x :: tl')) in Hnd.
    apply NoDup_cons_iff in Hnd as [Hni Hnd].
    destruct (IH Hnd) as (n & Hl & Ha); [discriminate|].
    exists n. split; [exact Hl|].
    cbn [nodes_after]. destruct (Nat.eqb i n) eqn:E; [|exact Ha].
    apply Nat.eqb_eq in E. subst n. exfalso. apply Hni.
    eapply nodes_after_in; eauto.
Qed.

(** With the HPS iterator on the last prepare, [updateHighPreparedSeqno]
    finds nothing to move onto. *)
Lemma updateHighPreparedSeqno_at_last (p : Z) (s : State) :
  NoDup (ids (nodes (trackedWrites s))) ->
  following (trackedWrites s) (it (highPreparedSeqno s)) = Some [] ->
  updateHighPreparedSeqno p s = (Ok tt, s).
Proof.
  intros Hnd Hfol.
  destruct (updateHighPreparedSeqno_by_walk p s [] _ _ _ Hnd Hfol
              (walk_both_settled _ _ [] _)) as [_ Hu].
  rewrite Hu. destruct (empty (trackedWrites s)); [reflexivity|].
  rewrite set_highPreparedSeqno_eta.
  unfold prune_if_moved. unfold bind at 1, get at 1.
  now rewrite Z.eqb_refl.
Qed.

(** After a [postProcessRollback] that leaves prepares tracked, the HPS
    iterator is on the last of them: a local persistence changes nothing, and
    a snapshot end is recorded and changes nothing else.  Neither moves the
    HPS, removes a prepare or sends an acknowledgement, whatever the
    snapshot end and the persistence seqno. *)
Theorem notifications_after_rollback (rb : RollbackResult)
  (m m1 : PassiveDurabilityMonitor) :
  ids_fresh (trackedWrites (state m)) ->
  postProcessRollback rb m = (Ok tt, m1) ->
  nodes (trackedWrites (state m1)) <> [] ->
  notifyLocalPersistence m1 = (Ok tt, m1) /\
  forall snapEnd,
    notifySnapshotEndReceived snapEnd m1 =
      (Ok tt, {| vb := vb m1; state := set_snapshotEnd snapEnd (state m1) |}).
Proof.
  intros Hc H Hne.
  destruct (postProcessRollback_spec rb m) as [[_ Hr]|[_ Hr]];
    rewrite Hr in H; [discriminate|].
  injection H as <-. cbn [state vb] in *.
  destruct (rolled_back_writes rb (state m) Hc) as [[Hnd _] _].
  destruct (nodes_after_last _ Hnd Hne) as (n & Hl & Ha).
  assert (Hit : it (highPreparedSeqno (rolled_back rb (state m))) = Some n).
  { revert Hne Hl. unfold rolled_back.
    cbn [trackedWrites highPreparedSeqno it]. unfold empty.
    destruct (nodes (erase_to_end _ _)); [contradiction|].
    cbn [negb]. auto. }
  assert (Hfol : forall snapEnd,
             following
               (trackedWrites (set_snapshotEnd snapEnd
                                 (rolled_back rb (state m))))
               (it (highPreparedSeqno
                      (set_snapshotEnd snapEnd (rolled_back rb (state m)))))
             = Some []).
  { intro snapEnd. cbn [set_snapshotEnd trackedWrites highPreparedSeqno].
    rewrite Hit. exact Ha. }
  split.
  - rewrite notifyLocalPersistence_unfold. cbn [state vb].
    rewrite updateHighPreparedSeqno_at_last; [|exact Hnd|].
    + now rewrite ack_if_moved_same.
    + rewrite Hit. exact Ha.
  - intro snapEnd. rewrite notifySnapshotEndReceived_unfold. cbn [state vb].
    rewrite updateHighPreparedSeqno_at_last; [|exact Hnd|apply Hfol].
    cbn [set_snapshotEnd highPreparedSeqno]. now rewrite ack_if_moved_same.
Qed.

Lemma notifications_after_rollback_witness :
  notifyLocalPersistence after_ordered_run = (Ok tt, after_ordered_run) /\
  forall snapEnd,
    notifySnapshotEndReceived snapEnd after_ordered_run =
      (Ok tt, {| vb := vb after_ordered_run;
                 state := set_snapshotEnd snapEnd (state after_ordered_run) |}).
Proof.
  refine (notifications_after_rollback
            (mkRollbackResult 0 1 1 [prepare "a" 1 Majority])
            before_ordered_rollback after_ordered_run _ eq_refl _).
  - split; cbn; repeat constructor; cbn; intuition discriminate.
  - discriminate.
Defined.

(** ** The warmup constructor: what it checks *)

Lemma track_outstanding_fails (ps : list queued_item) :
  forall s,
    Exists (fun p => isDefault (getTimeout (getDurabilityReqs p)) = true) ps ->
    fst (track_outstanding ps s) = Throw ExpectationViolation.
Proof.
  induction ps as [|p ps IH]; intros s Hex; [inversion Hex|].
  cbn [track_outstanding]. unfold bind at 1, Expects.
  destruct (isDefault (getTimeout (getDurabilityReqs p))) eqn:E;
    cbn [negb]; [reflexivity|].
  unfold ret at 1. mred. apply IH.
  inversion Hex as [? ? H|? ? H]; subst; [congruence|exact H].
Qed.

Lemma track_outstanding_frame (ps : list queued_item) :
  forall s r s',
    track_outstanding ps s = (r, s') ->
    (r = Ok tt \/ r = Throw ExpectationViolation) /\
    highPreparedSeqno s' = highPreparedSeqno s /\
    highCompletedSeqno s' = highCompletedSeqno s /\
    snapshotEnd s' = snapshotEnd s /\
    totalCommitted s' = totalCommitted s /\
    totalAborted s' = totalAborted s /\
    (ids_fresh (trackedWrites s) -> ids_fresh (trackedWrites s')) /\
    (r = Ok tt ->
     map sw_level (writes (trackedWrites s')) =
       map sw_level (writes (trackedWrites s)) ++
       map (fun p => getLevel (getDurabilityReqs p)) ps).
Proof.
  induction ps as [|p ps IH]; intros s r s' H.
  - cbn in H. injection H as <- <-. cbn [map]. rewrite app_nil_r.
    split; [now left|]. repeat (split; [reflexivity|]). split; auto.
  - cbn [track_outstanding] in H. unfold bind at 1, Expects in H.
    destruct (isDefault (getTimeout (getDurabilityReqs p))) eqn:E;
      cbn [negb] in H.
    + injection H as <- <-.
      split; [now right|]. repeat (split; [reflexivity|]).
      split; [auto|discriminate].
    + unfold ret at 1 in H.
      unfold bind at 1, get at 1 in H. unfold bind at 1, put at 1 in H.
      apply IH in H as (Hr & Hp & Hc & He & Ht & Ha & Hf & Hl).
      cbn [set_trackedWrites highPreparedSeqno highCompletedSeqno snapshotEnd
           totalCommitted totalAborted trackedWrites] in *.
      split; [exact Hr|]. split; [exact Hp|]. split; [exact Hc|].
      split; [exact He|]. split; [exact Ht|]. split; [exact Ha|].
      split.
      * intro Hi. apply Hf. now apply emplace_back_ids_fresh.
      * intro Hok. rewrite (Hl Hok). unfold writes. cbn [emplace_back nodes].
        rewrite !map_app. cbn [map app snd]. unfold sw_level at 2.
        cbn [sw_item]. rewrite <- app_assoc. reflexivity.
Qed.

(** The warmup constructor fails, with a violated [Expects], exactly when one
    of the outstanding prepares has the default timeout; the durability level
    is not looked at, so a prepare of [Level::None] is tracked.  The monitor it
    builds has both positions where the plain constructor puts them. *)
Theorem warmup_constructor_outcome (v : VBucket) (ps : list queued_item) :
  (new_PDM_warmup v ps = Throw ExpectationViolation <->
   Exists (fun p => isDefault (getTimeout (getDurabilityReqs p)) = true) ps) /\
  (forall e, new_PDM_warmup v ps = Throw e -> e = ExpectationViolation) /\
  (forall m,
     new_PDM_warmup v ps = Ok m ->
     vb m = v /\
     highPreparedSeqno (state m) = mkPosition c_end 0 /\
     highCompletedSeqno (state m) = mkPosition c_end 0 /\
     snapshotEnd (state m) = 0 /\
     getNumCommitted m = 0 /\ getNumAborted m = 0 /\
     positions_valid (state m) /\
     map sw_level (writes (trackedWrites (state m))) =
       map (fun p => getLevel (getDurabilityReqs p)) ps).
Proof.
  unfold new_PDM_warmup, wlock. cbn [state vb new_PDM].
  destruct (track_outstanding ps initial_State) as [r s'] eqn:E.
  pose proof (track_outstanding_frame ps _ _ _ E)
    as (Hr & Hp & Hc & He & Ht & Ha & Hf & Hl).
  assert (Hi : ids_fresh (trackedWrites initial_State))
    by (split; cbn; constructor).
  split; [|split].
  - split.
    + intro H.
      assert (Hdec : forall p : queued_item,
                {isDefault (getTimeout (getDurabilityReqs p)) = true} +
                {isDefault (getTimeout (getDurabilityReqs p)) <> true})
        by (intro p; destruct (isDefault (getTimeout (getDurabilityReqs p)));
            [now left|now right]).
      destruct (Exists_dec _ ps Hdec) as [Hex|Hno]; [exact Hex|exfalso].
      assert (Hall : Forall
                         (fun p => isDefault (getTimeout (getDurabilityReqs p))
                                   = false) ps).
      { apply Forall_forall. intros p Hin.
        destruct (isDefault (getTimeout (getDurabilityReqs p))) eqn:Ed;
          [|reflexivity].
        exfalso. apply Hno. apply Exists_exists. eauto. }
      destruct (track_outstanding_spec ps initial_State Hall)
        as (s2 & Hrun & _).
      rewrite Hrun in E. injection E as <- <-. discriminate.
    + intro Hex. pose proof (track_outstanding_fails ps initial_State Hex) as F.
      rewrite E in F. cbn in F. now rewrite F.
  - intros e H. destruct Hr as [-> | ->]; [discriminate|congruence].
  - intros m H. destruct r as [[]|e]; [|discriminate].
    injection H as <-. cbn [state vb].
    unfold getNumCommitted, getNumAborted. cbn [state].
    rewrite Hp, Hc, He, Ht, Ha. cbn.
    repeat (split; [reflexivity|]).
    split.
    + split; [now apply Hf|]. rewrite Hc, Hp. split; now left.
    + now rewrite Hl.
Qed.

(** ** The persistence seqno and the levels *)

Lemma walk_any_loop (b : bool) (e : Z) (rest : list node) :
  forall pos,
    Forall needs_no_persistence rest ->
    walk b e pos rest = walk false e pos rest.
Proof.
  induction rest as [|[i w] tl IH]; intros pos Hl; [reflexivity|].
  inversion Hl as [|? ? Hw Hl']; subst. cbn [walk].
  destruct (to_uint64 (sw_seqno w) <=? e); [|reflexivity].
  assert (Level_eqb (sw_level w) LevelNone = false /\
          Level_eqb (sw_level w) PersistToMajority = false) as [-> ->]
    by (destruct Hw as [Hw|Hw]; cbn in Hw; rewrite Hw; split; reflexivity).
  rewrite !andb_false_r.
  destruct (monotonic_assign _ _); [|reflexivity]. now apply IH.
Qed.

Lemma walk_stops (e : Z) (rest : list node) :
  forall pos pos' rest',
    Forall needs_no_persistence rest ->
    walk false e pos rest = (Ok tt, pos', rest') ->
    walk false e pos' rest' = (Ok tt, pos', rest').
Proof.
  induction rest as [|[i w] tl IH]; intros pos pos' rest' Hl H.
  - cbn in H. injection H as <- <-. reflexivity.
  - inversion Hl as [|? ? Hw Hl']; subst. cbn [walk] in H.
    destruct (to_uint64 (sw_seqno w) <=? e) eqn:E.
    + assert (Level_eqb (sw_level w) LevelNone = false /\
              Level_eqb (sw_level w) PersistToMajority = false) as [E1 E2]
        by (destruct Hw as [Hw|Hw]; cbn in Hw; rewrite Hw; split; reflexivity).
      rewrite E1, E2 in H. cbn [negb andb] in H.
      destruct (monotonic_assign _ _); [|discriminate].
      eapply IH; eauto.
    + injection H as <- <-. cbn [walk]. now rewrite E.
Qed.

Lemma walk_both_any_loop (b : bool) (e : Z) (rest : list node) pos :
  Forall needs_no_persistence rest ->
  walk_both b e pos rest = walk false e pos rest.
Proof.
  intro Hl. unfold walk_both. destruct b; [|reflexivity].
  rewrite (walk_any_loop true e rest pos Hl).
  destruct (walk false e pos rest) as [[[[]|x] pos'] rest'] eqn:W;
    [|reflexivity].
  eapply walk_stops; eauto.
Qed.

(** When every prepare in front of the HPS iterator is of level Majority or
    MajorityAndPersistOnMaster, [updateHighPreparedSeqno] does the same
    whatever the persistence seqno: only a PersistToMajority prepare (or one
    of level None) makes the persistence of the snapshot matter. *)
Theorem updateHighPreparedSeqno_ignores_persistence (p q : Z) (s : State)
  (rest : list node) :
  NoDup (ids (nodes (trackedWrites s))) ->
  following (trackedWrites s) (it (highPreparedSeqno s)) = Some rest ->
  Forall needs_no_persistence rest ->
  updateHighPreparedSeqno p s = updateHighPreparedSeqno q s.
Proof.
  intros Hnd Hfol Hl.
  destruct (walk false (snapshotEnd s) (highPreparedSeqno s) rest)
    as [[r pos] rest'] eqn:W.
  assert (Wp : walk_both (p >=? snapshotEnd s) (snapshotEnd s)
                 (highPreparedSeqno s) rest = (r, pos, rest'))
    by (now rewrite walk_both_any_loop).
  assert (Wq : walk_both (q >=? snapshotEnd s) (snapshotEnd s)
                 (highPreparedSeqno s) rest = (r, pos, rest'))
    by (now rewrite walk_both_any_loop).
  destruct (updateHighPreparedSeqno_by_walk p s rest r pos rest' Hnd Hfol Wp)
    as [_ ->].
  destruct (updateHighPreparedSeqno_by_walk q s rest r pos rest' Hnd Hfol Wq)
    as [_ ->].
  reflexivity.
Qed.

Lemma updateHighPreparedSeqno_ignores_persistence_witness :
  updateHighPreparedSeqno 0 (set_snapshotEnd 2 (state two_majority))
  = updateHighPreparedSeqno 7 (set_snapshotEnd 2 (state two_majority)).
Proof.
  refine (updateHighPreparedSeqno_ignores_persistence 0 7
            (set_snapshotEnd 2 (state two_majority))
            (nodes (trackedWrites (state two_majority))) _ eq_refl _).
  - cbn. repeat constructor; cbn; intuition discriminate.
  - cbn. constructor; [now left|]. constructor; [now right|constructor].
Defined.

(** A prepare of level None in front of the HPS, inside a received snapshot
    that is not persisted: every notification fails on the [Expects] of the
    second loop and changes nothing, so the HPS is stuck until the snapshot is
    persisted. *)
Theorem level_none_blocks_notifications (m : PassiveDurabilityMonitor)
  (i : nat) (w : SyncWrite) (tl : list node) :
  NoDup (ids (nodes (trackedWrites (state m)))) ->
  following (trackedWrites (state m)) (it (highPreparedSeqno (state m)))
    = Some ((i, w) :: tl) ->
  sw_level w = LevelNone ->
  to_uint64 (sw_seqno w) <= snapshotEnd (state m) ->
  getPersistenceSeqno (vb m) < snapshotEnd (state m) ->
  notifyLocalPersistence m = (Throw ExpectationViolation, m) /\
  notifySnapshotEndReceived (snapshotEnd (state m)) m
    = (Throw ExpectationViolation, m).
Proof.
  intros Hnd Hfol Hlvl Hin Hper.
  assert (Hu : updateHighPreparedSeqno (getPersistenceSeqno (vb m)) (state m)
               = (Throw ExpectationViolation, state m)).
  { assert (W : walk_both (getPersistenceSeqno (vb m) >=? snapshotEnd (state m))
                  (snapshotEnd (state m)) (highPreparedSeqno (state m))
                  ((i, w) :: tl)
                = (Throw ExpectationViolation, highPreparedSeqno (state m),
                   (i, w) :: tl)).
    { unfold walk_both.
      replace (getPersistenceSeqno (vb m) >=? snapshotEnd (state m)) with false
        by (symmetry; rewrite Z.geb_leb; apply Z.leb_gt; lia).
      cbn [walk].
      replace (to_uint64 (sw_seqno w) <=? snapshotEnd (state m)) with true
        by (symmetry; apply Z.leb_le; lia).
      rewrite Hlvl. reflexivity. }
    destruct (updateHighPreparedSeqno_by_walk _ _ _ _ _ _ Hnd Hfol W)
      as [_ ->].
    destruct (following_suffix _ _ _ Hfol) as [pre Hpre].
    unfold empty. rewrite Hpre.
    destruct pre; cbn [app]; now rewrite set_highPreparedSeqno_eta. }
  assert (Hs : set_snapshotEnd (snapshotEnd (state m)) (state m) = state m)
    by (destruct (state m); reflexivity).
  split.
  - rewrite notifyLocalPersistence_unfold, Hu. now rewrite pdm_eta.
  - rewrite notifySnapshotEndReceived_unfold, Hs, Hu. now rewrite pdm_eta.
Qed.

Lemma level_none_blocks_notifications_witness :
  notifyLocalPersistence level_none_warmup
    = (Throw ExpectationViolation, level_none_warmup) /\
  notifySnapshotEndReceived (snapshotEnd (state level_none_warmup))
                            level_none_warmup
    = (Throw ExpectationViolation, level_none_warmup).
Proof.
  refine (level_none_blocks_notifications level_none_warmup 0%nat
            (mkSyncWrite (prepare "a" 1 LevelNone)) [] _ eq_refl eq_refl _ _).
  - cbn. repeat constructor; cbn; intuition discriminate.
  - cbn. lia.
  - cbn. lia.
Defined.

(** ** Seqnos and counters across the operations *)

(** Whatever an operation other than a rollback does, and whether it returns
    or throws, neither the high prepared seqno nor the high completed seqno
    decreases. *)
Theorem seqnos_never_decrease (op : Op) (m m' : PassiveDurabilityMonitor) r :
  is_rollback op = false ->
  perform op m = (r, m') ->
  getHighPreparedSeqno m <= getHighPreparedSeqno m' /\
  getHighCompletedSeqno m <= getHighCompletedSeqno m'.
Proof.
  intros Hop H. split; [eapply perform_HPS_monotone; eauto|].
  unfold getHighCompletedSeqno.
  destruct op as [item|key res|snapEnd| |rb|p]; cbn [perform] in H;
    try discriminate.
  - destruct (addSyncWrite_spec item m) as [[_ Hc]|(_ & _ & Hc)];
      rewrite Hc in H; injection H as <- <-; cbn; lia.
  - destruct (completeSyncWrite_spec key res m)
      as [(e & Hc & _)
         |(next & w & s1 & removed & s2 & s3 & _ & _ & _ & _ & _ & Hle
           & Hs1 & Hp & _ & _ & Hcnt & Hc)];
      rewrite Hc in H; injection H as <- <-; [lia|].
    cbn [state].
    destruct (count_resolution_spec res s2) as (s3' & Hcnt' & _ & _ & Hhcs & _).
    rewrite Hcnt in Hcnt'. injection Hcnt' as <-.
    destruct Hp as (_ & _ & _ & Hh & _).
    rewrite Hhcs, Hh, Hs1. cbn. exact Hle.
  - rewrite notifySnapshotEndReceived_unfold in H.
    destruct (updateHighPreparedSeqno _ _) as [ru s'] eqn:E.
    pose proof (updateHighPreparedSeqno_frame _ _ _ _ E)
      as (_ & _ & _ & _ & Hhcs & Hle). cbn in Hhcs, Hle.
    destruct ru as [[]|e].
    + rewrite ack_if_moved_spec in H by exact Hle.
      injection H as _ <-. destruct (_ =? _); cbn [state]; lia.
    + injection H as _ <-. cbn [state]. lia.
  - rewrite notifyLocalPersistence_unfold in H.
    destruct (updateHighPreparedSeqno _ _) as [ru s'] eqn:E.
    pose proof (updateHighPreparedSeqno_frame _ _ _ _ E)
      as (_ & _ & _ & _ & Hhcs & Hle).
    destruct ru as [[]|e].
    + rewrite ack_if_moved_spec in H by exact Hle.
      injection H as _ <-. destruct (_ =? _); cbn [state]; lia.
    + injection H as _ <-. cbn [state]. lia.
  - cbn in H. injection H as _ <-. cbn. lia.
Qed.

Lemma seqnos_never_decrease_witness :
  getHighPreparedSeqno three_prepares
    <= getHighPreparedSeqno (snd (perform (OpSnapshotEnd 3) three_prepares)) /\
  getHighCompletedSeqno three_prepares
    <= getHighCompletedSeqno (snd (perform (OpSnapshotEnd 3) three_prepares)).
Proof.
  refine (seqnos_never_decrease (OpSnapshotEnd 3) three_prepares
            (snd (perform (OpSnapshotEnd 3) three_prepares))
            (fst (perform (OpSnapshotEnd 3) three_prepares)) eq_refl _).
  now destruct (perform (OpSnapshotEnd 3) three_prepares).
Defined.

(** Each statistic is touched only by the operation that counts it, and only
    when that operation returns: [totalAccepted] by [addSyncWrite],
    [totalCommitted] and [totalAborted] by [completeSyncWrite] with the
    matching resolution.  The snapshot end is written only by
    [notifySnapshotEndReceived] (even when it throws afterwards), and no
    operation of the monitor writes the persistence seqno. *)
Theorem counters_change_only_where_counted (op : Op)
  (m : PassiveDurabilityMonitor) :
  let r := fst (perform op m) in
  let m' := snd (perform op m) in
  (getNumAccepted m' = getNumAccepted m \/
   (exists item, op = OpAdd item) /\ r = Ok tt /\
   getNumAccepted m' = size_incr (getNumAccepted m)) /\
  (getNumCommitted m' = getNumCommitted m \/
   (exists key, op = OpComplete key Commit) /\ r = Ok tt /\
   getNumCommitted m' = size_incr (getNumCommitted m)) /\
  (getNumAborted m' = getNumAborted m \/
   (exists key, op = OpComplete key Abort) /\ r = Ok tt /\
   getNumAborted m' = size_incr (getNumAborted m)) /\
  (snapshotEnd (state m') = snapshotEnd (state m) \/
   op = OpSnapshotEnd (snapshotEnd (state m'))) /\
  (getPersistenceSeqno (vb m') = getPersistenceSeqno (vb m) \/
   exists p, op = OpFlush p).
Proof.
  intros r m'. subst r m'.
  unfold getNumAccepted, getNumCommitted, getNumAborted, getPersistenceSeqno.
  destruct op as [item|key res|snapEnd| |rb|p]; cbn [perform].
  - destruct (addSyncWrite_spec item m) as [[_ Hc]|(_ & _ & Hc)];
      rewrite Hc; cbn [fst snd state vb].
    + repeat split; now left.
    + split; [right; cbn; eauto|].
      repeat split; now left.
  - destruct (completeSyncWrite_spec key res m)
      as [(e & Hc & _)
         |(next & w & s1 & removed & s2 & s3 & _ & _ & _ & _ & _ & _
           & Hs1 & Hp & _ & _ & Hcnt & Hc)];
      rewrite Hc; cbn [fst snd state vb].
    + repeat split; now left.
    + rewrite count_resolution_eq in Hcnt. injection Hcnt as <-.
      destruct Hp as (_ & _ & _ & _ & He & Ha & Hco & Hab).
      subst s1. cbn [set_highCompletedSeqno snapshotEnd totalAccepted
                      totalCommitted totalAborted] in *.
      destruct res; cbn [counted];
        cbn [set_totalCommitted set_totalAborted snapshotEnd totalAccepted
             totalCommitted totalAborted];
        rewrite ?He, ?Ha, ?Hco, ?Hab.
      * split; [now left|]. split; [right; eauto|].
        repeat split; now left.
      * split; [now left|]. split; [now left|]. split; [right; eauto|].
        repeat split; now left.
      * repeat split; now left.
  - rewrite notifySnapshotEndReceived_unfold.
    destruct (updateHighPreparedSeqno _ _) as [ru s'] eqn:E.
    pose proof (updateHighPreparedSeqno_frame _ _ _ _ E)
      as (He & Ha & Hco & Hab & _ & Hle). cbn in He, Ha, Hco, Hab, Hle.
    destruct ru as [[]|e]; [rewrite ack_if_moved_spec by exact Hle|];
      cbn [snd]; try destruct (_ =? _); cbn [state vb persistenceSeqno];
      rewrite ?He, ?Ha, ?Hco, ?Hab;
      (split; [now left|]); (split; [now left|]); (split; [now left|]);
      (split; [now right|now left]).
  - rewrite notifyLocalPersistence_unfold.
    destruct (updateHighPreparedSeqno _ _) as [ru s'] eqn:E.
    pose proof (updateHighPreparedSeqno_frame _ _ _ _ E)
      as (He & Ha & Hco & Hab & _ & Hle).
    destruct ru as [[]|e]; [rewrite ack_if_moved_spec by exact Hle|];
      cbn [snd]; try destruct (_ =? _); cbn [state vb persistenceSeqno];
      rewrite ?He, ?Ha, ?Hco, ?Hab; repeat split; now left.
  - destruct (postProcessRollback_spec rb m) as [[_ Hc]|[_ Hc]];
      rewrite Hc; cbn [fst snd state vb]; repeat split; now left.
  - cbn. repeat split; try now left. right. eauto.
Qed.

(** [to_string] names the three resolutions apart: the resolution can be read
    back from its name. *)
Theorem to_string_injective (a b : Resolution) :
  to_string a = to_string b -> a = b.
Proof. destruct a, b; cbn; intro H; try reflexivity; discriminate. Qed.

Lemma to_string_injective_witness :
  to_string Abort = to_string Abort /\ Abort = Abort.
Proof.
  split; [reflexivity|]. apply (to_string_injective Abort Abort). reflexivity.
Defined.

(** ** When [completeSyncWrite] returns *)

Lemma find_node_in (l : list node) (n : nat) :
  In n (ids l) -> exists w, find_node l n = Ok w.
Proof.
  induction l as [|[j v] l IH]; cbn; [contradiction|].
  intro H. destruct (Nat.eqb j n) eqn:E; [eauto|].
  apply Nat.eqb_neq in E. destruct H as [H|H]; [contradiction|auto].
Qed.

(** The outcome of [completeSyncWrite], read off the prepare it would
    complete. *)
Lemma completeSyncWrite_cases (key : string) (res : Resolution)
  (m : PassiveDurabilityMonitor) :
  match awaitingCompletion m with
  | Some w =>
      fst (completeSyncWrite key res m) =
        if negb (String.eqb (sw_key w) key) then Throw LogicError
        else if sw_seqno w <? getHighCompletedSeqno m
             then Throw MonotonicityViolation
             else Ok tt
  | None =>
      fst (completeSyncWrite key res m) = Throw LogicError \/
      fst (completeSyncWrite key res m) = Throw UndefinedBehaviour
  end.
Proof.
  destruct (completeSyncWrite key res m) as [r m'] eqn:HC. cbn [fst].
  unfold completeSyncWrite, wlock in HC. unfold awaitingCompletion.
  unfold getHighCompletedSeqno.
  unfold bind at 1, get at 1 in HC.
  pose proof (getIteratorNext_state (it (highCompletedSeqno (state m)))
                (state m)) as Hs.
  destruct (empty (trackedWrites (state m))) eqn:Ee.
  { cbn in HC. injection HC as <- _.
    unfold empty in Ee.
    destruct (nodes (trackedWrites (state m))) as [|n l] eqn:En;
      [|discriminate].
    unfold getIteratorNext. mred. unfold c_begin, std_next, deref.
    destruct (it (highCompletedSeqno (state m))) as [j|]; cbn [it_eqb c_end];
      rewrite En; cbn; now left. }
  unfold bind at 1 in HC.
  destruct (getIteratorNext (it (highCompletedSeqno (state m))) (state m))
    as [[next|e] s0] eqn:Egn; cbn [snd] in Hs; subst s0.
  2:{ injection HC as <- _. right. f_equal.
      unfold getIteratorNext in Egn. mred.
      destruct (it_eqb _ c_end); [discriminate|].
      injection Egn as Egn. unfold std_next in Egn.
      destruct (it (highCompletedSeqno (state m))); [|congruence].
      eapply next_of_throws; eauto. }
  destruct (it_eqb next c_end) eqn:Eend.
  { cbn in HC. injection HC as <- _.
    apply it_eqb_eq in Eend. subst next. cbn. now left. }
  unfold bind at 1, lift at 1 in HC.
  destruct (deref (trackedWrites (state m)) next) as [w|e] eqn:Ed.
  2:{ injection HC as <- _. right. f_equal.
      unfold deref in Ed. destruct next; [|congruence].
      eapply find_node_not_LogicError; eauto. }
  destruct (String.eqb (sw_key w) key); cbn [negb] in *.
  2:{ cbn in HC. now injection HC as <- _. }
  unfold bind at 1, lift at 1, monotonic_assign in HC.
  destruct (sw_seqno w <? lastWriteSeqno (highCompletedSeqno (state m))).
  { now injection HC as <- _. }
  unfold bind at 1, put at 1 in HC. unfold bind at 1 in HC.
  destruct (checkForAndRemovePrepares_spec
              (set_highCompletedSeqno (mkPosition next (sw_seqno w)) (state m)))
    as (removed & s2 & Hc & _).
  rewrite Hc in HC.
  rewrite count_resolution_eq in HC. now injection HC as <- _.
Qed.

(** [completeSyncWrite] returns exactly when the prepare after the HCS
    iterator exists, has the key given and a seqno not below the HCS; with the
    right key and a seqno below the HCS it fails on the monotonicity of the
    HCS.  With a usable HCS iterator it fails in no other way than these two
    and the logic errors. *)
Theorem completeSyncWrite_returns_iff (key : string) (res : Resolution)
  (m : PassiveDurabilityMonitor) :
  (fst (completeSyncWrite key res m) = Ok tt <->
   exists w, awaitingCompletion m = Some w /\ sw_key w = key /\
             getHighCompletedSeqno m <= sw_seqno w) /\
  (fst (completeSyncWrite key res m) = Throw MonotonicityViolation <->
   exists w, awaitingCompletion m = Some w /\ sw_key w = key /\
             sw_seqno w < getHighCompletedSeqno m) /\
  (iterator_valid (trackedWrites (state m))
                  (it (highCompletedSeqno (state m))) ->
   fst (completeSyncWrite key res m) <> Throw UndefinedBehaviour).
Proof.
  pose proof (completeSyncWrite_cases key res m) as H.
  split; [|split].
  - split.
    + intro Hok. destruct (awaitingCompletion m) as [w|].
      * rewrite Hok in H. exists w.
        destruct (String.eqb (sw_key w) key) eqn:Ek; cbn [negb] in H;
          [|discriminate].
        destruct (sw_seqno w <? getHighCompletedSeqno m) eqn:El;
          [discriminate|].
        apply String.eqb_eq in Ek. apply Z.ltb_ge in El. auto.
      * rewrite Hok in H. destruct H; discriminate.
    + intros (w & Haw & Hk & Hle). rewrite Haw in H. rewrite H.
      apply String.eqb_eq in Hk. rewrite Hk. cbn [negb].
      apply Z.ltb_ge in Hle. now rewrite Hle.
  - split.
    + intro Hm. destruct (awaitingCompletion m) as [w|].
      * rewrite Hm in H. exists w.
        destruct (String.eqb (sw_key w) key) eqn:Ek; cbn [negb] in H;
          [|discriminate].
        destruct (sw_seqno w <? getHighCompletedSeqno m) eqn:El;
          [|discriminate].
        apply String.eqb_eq in Ek. apply Z.ltb_lt in El. auto.
      * rewrite Hm in H. destruct H; discriminate.
    + intros (w & Haw & Hk & Hlt). rewrite Haw in H. rewrite H.
      apply String.eqb_eq in Hk. rewrite Hk. cbn [negb].
      apply Z.ltb_lt in Hlt. now rewrite Hlt.
  - intros Hv Hub.
    apply iterator_valid_following in Hv as [rest Hfol].
    pose proof (getIteratorNext_following _ _ _ Hfol) as Hn.
    unfold awaitingCompletion in H. rewrite Hn in H.
    destruct rest as [|[i w] tl].
    + (* the next iterator is end(): a logic error *)
      pose proof (completeSyncWrite_spec key res m) as Hs.
      destruct Hs as [(e & Hc & Hiff)|(next & w & s1 & rm & s2 & s3 & _ & _
                                       & _ & _ & _ & _ & _ & _ & _ & _ & _
                                       & Hc)];
        rewrite Hc in Hub; cbn [fst] in Hub; [|discriminate].
      injection Hub as ->.
      destruct Hiff as [_ Hiff].
      assert (UndefinedBehaviour = LogicError); [|discriminate].
      apply Hiff. right. left. rewrite Hn. reflexivity.
    + destruct (following_suffix _ _ _ Hfol) as [pre Hpre].
      cbn [first_of] in H. unfold deref in H.
      destruct (find_node_in (nodes (trackedWrites (state m))) i)
        as [w' Hw'].
      { rewrite Hpre, ids_app. apply in_or_app. right. now left. }
      rewrite Hw' in H. rewrite Hub in H.
      destruct (negb (String.eqb (sw_key w') key)); [discriminate|].
      destruct (sw_seqno w' <? getHighCompletedSeqno m); discriminate.
Qed.
